(** * CloudWatch response parsing: merge of result pages and series formatting

    A shallow embedding of [pkg/tsdb/cloudwatch/response_parser.go]:
    [parseResponse] (the fan-in of the pages of GetMetricData results and the
    per-query response records), [parseGetMetricDataTimeSeries] (tags,
    gap-filling, frames) and [formatAlias] (series names).

    Conventions of the embedding.
    - Go strings are byte strings: [string], compared and searched byte-wise.
    - A Go map is a [gmap]; the order in which [range] visits a map is not
      fixed by the language, so every such loop takes its order from
      [rangeKeys] (class [MapRange]), about which nothing but "a permutation
      of the keys" is known.  One key set is visited in one order; no
      statement below relates two loops over the same map.
    - A run of the code ends in a value, in an [error] value, or in a run-time
      panic: type [outcome].
    - The AWS SDK hands out every scalar behind a pointer.  [Values] keeps its
      pointers ([option]); [Id], [Label], [StatusCode], [Code], [Value] and
      the time stamps are taken to be set, and the fragments of a request to
      be distinct objects.
    - [time.Time] is an instant counted in nanoseconds since the Unix epoch
      ([Z], unbounded); [int] and [int64] arithmetic done by the parser itself
      wraps at 64 bits.  The conversion [float64(int64)] of a time stamp is
      left out: the time column holds the [int64] (exact below 2^53). *)

From Stdlib Require Import ZArith String Ascii DecimalString.
From Stdlib Require Import Floats.PrimFloat.
From stdpp Require Import base option list gmap strings sorting.

Local Open Scope Z_scope.

(** ** Outcomes of a run *)

Inductive panic : Type :=
| NilDereference
| IndexOutOfRange
| SliceBoundsOutOfRange.

(** [fmt.Errorf("ArithmeticError in query %q: %s", query.RefId, *message.Value)]:
    the error is kept as its two arguments. *)
Inductive error : Type :=
| ArithmeticErrorInQuery (refId : string) (value : string).

Inductive outcome (A : Type) : Type :=
| Ok (a : A)
| Err (e : error)
| Panic (p : panic).
Arguments Ok {A} a.
Arguments Err {A} e.
Arguments Panic {A} p.

Global Instance outcome_ret : MRet outcome := λ A a, Ok a.
Global Instance outcome_bind : MBind outcome := λ A B f m,
  match m with
  | Ok a => f a
  | Err e => Err e
  | Panic p => Panic p
  end.

(** A [for] loop over a slice whose body may leave the function. *)
Fixpoint forEach {A S : Type} (body : S → A → outcome S) (s : S) (xs : list A)
  : outcome S :=
  match xs with
  | [] => Ok s
  | x :: xs' => s' ← body s x; forEach body s' xs'
  end.

(** [xs[i]] on a slice. *)
Definition index {A : Type} (xs : list A) (i : nat) : outcome A :=
  match xs !! i with
  | Some x => Ok x
  | None => Panic IndexOutOfRange
  end.

(** [*p] on a pointer. *)
Definition deref {A : Type} (p : option A) : outcome A :=
  match p with
  | Some x => Ok x
  | None => Panic NilDereference
  end.

(** ** Machine integers and time *)

Definition wrap64 (z : Z) : Z := (z + 2 ^ 63) mod 2 ^ 64 - 2 ^ 63.

Definition float64 : Type := PrimFloat.float.

(** Nanoseconds since the Unix epoch. *)
Definition Time : Type := Z.
(** Nanoseconds. *)
Definition Duration : Type := Z.

Definition Second : Duration := 1000000000.
Definition time_Add (t : Time) (d : Duration) : Time := t + d.
Definition time_Before (t u : Time) : bool := t <? u.
Definition time_Unix (t : Time) : Z := t / 1000000000.

(** [time.Duration(query.Period) * time.Second] *)
Definition periodDuration (period : Z) : Duration := wrap64 (wrap64 period * Second).

(** [t.Unix()*1000], the milliseconds written to the time column. *)
Definition unixMilli (t : Time) : Z := wrap64 (time_Unix t * 1000).

(** ** Package [strings] and [strconv] *)

Definition len (s : string) : Z := Z.of_nat (String.length s).

Fixpoint HasPrefix (s prefix : string) {struct prefix} : bool :=
  match prefix, s with
  | EmptyString, _ => true
  | String a prefix', String b s' => Ascii.eqb a b && HasPrefix s' prefix'
  | String _ _, EmptyString => false
  end.

Fixpoint Contains (s substr : string) : bool :=
  HasPrefix s substr ||
  match s with
  | EmptyString => false
  | String _ s' => Contains s' substr
  end.

Fixpoint LastIndex_from (i : Z) (s substr : string) : Z :=
  match s with
  | EmptyString => if HasPrefix s substr then i else -1
  | String _ s' =>
      let r := LastIndex_from (i + 1) s' substr in
      if 0 <=? r then r else if HasPrefix s substr then i else -1
  end.
Definition LastIndex (s substr : string) : Z := LastIndex_from 0 s substr.

Fixpoint dropBytes (n : nat) (s : string) : string :=
  match n, s with
  | O, _ => s
  | S n', String _ s' => dropBytes n' s'
  | S _, EmptyString => EmptyString
  end.

(** [strings.Replace(s, old, new, 1)] *)
Fixpoint Replace1 (s old new : string) : string :=
  if HasPrefix s old then new +:+ dropBytes (String.length old) s
  else match s with
       | EmptyString => EmptyString
       | String c s' => String c (Replace1 s' old new)
       end.

Definition inCutset (cutset : string) (c : ascii) : bool :=
  existsb (Ascii.eqb c) (list_ascii_of_string cutset).

Fixpoint TrimLeft (s cutset : string) : string :=
  match s with
  | EmptyString => EmptyString
  | String c s' => if inCutset cutset c then TrimLeft s' cutset else s
  end.

Fixpoint TrimRight (s cutset : string) : string :=
  match s with
  | EmptyString => EmptyString
  | String c s' =>
      match TrimRight s' cutset with
      | EmptyString => if inCutset cutset c then EmptyString else String c EmptyString
      | t => String c t
      end
  end.

Definition Trim (s cutset : string) : string := TrimRight (TrimLeft s cutset) cutset.

(** *** Unicode white space *)

(** A byte of a string, from its value. *)
Definition byte (z : Z) : ascii := ascii_of_N (Z.to_N (Z.land z 0xFF)).

Definition bytes (l : list Z) : string := string_of_list_ascii (byte <$> l).

Definition RuneError : Z := 0xFFFD.

(** [utf8.EncodeRune]: the UTF-8 encoding of a code point; a surrogate and a
    value that is no code point are encoded as U+FFFD. *)
Definition EncodeRune (r : Z) : string :=
  if (0 <=? r) && (r <=? 0x7F) then String (byte r) ""
  else if (0 <=? r) && (r <=? 0x7FF) then
    String (byte (Z.lor 0xC0 (Z.shiftr r 6)))
      (String (byte (Z.lor 0x80 (Z.land r 0x3F))) "")
  else
    let r := if (r <? 0) || (0x10FFFF <? r) || ((0xD800 <=? r) && (r <=? 0xDFFF))
             then RuneError else r in
    if r <=? 0xFFFF then
      String (byte (Z.lor 0xE0 (Z.shiftr r 12)))
        (String (byte (Z.lor 0x80 (Z.land (Z.shiftr r 6) 0x3F)))
           (String (byte (Z.lor 0x80 (Z.land r 0x3F))) ""))
    else
      String (byte (Z.lor 0xF0 (Z.shiftr r 18)))
        (String (byte (Z.lor 0x80 (Z.land (Z.shiftr r 12) 0x3F)))
           (String (byte (Z.lor 0x80 (Z.land (Z.shiftr r 6) 0x3F)))
              (String (byte (Z.lor 0x80 (Z.land r 0x3F))) ""))).

(** The code points [unicode.IsSpace] accepts: in Latin-1 the characters
    ['\t'], ['\n'], ['\v'], ['\f'], ['\r'], [' '], U+0085 (NEL) and U+00A0
    (NBSP); beyond Latin-1 the Unicode property White_Space: U+1680,
    U+2000 to U+200A, U+2028, U+2029, U+202F, U+205F and U+3000. *)
Definition White_Space : list Z :=
  [0x09; 0x0A; 0x0B; 0x0C; 0x0D; 0x20; 0x85; 0xA0; 0x1680;
   0x2000; 0x2001; 0x2002; 0x2003; 0x2004; 0x2005; 0x2006; 0x2007; 0x2008; 0x2009;
   0x200A; 0x2028; 0x2029; 0x202F; 0x205F; 0x3000].

(** White space as a string holds it. *)
Definition spaceBytes : list string := EncodeRune <$> White_Space.

Definition isSpaceBytes (table : list string) (u : string) : bool :=
  existsb (String.eqb u) table.

(** [s] without the runes of [table] it starts with; a rune of [table] takes
    one, two or three bytes. *)
Fixpoint trimLeftRunes (table : list string) (s : string) : string :=
  match s with
  | String c1 s1 =>
      if isSpaceBytes table (String c1 "") then trimLeftRunes table s1
      else
        match s1 with
        | String c2 s2 =>
            if isSpaceBytes table (String c1 (String c2 "")) then trimLeftRunes table s2
            else
              match s2 with
              | String c3 s3 =>
                  if isSpaceBytes table (String c1 (String c2 (String c3 "")))
                  then trimLeftRunes table s3
                  else s
              | EmptyString => s
              end
        | EmptyString => s
        end
  | EmptyString => EmptyString
  end.

(** A continuation byte of UTF-8, and an encoding whose bytes after the first
    are continuation bytes. *)
Definition isCont (c : ascii) : bool :=
  (128 <=? nat_of_ascii c)%nat && (nat_of_ascii c <=? 191)%nat.

Definition contTail (u : string) : bool :=
  match u with
  | String _ t => forallb isCont (list_ascii_of_string t)
  | EmptyString => false
  end.

(** One to three bytes. *)
Definition runeSized (u : string) : bool :=
  (1 <=? String.length u)%nat && (String.length u <=? 3)%nat.

(** [strings.TrimLeftFunc(s, unicode.IsSpace)] and
    [strings.TrimRightFunc(s, unicode.IsSpace)].  Go reads a string rune by
    rune, from either end; bytes that are no UTF-8 encoding read as U+FFFD,
    one byte at a time, and U+FFFD is no white space.  No encoding is the
    beginning or the end of another one, so a string starts (ends) with a
    white-space rune exactly when it starts (ends) with the encoding of
    one. *)
Definition TrimLeftSpace (s : string) : string := trimLeftRunes spaceBytes s.

Definition TrimRightSpace (s : string) : string :=
  String.rev (trimLeftRunes (String.rev <$> spaceBytes) (String.rev s)).

(** [strings.TrimSpace]: [s] without its leading and its trailing white
    space, as Unicode defines it. *)
Definition TrimSpace (s : string) : string := TrimRightSpace (TrimLeftSpace s).

(** [s[lo:hi]] *)
Definition slice (s : string) (lo hi : Z) : outcome string :=
  if (0 <=? lo) && (lo <=? hi) && (hi <=? len s)
  then Ok (substring (Z.to_nat lo) (Z.to_nat (hi - lo)) s)
  else Panic SliceBoundsOutOfRange.

(** [strconv.Itoa] *)
Definition Itoa (n : Z) : string := NilZero.string_of_int (Z.to_int n).

(** [sort.Strings] *)
Definition sortStrings (l : list string) : list string := merge_sort String.le l.

(** ** The order of [range] over a map *)

Class MapRange : Type := {
  rangeKeys : gset string → list string;
  rangeKeys_perm : ∀ X, rangeKeys X ≡ₚ elements X
}.

(** One admissible order. *)
Definition canonicalRange : MapRange :=
  {| rangeKeys := elements; rangeKeys_perm := λ X, reflexivity (elements X) |}.

(** Another one: the reverse. *)
Definition reverseRange : MapRange :=
  {| rangeKeys := λ X, reverse (elements X);
     rangeKeys_perm := λ X, reverse_Permutation (elements X) |}.

(** ** Data model *)

(** [cloudwatch.MessageData] *)
Record MessageData : Type := {
  msg_Code : string;
  msg_Value : string
}.

(** [cloudwatch.MetricDataResult] *)
Record MetricDataResult : Type := {
  res_Id : string;
  res_Label : string;
  res_Messages : list MessageData;
  res_StatusCode : string;
  res_Timestamps : list Time;
  res_Values : list (option float64)
}.

(** [cloudwatch.GetMetricDataOutput] *)
Record GetMetricDataOutput : Type := {
  out_Messages : list MessageData;
  out_MetricDataResults : list MetricDataResult
}.

(** Modelled from the spec: the struct [cloudWatchQuery] is declared elsewhere
    in package [cloudwatch]; the record has the fields of the specification's
    Query that [response_parser.go] reads and writes, under the names it
    uses. *)
Record cloudWatchQuery : Type := {
  q_RefId : string;
  q_Region : string;
  q_Id : string;
  q_Namespace : string;
  q_MetricName : string;
  q_Stats : string;
  q_Expression : string;
  q_Dimensions : gmap string (list string);
  q_Period : Z;
  q_Alias : string;
  q_UsedExpression : string;
  q_RequestExceededMaxLimit : bool
}.

Definition set_RequestExceededMaxLimit (q : cloudWatchQuery) (b : bool) : cloudWatchQuery :=
  {| q_RefId := q_RefId q; q_Region := q_Region q; q_Id := q_Id q;
     q_Namespace := q_Namespace q; q_MetricName := q_MetricName q;
     q_Stats := q_Stats q; q_Expression := q_Expression q;
     q_Dimensions := q_Dimensions q; q_Period := q_Period q;
     q_Alias := q_Alias q; q_UsedExpression := q_UsedExpression q;
     q_RequestExceededMaxLimit := b |}.

(** The classification methods of [cloudWatchQuery] are declared with the
    struct; they are parameters of the development. *)
Class QueryKinds : Type := {
  isMathExpression : cloudWatchQuery → bool;
  isUserDefinedSearchExpression : cloudWatchQuery → bool;
  isInferredSearchExpression : cloudWatchQuery → bool;
  isMultiValuedDimensionExpression : cloudWatchQuery → bool
}.

(** A column of [data.Field]. *)
Inductive Column : Type :=
| TimeColumn (ms : list Z)
| NullableColumn (points : list (option float64)).

Record Field : Type := {
  fld_Name : string;
  fld_Values : Column
}.

(** [data.Frame], with [Meta.Custom["tags"]] as [frm_Tags]. *)
Record Frame : Type := {
  frm_Name : string;
  frm_Fields : list Field;
  frm_Tags : gmap string string
}.

Record cloudwatchResponse : Type := {
  resp_DataFrames : list Frame;
  resp_Id : string;
  resp_RefId : string;
  resp_Expression : string;
  resp_RequestExceededMaxLimit : bool;
  resp_PartialData : bool;
  resp_Period : Z
}.

(** ** The alias template *)

(** Modelled from the spec: [aliasFormat], the compiled pattern of a
    placeholder, is declared elsewhere in package [cloudwatch].  A placeholder is
    [{{], a text of at least one byte, [}}]; the text is as short as it can
    be, and the input is scanned from the left, a match resuming after its
    [}}].  [ReplaceAllFunc] hands each placeholder, braces included, to
    [repl]. *)
Fixpoint aliasFormat_ReplaceAllFunc (repl : string → string) (s : string) : string :=
  match s with
  | String c1 (String c2 (String c3 rest) as s') =>
      if Ascii.eqb c1 "{" && Ascii.eqb c2 "{"
      then aliasFormat_inside repl (String c3 EmptyString) rest
      else String c1 (aliasFormat_ReplaceAllFunc repl s')
  | String c1 s' => String c1 (aliasFormat_ReplaceAllFunc repl s')
  | EmptyString => EmptyString
  end
with aliasFormat_inside (repl : string → string) (text s : string) : string :=
  match s with
  | String c1 (String c2 rest as s') =>
      if Ascii.eqb c1 "}" && Ascii.eqb c2 "}"
      then repl ("{{" +:+ text +:+ "}}") +:+ aliasFormat_ReplaceAllFunc repl rest
      else aliasFormat_inside repl (text +:+ String c1 EmptyString) s'
  | String c1 EmptyString => "{{" +:+ text +:+ String c1 EmptyString
  | EmptyString => "{{" +:+ text
  end.

(** The function literal handed to [ReplaceAllFunc] in [formatAlias]. *)
Definition aliasToken (data : gmap string string) (in_ : string) : string :=
  let labelName := Replace1 in_ "{{" "" in
  let labelName := Replace1 labelName "}}" "" in
  let labelName := TrimSpace labelName in
  match data !! labelName with
  | Some val => val
  | None => in_
  end.

Section Parser.
Context `{kinds : QueryKinds} `{range : MapRange}.

(** [period] and [stat] as [formatAlias] uses them: read off the expression
    when the query is a user-defined search expression. *)
Definition aliasPeriodStat (query : cloudWatchQuery) (stat : string)
  : outcome (string * string) :=
  let period := Itoa (q_Period query) in
  if isUserDefinedSearchExpression query then
    let pIndex := LastIndex (q_Expression query) "," in
    tail ← slice (q_Expression query) (pIndex + 1) (len (q_Expression query));
    let period := Trim tail " )" in
    front ← slice (q_Expression query) 0 pIndex;
    let sIndex := LastIndex front "," in
    mid ← slice (q_Expression query) (sIndex + 1) pIndex;
    Ok (period, Trim mid " '")
  else Ok (period, stat).

(** The map [data] of [formatAlias]. *)
Definition aliasData (query : cloudWatchQuery) (period stat : string)
    (dimensions : gmap string string) (label : string) : gmap string string :=
  let data : gmap string string :=
    <["period" := period]> (<["stat" := stat]> (<["metric" := q_MetricName query]>
      (<["namespace" := q_Namespace query]> (<["region" := q_Region query]> ∅)))) in
  let data := if len label =? 0 then data else <["label" := label]> data in
  foldl (λ data k, match dimensions !! k with
                   | Some v => <[k := v]> data
                   | None => data
                   end)
        data (rangeKeys (dom dimensions)).

Definition formatAlias (query : cloudWatchQuery) (stat : string)
    (dimensions : gmap string string) (label : string) : outcome string :=
  '(period, stat) ← aliasPeriodStat query stat;
  if (len (q_Alias query) =? 0) && isMathExpression query then Ok (q_Id query)
  else if (len (q_Alias query) =? 0) && isInferredSearchExpression query
          && negb (isMultiValuedDimensionExpression query) then Ok label
  else
    let data := aliasData query period stat dimensions label in
    let result := aliasFormat_ReplaceAllFunc (aliasToken data) (q_Alias query) in
    if String.eqb result "" then Ok (q_MetricName query +:+ "_" +:+ stat)
    else Ok result.

(** *** One merged result *)

Definition checkMessages (query : cloudWatchQuery) (messages : list MessageData)
  : outcome unit :=
  forEach (λ _ message,
             if String.eqb (msg_Code message) "ArithmeticError"
             then Err (ArithmeticErrorInQuery (q_RefId query) (msg_Value message))
             else Ok tt)
          tt messages.

Definition dimensionValues (query : cloudWatchQuery) (key : string) : list string :=
  default [] (q_Dimensions query !! key).

(** [series] and [multiValuedDimension] after the first loop of the
    zero-data branch. *)
Definition moreValues (query : cloudWatchQuery) (st : nat * string) (key : string)
  : nat * string :=
  let '(series, dimension) := st in
  let values := dimensionValues query key in
  if (series <? length values)%nat then (length values, key) else (series, dimension).

Definition multiValuedDimension (query : cloudWatchQuery) : nat * string :=
  foldl (moreValues query) (0%nat, "") (rangeKeys (dom (q_Dimensions query))).

Definition emptyFrameTags (query : cloudWatchQuery) (dimension value : string)
  : gmap string string :=
  foldl (λ tags key,
           match dimensionValues query key with
           | v0 :: _ => if bool_decide (key ≠ dimension) then <[key := v0]> tags else tags
           | [] => tags
           end)
        ({[dimension := value]} : gmap string string)
        (rangeKeys (dom (q_Dimensions query))).

Definition emptyFrames (query : cloudWatchQuery) (label : string) : outcome (list Frame) :=
  let dimension := (multiValuedDimension query).2 in
  forEach (λ frames value,
             let tags := emptyFrameTags query dimension value in
             name ← formatAlias query (q_Stats query) tags label;
             Ok (frames ++ [ {| frm_Name := name; frm_Fields := []; frm_Tags := tags |} ]))
          [] (dimensionValues query dimension).

Definition dimensionTags (query : cloudWatchQuery) (label : string) : gmap string string :=
  foldl (λ tags dim,
           let values := dimensionValues query dim in
           if (length values =? 1)%nat && negb (String.eqb (hd "" values) "*")
           then <[dim := hd "" values]> tags
           else foldl (λ tags value,
                         if String.eqb value label || String.eqb value "*"
                         then <[dim := label]> tags
                         else if Contains label value then <[dim := value]> tags
                         else tags)
                      tags values)
        (∅ : gmap string string)
        (sortStrings (rangeKeys (dom (q_Dimensions query)))).

(** The gap-filling loop, [j] the index of the head of [rest] in [Ts]. *)
Fixpoint gapFill (period : Z) (Ts : list Time) (Vs : list (option float64))
    (j : nat) (rest : list Time) (timestamps : list Z) (points : list (option float64))
  : outcome (list Z * list (option float64)) :=
  match rest with
  | [] => Ok (timestamps, points)
  | t :: rest' =>
      '(timestamps, points) ←
        (if (0 <? j)%nat then
           prev ← index Ts (j - 1);
           let expectedTimestamp := time_Add prev (periodDuration period) in
           if time_Before expectedTimestamp t
           then Ok (timestamps ++ [unixMilli expectedTimestamp], points ++ [None])
           else Ok (timestamps, points)
         else Ok (timestamps, points));
      val ← index Vs j;
      _ ← deref val;
      gapFill period Ts Vs (S j) rest' (timestamps ++ [unixMilli t]) (points ++ [val])
  end.

Definition seriesFrame (query : cloudWatchQuery) (label : string)
    (metricDataResult : MetricDataResult) : outcome (list Frame) :=
  let tags := dimensionTags query label in
  '(timestamps, points) ←
    gapFill (q_Period query) (res_Timestamps metricDataResult)
            (res_Values metricDataResult) 0 (res_Timestamps metricDataResult) [] [];
  let fields := [ {| fld_Name := "timestamp"; fld_Values := TimeColumn timestamps |};
                  {| fld_Name := "value"; fld_Values := NullableColumn points |} ] in
  name ← formatAlias query (q_Stats query) tags label;
  Ok [ {| frm_Name := name; frm_Fields := fields; frm_Tags := tags |} ].

(** The frames one label adds. *)
Definition labelFrames (query : cloudWatchQuery) (label : string)
    (metricDataResult : MetricDataResult) : outcome (list Frame) :=
  if (length (res_Values metricDataResult) =? 0)%nat
     && isMultiValuedDimensionExpression query
  then emptyFrames query label
  else seriesFrame query label metricDataResult.

Definition metricDataResultLabels (metricDataResults : gmap string MetricDataResult)
  : list string :=
  sortStrings (rangeKeys (dom metricDataResults)).

Definition parseGetMetricDataTimeSeries
    (metricDataResults : gmap string MetricDataResult) (query : cloudWatchQuery)
  : outcome (list Frame * bool) :=
  forEach (λ '(frames, partialData) label,
             metricDataResult ← deref (metricDataResults !! label);
             let partialData :=
               if String.eqb (res_StatusCode metricDataResult) "Complete"
               then partialData else true in
             _ ← checkMessages query (res_Messages metricDataResult);
             more ← labelFrames query label metricDataResult;
             Ok (frames ++ more, partialData))
          ([], false) (metricDataResultLabels metricDataResults).

(** *** The request *)

Definition requestExceededMaxLimit (mdo : GetMetricDataOutput) : bool :=
  foldl (λ exceeded message,
           if String.eqb (msg_Code message) "MaxMetricsExceeded" then true else exceeded)
        false (out_Messages mdo).

Definition appendResult (old r : MetricDataResult) : MetricDataResult :=
  {| res_Id := res_Id old; res_Label := res_Label old;
     res_Messages := res_Messages old;
     res_StatusCode := if String.eqb (res_StatusCode r) "Complete"
                       then res_StatusCode r else res_StatusCode old;
     res_Timestamps := res_Timestamps old ++ res_Timestamps r;
     res_Values := res_Values old ++ res_Values r |}.

Definition mergeState : Type :=
  gmap string (gmap string MetricDataResult) * gmap string cloudWatchQuery.

(** [mdr] after the branches on [mdr[*r.Id]] and [mdr[*r.Id][*r.Label]]. *)
Definition insertResult (mdr : gmap string (gmap string MetricDataResult))
    (r : MetricDataResult) : gmap string (gmap string MetricDataResult) :=
  match mdr !! res_Id r with
  | None => <[res_Id r := {[res_Label r := r]}]> mdr
  | Some byLabel =>
      match byLabel !! res_Label r with
      | None => <[res_Id r := <[res_Label r := r]> byLabel]> mdr
      | Some old => <[res_Id r := <[res_Label r := appendResult old r]> byLabel]> mdr
      end
  end.

(** The body of the loop over [mdo.MetricDataResults]. *)
Definition mergeResult (exceeded : bool) (st : mergeState) (r : MetricDataResult)
  : outcome mergeState :=
  let '(mdr, queries) := st in
  let mdr := insertResult mdr r in
  query ← deref (queries !! res_Id r);
  Ok (mdr, <[res_Id r := set_RequestExceededMaxLimit query exceeded]> queries).

Definition mergeOutput (st : mergeState) (mdo : GetMetricDataOutput) : outcome mergeState :=
  forEach (mergeResult (requestExceededMaxLimit mdo)) st (out_MetricDataResults mdo).

(** The first loop of [parseResponse]: [mdr] and the queries as it leaves
    them. *)
Definition mergeOutputs (metricDataOutputs : list GetMetricDataOutput)
    (queries : gmap string cloudWatchQuery) : outcome mergeState :=
  forEach mergeOutput (∅, queries) metricDataOutputs.

(** The body of the second loop of [parseResponse]. *)
Definition queryResponse (mdr : gmap string (gmap string MetricDataResult))
    (queries : gmap string cloudWatchQuery) (id : string) : outcome cloudwatchResponse :=
  lr ← deref (mdr !! id);
  query ← deref (queries !! id);
  '(frames, partialData) ← parseGetMetricDataTimeSeries lr query;
  Ok {| resp_DataFrames := frames;
        resp_Period := q_Period query;
        resp_Expression := q_UsedExpression query;
        resp_RefId := q_RefId query;
        resp_Id := q_Id query;
        resp_RequestExceededMaxLimit := q_RequestExceededMaxLimit query;
        resp_PartialData := partialData |}.

Definition parseResponse (metricDataOutputs : list GetMetricDataOutput)
    (queries : gmap string cloudWatchQuery) : outcome (list cloudwatchResponse) :=
  '(mdr, queries) ← mergeOutputs metricDataOutputs queries;
  forEach (λ cloudWatchResponses id,
             response ← queryResponse mdr queries id;
             Ok (cloudWatchResponses ++ [response]))
          [] (rangeKeys (dom mdr)).

End Parser.

(** ** Notions the statements use *)

(** [formatAlias] reads the expression of a user-defined search expression
    past its last comma: it needs one. *)
Definition aliasReadable `{kinds : QueryKinds} (query : cloudWatchQuery) : Prop :=
  isUserDefinedSearchExpression query = true → 0 ≤ LastIndex (q_Expression query) ",".


(** The fragments of a request, in arrival order: batch after batch, each
    batch in its own order. *)
Definition allResults (outputs : list GetMetricDataOutput) : list MetricDataResult :=
  concat (out_MetricDataResults <$> outputs).

(** The fragments of one (id, label) pair. *)
Definition fragments (id label : string) (rs : list MetricDataResult)
  : list MetricDataResult :=
  filter (λ r, res_Id r = id ∧ res_Label r = label) rs.

Definition lookup2 (mdr : gmap string (gmap string MetricDataResult))
    (id label : string) : option MetricDataResult :=
  mdr !! id ≫= (λ byLabel, byLabel !! label).

(** What the fragments of one pair merge to. *)
Definition mergedFragments (fs : list MetricDataResult) : option MetricDataResult :=
  match fs with
  | [] => None
  | f :: fs' => Some (foldl appendResult f fs')
  end.

Definition isComplete (r : MetricDataResult) : Prop := res_StatusCode r = "Complete".

Definition referencesQuery (id : string) (mdo : GetMetricDataOutput) : Prop :=
  ∃ r, r ∈ out_MetricDataResults mdo ∧ res_Id r = id.

Definition hasMessage (code : string) (messages : list MessageData) : Prop :=
  ∃ message, message ∈ messages ∧ msg_Code message = code.

(** The queries after one batch, and after all of them. *)
Definition flagQueries (exceeded : bool) (queries : gmap string cloudWatchQuery)
    (rs : list MetricDataResult) : gmap string cloudWatchQuery :=
  foldl (λ queries r,
           alter (λ query, set_RequestExceededMaxLimit query exceeded) (res_Id r) queries)
        queries rs.

Definition flaggedQueries (queries : gmap string cloudWatchQuery)
    (outputs : list GetMetricDataOutput) : gmap string cloudWatchQuery :=
  foldl (λ queries mdo,
           flagQueries (requestExceededMaxLimit mdo) queries (out_MetricDataResults mdo))
        queries outputs.

Global Instance referencesQuery_dec (id : string) (mdo : GetMetricDataOutput) :
  Decision (referencesQuery id mdo).
Proof.
  refine (cast_if (decide (Exists (λ r, res_Id r = id) (out_MetricDataResults mdo))));
    unfold referencesQuery; rewrite Exists_exists in *; naive_solver.
Defined.

(** The flag written last for a query, if any was. *)
Definition lastExceeded (id : string) (outputs : list GetMetricDataOutput) : option bool :=
  foldl (λ last mdo, if decide (referencesQuery id mdo)
                     then Some (requestExceededMaxLimit mdo) else last)
        None outputs.

Definition withExceeded (last : option bool) (query : cloudWatchQuery) : cloudWatchQuery :=
  match last with
  | Some exceeded => set_RequestExceededMaxLimit query exceeded
  | None => query
  end.


(** What one label contributes to the frames, and to the partial-data flag. *)
Definition labelOutcome `{kinds : QueryKinds} `{range : MapRange}
    (query : cloudWatchQuery) (metricDataResults : gmap string MetricDataResult)
    (label : string) : outcome (list Frame) :=
  metricDataResult ← deref (metricDataResults !! label);
  _ ← checkMessages query (res_Messages metricDataResult);
  labelFrames query label metricDataResult.

Definition incomplete (metricDataResults : gmap string MetricDataResult)
    (label : string) : bool :=
  match metricDataResults !! label with
  | Some metricDataResult => negb (String.eqb (res_StatusCode metricDataResult) "Complete")
  | None => false
  end.

(** ** Requests the statements are tried on *)

Definition fragment (id label status : string) (timestamps : list Time)
    (values : list (option float64)) : MetricDataResult :=
  {| res_Id := id; res_Label := label; res_Messages := []; res_StatusCode := status;
     res_Timestamps := timestamps; res_Values := values |}.

Definition batch (codes : list string) (results : list MetricDataResult)
  : GetMetricDataOutput :=
  {| out_Messages := (λ code, {| msg_Code := code; msg_Value := "" |}) <$> codes;
     out_MetricDataResults := results |}.

Definition metricQuery (id refId : string) (dimensions : gmap string (list string))
    (alias : string) : cloudWatchQuery :=
  {| q_RefId := refId; q_Region := "us-east-1"; q_Id := id; q_Namespace := "custom";
     q_MetricName := "test"; q_Stats := "stat1"; q_Expression := "";
     q_Dimensions := dimensions; q_Period := 60; q_Alias := alias;
     q_UsedExpression := ""; q_RequestExceededMaxLimit := false |}.

(** No query is an expression of any kind. *)
Definition plainKinds : QueryKinds :=
  {| isMathExpression := λ _, false;
     isUserDefinedSearchExpression := λ _, false;
     isInferredSearchExpression := λ _, false;
     isMultiValuedDimensionExpression := λ _, false |}.

(** Every query is an inferred search over a multi-valued dimension. *)
Definition multiValuedKinds : QueryKinds :=
  {| isMathExpression := λ _, false;
     isUserDefinedSearchExpression := λ _, false;
     isInferredSearchExpression := λ _, true;
     isMultiValuedDimensionExpression := λ _, true |}.

Definition seconds (n : Z) : Time := n * Second.

(** A fragment of a query the request never submitted. *)
Definition strayFragment : MetricDataResult :=
  fragment "ghost" "label" "Complete" [seconds 0] [Some 1%float].
Definition strayOutputs : list GetMetricDataOutput :=
  [batch [] [fragment "a" "label" "Complete" [seconds 0] [Some 1%float]; strayFragment]].
Definition oneQuery : gmap string cloudWatchQuery :=
  {["a" := metricQuery "a" "A" ∅ ""]}.

(** Two pages of one query: the first reports the limit, the second does not. *)
Definition limitThenNone : list GetMetricDataOutput :=
  [batch ["MaxMetricsExceeded"] [fragment "a" "label" "PartialData" [seconds 0] [Some 1%float]];
   batch [] [fragment "a" "label" "Complete" [seconds 60] [Some 2%float]]].

(** The flag of a query once every batch is merged. *)
Definition finalExceededLimit (outputs : list GetMetricDataOutput)
    (queries : gmap string cloudWatchQuery) (id : string) : outcome bool :=
  '(_, queries) ← mergeOutputs outputs queries;
  query ← deref (queries !! id);
  Ok (q_RequestExceededMaxLimit query).

(** What the first loop of [parseResponse] leaves, when it ends well. *)
Definition mergedOf (outputs : list GetMetricDataOutput)
    (queries : gmap string cloudWatchQuery) : mergeState :=
  match mergeOutputs outputs queries with
  | Ok st => st
  | _ => (∅, ∅)
  end.

Definition resultsOf (outputs : list GetMetricDataOutput)
    (queries : gmap string cloudWatchQuery) (id : string) : gmap string MetricDataResult :=
  default ∅ ((mergedOf outputs queries).1 !! id).

(** Query ["a"] divides by zero; query ["b"] is sound. *)
Definition divisionByZero : MetricDataResult :=
  {| res_Id := "a"; res_Label := "label";
     res_Messages := [ {| msg_Code := "ArithmeticError"; msg_Value := "division by zero" |} ];
     res_StatusCode := "Complete"; res_Timestamps := []; res_Values := [] |}.
Definition twoQueries : gmap string cloudWatchQuery :=
  <["a" := metricQuery "a" "A" ∅ ""]> (<["b" := metricQuery "b" "B" ∅ ""]> ∅).
Definition failingAndSound : list GetMetricDataOutput :=
  [batch [] [divisionByZero; fragment "b" "label" "Complete" [seconds 0] [Some 1%float]]].

(** The record of one query, formatted on its own. *)
Definition responseOf `{kinds : QueryKinds} `{range : MapRange}
    (outputs : list GetMetricDataOutput) (queries : gmap string cloudWatchQuery)
    (id : string) : outcome cloudwatchResponse :=
  '(mdr, queries) ← mergeOutputs outputs queries;
  queryResponse mdr queries id.

(** The flags and the time columns of a response. *)
Definition partialDataFlags (result : outcome (list cloudwatchResponse))
  : outcome (list (string * bool)) :=
  match result with
  | Ok responses =>
      Ok ((λ response, (resp_RefId response, resp_PartialData response)) <$> responses)
  | Err e => Err e
  | Panic p => Panic p
  end.

Definition frameTimes (frame : Frame) : list Z :=
  flat_map (λ field, match fld_Values field with
                     | TimeColumn ms => ms
                     | NullableColumn _ => []
                     end)
           (frm_Fields frame).

Definition responseTimes (result : outcome (list cloudwatchResponse))
  : outcome (list (list Z)) :=
  match result with
  | Ok responses => Ok (frameTimes <$> flat_map resp_DataFrames responses)
  | Err e => Err e
  | Panic p => Panic p
  end.

(** What formatting one query returns, when it ends well. *)
Definition formattedOf `{kinds : QueryKinds} `{range : MapRange}
    (metricDataResults : gmap string MetricDataResult) (query : cloudWatchQuery)
  : list Frame * bool :=
  match parseGetMetricDataTimeSeries metricDataResults query with
  | Ok result => result
  | _ => ([], false)
  end.

(** ** Gap-filling, as the specification words it *)

(** What pair [j] puts out: one synthetic null point at
    [timestamps[j-1] + period seconds] when [j > 0] and that instant is
    strictly before [timestamps[j]], then the pair itself. *)
Definition pairAt (period : Z) (Ts : list Time) (Vs : list (option float64)) (j : nat)
  : list (Z * option float64) :=
  match Ts !! j, Vs !! j with
  | Some t, Some v =>
      match j with
      | S i =>
          match Ts !! i with
          | Some prev =>
              let expected := time_Add prev (period * Second) in
              if time_Before expected t then [(unixMilli expected, None)] else []
          | None => []
          end
      | O => []
      end ++ [(unixMilli t, v)]
  | _, _ => []
  end.

Definition gapFilled (period : Z) (Ts : list Time) (Vs : list (option float64))
  : list (Z * option float64) :=
  flat_map (pairAt period Ts Vs) (seq 0 (length Ts)).

(** Consecutive time stamps are exactly one period apart. *)
Definition gapless (period : Z) (Ts : list Time) : Prop :=
  ∀ j prev t, Ts !! j = Some prev → Ts !! S j = Some t → t = time_Add prev (period * Second).

(** A merged result with a null sample. *)
Definition nullSample : MetricDataResult :=
  fragment "a" "label" "Complete" [seconds 0; seconds 60] [Some 1%float; None].

(** The tags of the frames one label adds. *)
Definition frameTags (result : outcome (list Frame)) : outcome (list (gmap string string)) :=
  match result with
  | Ok frames => Ok (frm_Tags <$> frames)
  | Err e => Err e
  | Panic p => Panic p
  end.

Definition emptyFrame (name : string) (tags : gmap string string) : Frame :=
  {| frm_Name := name; frm_Fields := []; frm_Tags := tags |}.

(** A result without data. *)
Definition noData : MetricDataResult := fragment "a" "label" "Complete" [] [].

(** Two candidates for [dim1]. *)
Definition fanOutQuery : cloudWatchQuery :=
  metricQuery "a" "A" {["dim1" := ["val1"; "val2"]]} "".

(** Three candidates for [a], two for [b]. *)
Definition unevenQuery : cloudWatchQuery :=
  metricQuery "a" "A" (<["a" := ["1"; "2"; "3"]]> (<["b" := ["x"; "y"]]> ∅)) "".

(** ** The alias template, as the specification words it *)

(** The context of an alias: region, namespace, metric, stat, period, the
    label when it is not empty, and every resolved dimension tag (a tag goes
    before an entry of the same name). *)
Definition aliasContext (query : cloudWatchQuery) (period stat : string)
    (dimensions : gmap string string) (label : string) : gmap string string :=
  dimensions ∪
  ((if decide (label = "") then ∅ else {["label" := label]}) ∪
   <["period" := period]> (<["stat" := stat]> (<["metric" := q_MetricName query]>
     (<["namespace" := q_Namespace query]> (<["region" := q_Region query]> ∅))))).

(** A run of white space, as its code points. *)
Definition spaces (rs : list Z) : string :=
  foldr (λ r s, EncodeRune r +:+ s) "" rs.

(** A template: texts and placeholders [{{token}}], a token being a name
    between two runs of white space. *)
Inductive piece : Type :=
| Text (s : string)
| Placeholder (lead : list Z) (name : string) (trail : list Z).

Definition token (lead : list Z) (name : string) (trail : list Z) : string :=
  spaces lead +:+ name +:+ spaces trail.

Definition renderPiece (p : piece) : string :=
  match p with
  | Text s => s
  | Placeholder lead name trail => "{{" +:+ token lead name trail +:+ "}}"
  end.

Definition render (pieces : list piece) : string :=
  foldr (λ p s, renderPiece p +:+ s) "" pieces.

(** A placeholder becomes the context value of its trimmed token, the name,
    when the context has one, and is lead as it stands otherwise. *)
Definition expandPiece (context : gmap string string) (p : piece) : string :=
  match p with
  | Text s => s
  | Placeholder lead name trail =>
      match context !! name with
      | Some value => value
      | None => "{{" +:+ token lead name trail +:+ "}}"
      end
  end.

Definition expand (context : gmap string string) (pieces : list piece) : string :=
  foldr (λ p s, expandPiece context p +:+ s) "" pieces.

Fixpoint hasByte (c : ascii) (s : string) : bool :=
  match s with
  | EmptyString => false
  | String d s' => Ascii.eqb d c || hasByte c s'
  end.

(** A name neither begins nor ends with white space. *)
Definition trimmed (name : string) : Prop :=
  ∀ r rest, r ∈ White_Space →
            name ≠ EncodeRune r +:+ rest ∧ name ≠ rest +:+ EncodeRune r.

(** The same, as a test on the bytes of the name. *)
Definition trimmedb (name : string) : bool :=
  forallb (λ u, negb (HasPrefix name u)) spaceBytes &&
  forallb (λ u, negb (HasPrefix (String.rev name) (String.rev u))) spaceBytes.

(** Texts hold no opening brace; a token is not empty, its name is trimmed
    and holds no closing brace, and what surrounds the name is white
    space. *)
Definition wellFormed (p : piece) : Prop :=
  match p with
  | Text s => hasByte "{" s = false
  | Placeholder lead name trail =>
      Forall (λ r, r ∈ White_Space) lead ∧ Forall (λ r, r ∈ White_Space) trail ∧
      trimmed name ∧ hasByte "}" name = false ∧ token lead name trail ≠ ""
  end.

(** Neither of the two shortcuts of an empty alias applies. *)
Definition noShortcut `{kinds : QueryKinds} (query : cloudWatchQuery) : Prop :=
  ¬ (q_Alias query = "" ∧ isMathExpression query = true) ∧
  ¬ (q_Alias query = "" ∧ isInferredSearchExpression query = true ∧
     isMultiValuedDimensionExpression query = false).

Definition aliasTemplate : list piece :=
  [Placeholder [] "metric" []; Text "_"; Placeholder [] "stat" []].

(** The same template with white space around the names: a blank and a
    no-break space, a tab, an ideographic space, a line separator. *)
Definition paddedTemplate : list piece :=
  [Placeholder [0x20; 0xA0] "metric" [0x09]; Text "_";
   Placeholder [0x3000] "stat" [0x2028]].

(** The UTF-8 encodings of all white space, byte by byte: the line feed
    first, and the same runes in the opposite order. *)
Definition allWhiteSpace : string :=
  bytes [0x0A; 0x09; 0x0B; 0x0C; 0x0D; 0x20; 0xC2; 0x85; 0xC2; 0xA0; 0xE1; 0x9A; 0x80;
         0xE2; 0x80; 0x80; 0xE2; 0x80; 0x81; 0xE2; 0x80; 0x82; 0xE2; 0x80; 0x83;
         0xE2; 0x80; 0x84; 0xE2; 0x80; 0x85; 0xE2; 0x80; 0x86; 0xE2; 0x80; 0x87;
         0xE2; 0x80; 0x88; 0xE2; 0x80; 0x89; 0xE2; 0x80; 0x8A; 0xE2; 0x80; 0xA8;
         0xE2; 0x80; 0xA9; 0xE2; 0x80; 0xAF; 0xE2; 0x81; 0x9F; 0xE3; 0x80; 0x80].

Definition allWhiteSpaceBack : string :=
  bytes [0xE3; 0x80; 0x80; 0xE2; 0x81; 0x9F; 0xE2; 0x80; 0xAF; 0xE2; 0x80; 0xA9;
         0xE2; 0x80; 0xA8; 0xE2; 0x80; 0x8A; 0xE2; 0x80; 0x89; 0xE2; 0x80; 0x88;
         0xE2; 0x80; 0x87; 0xE2; 0x80; 0x86; 0xE2; 0x80; 0x85; 0xE2; 0x80; 0x84;
         0xE2; 0x80; 0x83; 0xE2; 0x80; 0x82; 0xE2; 0x80; 0x81; 0xE2; 0x80; 0x80;
         0xE1; 0x9A; 0x80; 0xC2; 0xA0; 0xC2; 0x85; 0x20; 0x0D; 0x0C; 0x0B; 0x09; 0x0A].

(** Code points that are no white space for [unicode.IsSpace]: U+200B (zero
    width space), U+180E and U+FEFF, byte by byte. *)
Definition zeroWidthSpace : string := bytes [0xE2; 0x80; 0x8B].
Definition vowelSeparator : string := bytes [0xE1; 0xA0; 0x8E].
Definition byteOrderMark : string := bytes [0xEF; 0xBB; 0xBF].

(** The request of [TestQueryCloudWatch_TimeSeries] ([api_metrics_test.go]):
    one metric query with two statistics, hence two queries, over a dimension
    with two candidates; one page with a result for each. *)
Definition testStart : Time := seconds 1594080000.
Definition testEnd : Time := seconds 1594166399.

Definition testOutputs : list GetMetricDataOutput :=
  [batch [] [fragment "queryid_stat1" "label" "Complete" [testStart; testEnd]
               [Some 1%float; Some 2%float];
             fragment "queryid_stat2" "label" "Complete" [testStart; testEnd]
               [Some 3%float; Some 4%float]]].

Definition testQuery (id stat : string) : cloudWatchQuery :=
  {| q_RefId := "id"; q_Region := "us-east-1"; q_Id := id; q_Namespace := "custom";
     q_MetricName := "test"; q_Stats := stat; q_Expression := "";
     q_Dimensions := {["dim1" := ["val1"; "val2"]]}; q_Period := 60; q_Alias := "";
     q_UsedExpression := ""; q_RequestExceededMaxLimit := false |}.

Definition testQueries : gmap string cloudWatchQuery :=
  <["queryid_stat1" := testQuery "queryid_stat1" "stat1"]>
    (<["queryid_stat2" := testQuery "queryid_stat2" "stat2"]> ∅).

(** The name and the value column of every frame of a record. *)
Definition framePoints (frame : Frame) : list (option float64) :=
  flat_map (λ field, match fld_Values field with
                     | TimeColumn _ => []
                     | NullableColumn points => points
                     end)
           (frm_Fields frame).

Definition seriesOf (result : outcome cloudwatchResponse)
  : outcome (list (string * list (option float64))) :=
  match result with
  | Ok response =>
      Ok ((λ frame, (frm_Name frame, framePoints frame)) <$> resp_DataFrames response)
  | Err e => Err e
  | Panic p => Panic p
  end.

(** Every query is a user-defined search expression. *)
Definition searchKinds : QueryKinds :=
  {| isMathExpression := λ _, false;
     isUserDefinedSearchExpression := λ _, true;
     isInferredSearchExpression := λ _, false;
     isMultiValuedDimensionExpression := λ _, false |}.

(** A search expression with its statistic and its period. *)
Definition searchQuery : cloudWatchQuery :=
  {| q_RefId := "A"; q_Region := "us-east-1"; q_Id := "a"; q_Namespace := "";
     q_MetricName := ""; q_Stats := "Average";
     q_Expression := "SEARCH('{AWS/EC2,InstanceId} CPUUtilization', 'Maximum', 300)";
     q_Dimensions := ∅; q_Period := 60; q_Alias := "{{stat}} {{period}}";
     q_UsedExpression := ""; q_RequestExceededMaxLimit := false |}.

(** ** Notions of the further properties *)

(** The queries some fragment of the request names. *)
Definition referencedIds (outputs : list GetMetricDataOutput) : gset string :=
  list_to_set (res_Id <$> allResults outputs).

(** Two queries that differ at most in [RequestExceededMaxLimit]. *)
Definition sameButExceeded (query query' : cloudWatchQuery) : Prop :=
  query' = set_RequestExceededMaxLimit query (q_RequestExceededMaxLimit query').

(** A merged result the formatter can turn into frames: either it has no
    values and the query fans out over a multi-valued dimension, or its
    values are present, one per time stamp. *)
Definition formattable `{kinds : QueryKinds} (query : cloudWatchQuery)
    (r : MetricDataResult) : Prop :=
  (res_Values r = [] ∧ isMultiValuedDimensionExpression query = true) ∨
  (length (res_Values r) = length (res_Timestamps r) ∧ Forall is_Some (res_Values r)).

Definition noArithmeticError (r : MetricDataResult) : Prop :=
  Forall (λ message, msg_Code message ≠ "ArithmeticError") (res_Messages r).

(** Strictly before, in the order of [sort.Strings]. *)
Definition labelBefore (l l' : string) : Prop := String.le l l' ∧ l ≠ l'.

(** Two labels of one query, each with an arithmetic error of its own. *)
Definition failingResult (label text : string) : MetricDataResult :=
  {| res_Id := "a"; res_Label := label;
     res_Messages := [ {| msg_Code := "ArithmeticError"; msg_Value := text |} ];
     res_StatusCode := "Complete"; res_Timestamps := []; res_Values := [] |}.

Definition twoFailingLabels : gmap string MetricDataResult :=
  <["a" := failingResult "a" "first"]> (<["b" := failingResult "b" "second"]> ∅).

(** The records of a request, when [parseResponse] returns them. *)
Definition recordsOf `{kinds : QueryKinds} `{range : MapRange}
    (outputs : list GetMetricDataOutput) (queries : gmap string cloudWatchQuery)
  : list cloudwatchResponse :=
  match parseResponse outputs queries with
  | Ok responses => responses
  | _ => []
  end.

(** A fragment with its values present, one per time stamp, and without an
    [ArithmeticError] message. *)
Definition soundFragment (r : MetricDataResult) : Prop :=
  length (res_Values r) = length (res_Timestamps r) ∧
  Forall is_Some (res_Values r) ∧
  noArithmeticError r.

(** ** Tags, as the loops of the normal case resolve them *)

(** What one candidate value makes of a label: the label itself when the
    value equals it or is the wildcard, the value when the label contains
    it. *)
Definition labelMatch (label value : string) : option string :=
  if decide (value = label ∨ value = "*") then Some label
  else if Contains label value then Some value
  else None.

(** The tag of a dimension: its only candidate when that is no wildcard,
    else what its last matching candidate gives. *)
Definition tagOf (label : string) (values : list string) : option string :=
  match values with
  | [value] => if decide (value = "*") then Some label else Some value
  | _ => last (omap (labelMatch label) values)
  end.

(** ** The order of [range] and the frames *)

(** A dimension with at least as many candidates as any other. *)
Definition longest (query : cloudWatchQuery) (dimension : string) : Prop :=
  ∀ key, (length (dimensionValues query key)
          ≤ length (dimensionValues query dimension))%nat.

(** No two dimensions share the greatest number of candidates. *)
Definition noTie (query : cloudWatchQuery) : Prop :=
  ∀ k1 k2, longest query k1 → longest query k2 → dimensionValues query k1 ≠ [] → k1 = k2.

(** Two candidates for [a], two for [b]. *)
Definition tiedQuery : cloudWatchQuery :=
  metricQuery "a" "A" (<["a" := ["1"; "2"]]> (<["b" := ["x"; "y"]]> ∅)) "".

(** ** The columns of a frame *)

(** The points of a time column and a value column that are not null. *)
Definition samples (timestamps : list Z) (points : list (option float64))
  : list (Z * option float64) :=
  filter (λ p, is_Some p.2) (zip timestamps points).

(** A plain query for the metric [cpu], without alias. *)
Definition cpuQuery : cloudWatchQuery :=
  {| q_RefId := "A"; q_Region := "us-east-1"; q_Id := "a"; q_Namespace := "AWS/EC2";
     q_MetricName := "cpu"; q_Stats := "Average"; q_Expression := "";
     q_Dimensions := ∅; q_Period := 60; q_Alias := "";
     q_UsedExpression := ""; q_RequestExceededMaxLimit := false |}.

(** An instant, in nanoseconds, that an [int64] holds. *)
Definition inInt64 (z : Z) : Prop := - 2 ^ 63 ≤ z < 2 ^ 63.

(** What a step of a loop yields, when it yields. *)
Definition stepValue {A B : Type} (step : A → outcome B) (x : A) : option B :=
  match step x with
  | Ok y => Some y
  | _ => None
  end.

(** ** Runs that do not return *)

(** How a run ends when it does not return a value: with an error value or
    with a run-time panic; and the first [ArithmeticError] message of a
    result. *)
Inductive failure : Type :=
| Failed (e : error)
| Faulted (p : panic).

Definition failureOf {A : Type} (o : outcome A) : option failure :=
  match o with
  | Ok _ => None
  | Err e => Some (Failed e)
  | Panic p => Some (Faulted p)
  end.

Definition firstArithmeticError (messages : list MessageData) : option MessageData :=
  head (filter (λ message, msg_Code message = "ArithmeticError") messages).

(** Two pages of query ["a"], one for each of two labels. *)
Definition twoLabels : list GetMetricDataOutput :=
  [batch [] [fragment "a" "x" "Complete" [seconds 0; seconds 120]
               [Some 1%float; Some 2%float]];
   batch [] [fragment "a" "y" "PartialData" [seconds 0] [Some 3%float]]].
(** ** Loops *)

Arguments mergeResult : simpl never.
Arguments mergeOutput : simpl never.

Lemma forEach_app {A S : Type} (body : S → A → outcome S) (s : S) (xs ys : list A) :
  forEach body s (xs ++ ys) = s' ← forEach body s xs; forEach body s' ys.
Proof.
  revert s. induction xs as [|x xs IH]; intros s; simpl; [done|].
  destruct (body s x); simpl; auto.
Qed.

Lemma String_eqb_decide (s t : string) : String.eqb s t = bool_decide (s = t).
Proof.
  destruct (String.eqb_spec s t) as [->|Hne].
  - by rewrite bool_decide_eq_true_2.
  - by rewrite bool_decide_eq_false_2.
Qed.

Lemma requestExceededMaxLimit_true (mdo : GetMetricDataOutput) :
  requestExceededMaxLimit mdo = true ↔ hasMessage "MaxMetricsExceeded" (out_Messages mdo).
Proof.
  unfold requestExceededMaxLimit, hasMessage.
  induction (out_Messages mdo) as [|m ms IH] using rev_ind; simpl.
  - split; [done|]. intros (? & []%elem_of_nil & _).
  - rewrite foldl_app. simpl. rewrite String_eqb_decide. case_bool_decide as Hm.
    + split; [|done]. intros _. exists m. split; [|done].
      apply elem_of_app. right. by apply list_elem_of_singleton.
    + rewrite IH. split.
      * intros (m' & Hin & Hc). exists m'. split; [|done].
        apply elem_of_app. by left.
      * intros (m' & [Hin| ->%list_elem_of_singleton]%elem_of_app & Hc); [|done].
        by exists m'.
Qed.

(** ** The merge in closed form *)

Lemma appendResult_foldl_Timestamps (f : MetricDataResult) (fs : list MetricDataResult) :
  res_Timestamps (foldl appendResult f fs) = concat (res_Timestamps <$> f :: fs).
Proof.
  revert f. induction fs as [|g fs IH]; intros f; simpl.
  - by rewrite app_nil_r.
  - rewrite IH. simpl. by rewrite app_assoc.
Qed.

Lemma appendResult_foldl_Values (f : MetricDataResult) (fs : list MetricDataResult) :
  res_Values (foldl appendResult f fs) = concat (res_Values <$> f :: fs).
Proof.
  revert f. induction fs as [|g fs IH]; intros f; simpl.
  - by rewrite app_nil_r.
  - rewrite IH. simpl. by rewrite app_assoc.
Qed.

Lemma appendResult_foldl_Messages (f : MetricDataResult) (fs : list MetricDataResult) :
  res_Messages (foldl appendResult f fs) = res_Messages f.
Proof. revert f. induction fs as [|g fs IH]; intros f; simpl; [done|]. by rewrite IH. Qed.

Lemma appendResult_foldl_Complete (f : MetricDataResult) (fs : list MetricDataResult) :
  isComplete (foldl appendResult f fs) ↔ ∃ g, g ∈ f :: fs ∧ isComplete g.
Proof.
  revert f. induction fs as [|g fs IH]; intros f; simpl.
  - split; [intros ?; exists f; split; [left|done] |].
    by intros (g & ->%list_elem_of_singleton & ?).
  - rewrite IH. unfold isComplete. split.
    + intros (h & [->|Hin]%elem_of_cons & Hh).
      * simpl in Hh. rewrite String_eqb_decide in Hh. case_bool_decide as Hg.
        -- exists g. split; [right; left|done].
        -- exists f. split; [left|done].
      * exists h. split; [|done]. by do 2 right.
    + intros (h & Hin & Hh).
      apply elem_of_cons in Hin as [->|[->|Hin]%elem_of_cons].
      * eexists. split; [left|]. simpl. rewrite String_eqb_decide.
        by case_bool_decide.
      * eexists. split; [left|]. simpl. rewrite String_eqb_decide.
        by rewrite bool_decide_eq_true_2.
      * exists h. split; [by right|done].
Qed.

Lemma insertResult_lookup2_eq mdr (r : MetricDataResult) :
  lookup2 (insertResult mdr r) (res_Id r) (res_Label r) =
  Some (match lookup2 mdr (res_Id r) (res_Label r) with
        | None => r
        | Some old => appendResult old r
        end).
Proof.
  unfold lookup2, insertResult.
  destruct (mdr !! res_Id r) as [byLabel|] eqn:Hid; simpl.
  - destruct (byLabel !! res_Label r) as [old|] eqn:Hl;
      rewrite lookup_insert_eq; simpl; by rewrite lookup_insert_eq.
  - rewrite lookup_insert_eq. simpl. by rewrite lookup_singleton_eq.
Qed.

Lemma insertResult_lookup2_ne mdr (r : MetricDataResult) (id label : string) :
  ¬ (res_Id r = id ∧ res_Label r = label) →
  lookup2 (insertResult mdr r) id label = lookup2 mdr id label.
Proof.
  intros Hne. unfold lookup2, insertResult.
  destruct (decide (res_Id r = id)) as [<-|Hid].
  - assert (res_Label r ≠ label) as Hl by naive_solver.
    destruct (mdr !! res_Id r) as [byLabel|] eqn:Hm; simpl.
    + destruct (byLabel !! res_Label r) as [old|] eqn:Hb;
        rewrite lookup_insert_eq; simpl; by rewrite lookup_insert_ne.
    + rewrite lookup_insert_eq. simpl. by rewrite lookup_singleton_ne.
  - destruct (mdr !! res_Id r) as [byLabel|] eqn:Hm; simpl.
    + destruct (byLabel !! res_Label r) as [old|] eqn:Hb;
        by rewrite lookup_insert_ne.
    + by rewrite lookup_insert_ne.
Qed.

Lemma insertResult_foldl_lookup2 (rs : list MetricDataResult) (id label : string) :
  lookup2 (foldl insertResult ∅ rs) id label = mergedFragments (fragments id label rs).
Proof.
  unfold fragments. induction rs as [|r rs IH] using rev_ind.
  - done.
  - rewrite foldl_app, filter_app. simpl.
    destruct (decide (res_Id r = id ∧ res_Label r = label)) as [[<- <-]|Hne].
    + rewrite filter_cons_True by done. rewrite filter_nil.
      rewrite insertResult_lookup2_eq, IH.
      destruct (filter _ rs) as [|f fs]; simpl; [done|].
      by rewrite foldl_app.
    + rewrite filter_cons_False by done. rewrite filter_nil, app_nil_r.
      by rewrite insertResult_lookup2_ne.
Qed.

Lemma mergeResult_eq (exceeded : bool) mdr (queries : gmap string cloudWatchQuery)
    (r : MetricDataResult) :
  mergeResult exceeded (mdr, queries) r =
  if decide (res_Id r ∈ dom queries)
  then Ok (insertResult mdr r,
           alter (λ query, set_RequestExceededMaxLimit query exceeded) (res_Id r) queries)
  else Panic NilDereference.
Proof.
  unfold mergeResult. case_decide as Hin.
  - apply elem_of_dom in Hin as [query Hq]. rewrite Hq. simpl.
    do 2 f_equal. apply map_eq. intros i.
    destruct (decide (res_Id r = i)) as [<-|Hne].
    + by rewrite lookup_insert_eq, lookup_alter_eq, Hq.
    + by rewrite lookup_insert_ne, lookup_alter_ne.
  - apply not_elem_of_dom in Hin. by rewrite Hin.
Qed.

Lemma flagQueries_dom (exceeded : bool) (queries : gmap string cloudWatchQuery)
    (rs : list MetricDataResult) :
  dom (flagQueries exceeded queries rs) = dom queries.
Proof.
  unfold flagQueries. revert queries. induction rs as [|r rs IH]; intros queries; simpl.
  - done.
  - rewrite IH. apply leibniz_equiv, dom_alter.
Qed.

Lemma flaggedQueries_dom (queries : gmap string cloudWatchQuery)
    (outputs : list GetMetricDataOutput) :
  dom (flaggedQueries queries outputs) = dom queries.
Proof.
  unfold flaggedQueries. revert queries.
  induction outputs as [|mdo outputs IH]; intros queries; simpl; [done|].
  by rewrite IH, flagQueries_dom.
Qed.

Lemma mergeOutput_eq mdr (queries : gmap string cloudWatchQuery) (mdo : GetMetricDataOutput) :
  mergeOutput (mdr, queries) mdo =
  if decide (Forall (λ r, res_Id r ∈ dom queries) (out_MetricDataResults mdo))
  then Ok (foldl insertResult mdr (out_MetricDataResults mdo),
           flagQueries (requestExceededMaxLimit mdo) queries (out_MetricDataResults mdo))
  else Panic NilDereference.
Proof.
  unfold mergeOutput, flagQueries.
  generalize (requestExceededMaxLimit mdo) as exceeded. intros exceeded.
  revert mdr queries.
  induction (out_MetricDataResults mdo) as [|r rs IH]; intros mdr queries; simpl.
  - done.
  - rewrite mergeResult_eq. destruct (decide (res_Id r ∈ dom queries)) as [Hin|Hin]; simpl.
    + rewrite IH.
      assert (dom (alter (λ query, set_RequestExceededMaxLimit query exceeded)
                         (res_Id r) queries) = dom queries) as ->
        by apply leibniz_equiv, dom_alter.
      destruct (decide (Forall _ rs)) as [Hall|Hall].
      * by rewrite decide_True by by constructor.
      * rewrite decide_False; [done|]. by intros [_ ?]%Forall_cons.
    + rewrite decide_False; [done|]. by intros [? _]%Forall_cons.
Qed.

Lemma mergeOutputs_from_eq mdr (queries : gmap string cloudWatchQuery)
    (outputs : list GetMetricDataOutput) :
  forEach mergeOutput (mdr, queries) outputs =
  if decide (Forall (λ r, res_Id r ∈ dom queries) (allResults outputs))
  then Ok (foldl insertResult mdr (allResults outputs), flaggedQueries queries outputs)
  else Panic NilDereference.
Proof.
  unfold allResults, flaggedQueries. revert mdr queries.
  induction outputs as [|mdo outputs IH]; intros mdr queries; simpl.
  - done.
  - rewrite mergeOutput_eq.
    destruct (decide (Forall _ (out_MetricDataResults mdo))) as [Hhd|Hhd]; simpl.
    + rewrite IH, flagQueries_dom, foldl_app.
      destruct (decide (Forall _ (concat _))) as [Htl|Htl].
      * by rewrite decide_True by by apply Forall_app.
      * rewrite decide_False; [done|]. by intros [_ ?]%Forall_app.
    + rewrite decide_False; [done|]. by intros [? _]%Forall_app.
Qed.

Lemma mergeOutputs_eq (queries : gmap string cloudWatchQuery)
    (outputs : list GetMetricDataOutput) :
  mergeOutputs outputs queries =
  if decide (Forall (λ r, res_Id r ∈ dom queries) (allResults outputs))
  then Ok (foldl insertResult ∅ (allResults outputs), flaggedQueries queries outputs)
  else Panic NilDereference.
Proof. apply mergeOutputs_from_eq. Qed.

Lemma mergeOutputs_Ok_inv (queries queries' : gmap string cloudWatchQuery) mdr
    (outputs : list GetMetricDataOutput) :
  mergeOutputs outputs queries = Ok (mdr, queries') →
  Forall (λ r, res_Id r ∈ dom queries) (allResults outputs) ∧
  mdr = foldl insertResult ∅ (allResults outputs) ∧
  queries' = flaggedQueries queries outputs.
Proof. rewrite mergeOutputs_eq. case_decide; naive_solver. Qed.

(** ** The exceeded-limit flag *)

Lemma flagQueries_lookup (exceeded : bool) (queries : gmap string cloudWatchQuery)
    (rs : list MetricDataResult) (id : string) :
  flagQueries exceeded queries rs !! id =
  (if decide (Exists (λ r, res_Id r = id) rs)
   then (λ query, set_RequestExceededMaxLimit query exceeded) <$> queries !! id
   else queries !! id).
Proof.
  unfold flagQueries. induction rs as [|r rs IH] using rev_ind; simpl.
  - done.
  - rewrite foldl_app. simpl. destruct (decide (res_Id r = id)) as [Heq|Hne].
    + rewrite <- Heq at 1. rewrite lookup_alter_eq, Heq, IH.
      rewrite (decide_True (P := Exists _ (rs ++ [r])))
        by (apply Exists_app; right; by constructor).
      case_decide; [|done]. by destruct (queries !! id).
    + rewrite lookup_alter_ne by done. rewrite IH.
      destruct (decide (Exists _ rs)) as [Hex|Hex].
      * rewrite decide_True; [done|]. apply Exists_app. by left.
      * rewrite decide_False; [done|].
        intros [?|[?|?%Exists_nil]%Exists_cons]%Exists_app; done.
Qed.

Lemma flaggedQueries_lookup (queries : gmap string cloudWatchQuery)
    (outputs : list GetMetricDataOutput) (id : string) :
  flaggedQueries queries outputs !! id =
  withExceeded (lastExceeded id outputs) <$> queries !! id.
Proof.
  unfold flaggedQueries, lastExceeded.
  induction outputs as [|mdo outputs IH] using rev_ind; simpl.
  - by destruct (queries !! id).
  - rewrite !foldl_app. simpl. rewrite flagQueries_lookup, IH.
    destruct (decide (referencesQuery id mdo)) as [Href|Href].
    + rewrite decide_True by (destruct Href as (r & ? & ?); apply Exists_exists; eauto).
      destruct (queries !! id) as [query|]; simpl; [|done].
      by destruct (foldl _ None outputs).
    + rewrite decide_False; [done|].
      intros (r & ? & ?)%Exists_exists. apply Href. by exists r.
Qed.

Lemma lastExceeded_last (id : string) (before after : list GetMetricDataOutput)
    (mdo : GetMetricDataOutput) :
  referencesQuery id mdo →
  Forall (λ later, ¬ referencesQuery id later) after →
  lastExceeded id (before ++ mdo :: after) = Some (requestExceededMaxLimit mdo).
Proof.
  intros Href Hafter. unfold lastExceeded. rewrite foldl_app. simpl.
  rewrite decide_True by done. generalize (Some (requestExceededMaxLimit mdo)).
  induction Hafter as [|later after Hno _ IH]; intros last; simpl; [done|].
  rewrite decide_False by done. apply IH.
Qed.

(** ** Sorted labels *)

Lemma sortStrings_Sorted (l : list string) : Sorted String.le (sortStrings l).
Proof. apply (Sorted_merge_sort String.le). Qed.

Lemma sortStrings_Permutation (l : list string) : sortStrings l ≡ₚ l.
Proof. apply (merge_sort_Permutation String.le). Qed.

Lemma sortStrings_proper (l l' : list string) : l ≡ₚ l' → sortStrings l = sortStrings l'.
Proof.
  intros Hperm. apply (Sorted_unique String.le); try apply sortStrings_Sorted.
  by rewrite !sortStrings_Permutation.
Qed.

Lemma metricDataResultLabels_Permutation `{range : MapRange}
    (metricDataResults : gmap string MetricDataResult) :
  metricDataResultLabels metricDataResults ≡ₚ elements (dom metricDataResults).
Proof.
  unfold metricDataResultLabels. by rewrite sortStrings_Permutation, rangeKeys_perm.
Qed.

Lemma metricDataResultLabels_elem_of `{range : MapRange}
    (metricDataResults : gmap string MetricDataResult) (label : string) :
  label ∈ metricDataResultLabels metricDataResults ↔ is_Some (metricDataResults !! label).
Proof.
  by rewrite metricDataResultLabels_Permutation, elem_of_elements, elem_of_dom.
Qed.

(** The labels depend on the key set alone, not on the order of [range]. *)
Lemma metricDataResultLabels_dom (range1 range2 : MapRange)
    (m1 m2 : gmap string MetricDataResult) :
  dom m1 = dom m2 →
  metricDataResultLabels (range := range1) m1 = metricDataResultLabels (range := range2) m2.
Proof.
  intros Hdom. unfold metricDataResultLabels. apply sortStrings_proper.
  by rewrite !rangeKeys_perm, Hdom.
Qed.

(** ** The loop of [parseGetMetricDataTimeSeries] *)

Section parse_loop.
Context `{kinds : QueryKinds} `{range : MapRange}.

Lemma parse_loop_eq (query : cloudWatchQuery)
    (metricDataResults : gmap string MetricDataResult)
    (labels : list string) (frames0 : list Frame) (partial0 : bool) :
  forEach (λ '(frames, partialData) label,
             metricDataResult ← deref (metricDataResults !! label);
             let partialData :=
               if String.eqb (res_StatusCode metricDataResult) "Complete"
               then partialData else true in
             _ ← checkMessages query (res_Messages metricDataResult);
             more ← labelFrames query label metricDataResult;
             Ok (frames ++ more, partialData))
          (frames0, partial0) labels
  = frames ← forEach (λ frames label,
                        more ← labelOutcome query metricDataResults label;
                        Ok (frames ++ more))
                     frames0 labels;
    Ok (frames, partial0 || existsb (incomplete metricDataResults) labels).
Proof.
  revert frames0 partial0.
  induction labels as [|label labels IH]; intros frames0 partial0; simpl.
  - by rewrite orb_false_r.
  - unfold labelOutcome, incomplete.
    destruct (metricDataResults !! label) as [r|]; simpl; [|done].
    destruct (checkMessages query (res_Messages r)); simpl; [|done..].
    destruct (labelFrames query label r); simpl; [|done..].
    rewrite IH. destruct (String.eqb (res_StatusCode r) "Complete"); simpl.
    + done.
    + by rewrite orb_true_r.
Qed.

Lemma parseGetMetricDataTimeSeries_eq (query : cloudWatchQuery)
    (metricDataResults : gmap string MetricDataResult) :
  parseGetMetricDataTimeSeries metricDataResults query
  = frames ← forEach (λ frames label,
                        more ← labelOutcome query metricDataResults label;
                        Ok (frames ++ more))
                     [] (metricDataResultLabels metricDataResults);
    Ok (frames, existsb (incomplete metricDataResults)
                        (metricDataResultLabels metricDataResults)).
Proof. unfold parseGetMetricDataTimeSeries. by rewrite parse_loop_eq. Qed.

(** A loop that appends what each element yields: its three ways to end. *)
Lemma appendLoop_Ok {A B : Type} (step : A → outcome (list B)) (xs : list A)
    (acc out : list B) :
  forEach (λ acc x, more ← step x; Ok (acc ++ more)) acc xs = Ok out →
  ∃ parts, Forall2 (λ x part, step x = Ok part) xs parts ∧ out = acc ++ concat parts.
Proof.
  revert acc. induction xs as [|x xs IH]; intros acc; simpl.
  - intros [= <-]. exists []. split; [constructor|]. by rewrite app_nil_r.
  - destruct (step x) as [part| |] eqn:Hx; simpl; [|done..].
    intros (parts & Hparts & ->)%IH. exists (part :: parts).
    split; [by constructor|]. simpl. by rewrite app_assoc.
Qed.

Lemma appendLoop_Err {A B : Type} (step : A → outcome (list B)) (xs : list A)
    (acc : list B) (e : error) :
  forEach (λ acc x, more ← step x; Ok (acc ++ more)) acc xs = Err e →
  ∃ x, x ∈ xs ∧ step x = Err e.
Proof.
  revert acc. induction xs as [|x xs IH]; intros acc; simpl; [done|].
  destruct (step x) as [part| |] eqn:Hx; simpl.
  - intros (y & ? & ?)%IH. exists y. split; [by right|done].
  - intros [= <-]. exists x. split; [left|done].
  - done.
Qed.

Lemma appendLoop_Panic {A B : Type} (step : A → outcome (list B)) (xs : list A)
    (acc : list B) (p : panic) :
  forEach (λ acc x, more ← step x; Ok (acc ++ more)) acc xs = Panic p →
  ∃ x, x ∈ xs ∧ step x = Panic p.
Proof.
  revert acc. induction xs as [|x xs IH]; intros acc; simpl; [done|].
  destruct (step x) as [part| |] eqn:Hx; simpl.
  - intros (y & ? & ?)%IH. exists y. split; [by right|done].
  - done.
  - intros [= <-]. exists x. split; [left|done].
Qed.

Lemma checkMessages_Ok (query : cloudWatchQuery) (messages : list MessageData) :
  checkMessages query messages = Ok tt ↔ ¬ hasMessage "ArithmeticError" messages.
Proof.
  unfold checkMessages, hasMessage. induction messages as [|m ms IH]; simpl.
  - split; [|done]. intros _ (? & []%elem_of_nil & _).
  - rewrite String_eqb_decide. case_bool_decide as Hm; simpl.
    + split; [done|]. intros []. exists m. split; [left|done].
    + rewrite IH. split.
      * intros Hno (m' & [->|Hin]%elem_of_cons & Hc); [done|]. apply Hno. by exists m'.
      * intros Hno (m' & Hin & Hc). apply Hno. exists m'. split; [by right|done].
Qed.

Lemma checkMessages_outcome (query : cloudWatchQuery) (messages : list MessageData) :
  checkMessages query messages = Ok tt ∨
  ∃ message, message ∈ messages ∧ msg_Code message = "ArithmeticError" ∧
             checkMessages query messages
             = Err (ArithmeticErrorInQuery (q_RefId query) (msg_Value message)).
Proof.
  unfold checkMessages. induction messages as [|m ms IH]; simpl; [by left|].
  rewrite String_eqb_decide. case_bool_decide as Hm; simpl.
  - right. exists m. split; [left|done].
  - destruct IH as [IH|(m' & Hin & Hc & IH)]; [by left|].
    right. exists m'. split; [by right|done].
Qed.

End parse_loop.

(** ** Which runs end in an error value *)

Section no_error.
Context `{kinds : QueryKinds} `{range : MapRange}.

Lemma bind_no_Err {A B : Type} (m : outcome A) (f : A → outcome B) :
  (∀ e, m ≠ Err e) → (∀ a e, f a ≠ Err e) → ∀ e, m ≫= f ≠ Err e.
Proof. intros Hm Hf e. destruct m as [a|e'|p]; simpl; [apply Hf|by destruct (Hm e')|done]. Qed.

Lemma slice_no_Err (s : string) (lo hi : Z) (e : error) : slice s lo hi ≠ Err e.
Proof. unfold slice. by destruct (_ && _). Qed.

Lemma aliasPeriodStat_no_Err (query : cloudWatchQuery) (stat : string) (e : error) :
  aliasPeriodStat query stat ≠ Err e.
Proof.
  unfold aliasPeriodStat. destruct (isUserDefinedSearchExpression query); [|done].
  revert e. apply bind_no_Err; [apply slice_no_Err|]. intros tail.
  apply bind_no_Err; [apply slice_no_Err|]. intros front.
  apply bind_no_Err; [apply slice_no_Err|]. done.
Qed.

Lemma formatAlias_no_Err (query : cloudWatchQuery) (stat : string)
    (dimensions : gmap string string) (label : string) (e : error) :
  formatAlias query stat dimensions label ≠ Err e.
Proof.
  unfold formatAlias. revert e. apply bind_no_Err; [apply aliasPeriodStat_no_Err|].
  intros [period stat'] e.
  destruct (_ && isMathExpression _); [done|].
  destruct (_ && _ && _); [done|]. by destruct (String.eqb _ _).
Qed.

Lemma gapFill_no_Err (period : Z) (Ts : list Time) (Vs : list (option float64))
    (j : nat) (rest : list Time) (timestamps : list Z) (points : list (option float64))
    (e : error) :
  gapFill period Ts Vs j rest timestamps points ≠ Err e.
Proof.
  revert j timestamps points e.
  induction rest as [|t rest IH]; intros j timestamps points; [done|].
  cbn [gapFill]. apply bind_no_Err.
  - destruct (0 <? j)%nat; [|done]. apply bind_no_Err.
    + unfold index. by destruct (Ts !! _).
    + intros prev e. by destruct (time_Before _ _).
  - intros [timestamps' points']. apply bind_no_Err.
    + unfold index. by destruct (Vs !! _).
    + intros val. apply bind_no_Err; [by destruct val|]. intros _. apply IH.
Qed.

Lemma emptyFrames_no_Err (query : cloudWatchQuery) (label : string) (e : error) :
  emptyFrames query label ≠ Err e.
Proof.
  unfold emptyFrames.
  match goal with |- forEach ?f _ _ ≠ _ => set (body := f) end.
  generalize (@nil Frame). revert e.
  induction (dimensionValues query _) as [|value values IH]; intros e frames; [done|].
  cbn [forEach]. revert e. apply bind_no_Err.
  - subst body. cbv beta. apply bind_no_Err; [apply formatAlias_no_Err|done].
  - intros frames' e. apply IH.
Qed.

Lemma seriesFrame_no_Err (query : cloudWatchQuery) (label : string)
    (metricDataResult : MetricDataResult) (e : error) :
  seriesFrame query label metricDataResult ≠ Err e.
Proof.
  unfold seriesFrame. revert e. apply bind_no_Err; [apply gapFill_no_Err|].
  intros [timestamps points]. apply bind_no_Err; [apply formatAlias_no_Err|done].
Qed.

Lemma labelFrames_no_Err (query : cloudWatchQuery) (label : string)
    (metricDataResult : MetricDataResult) (e : error) :
  labelFrames query label metricDataResult ≠ Err e.
Proof.
  unfold labelFrames. destruct (_ && _).
  - apply emptyFrames_no_Err.
  - apply seriesFrame_no_Err.
Qed.

Lemma labelOutcome_Ok (query : cloudWatchQuery)
    (metricDataResults : gmap string MetricDataResult) (label : string)
    (frames : list Frame) :
  labelOutcome query metricDataResults label = Ok frames →
  ∃ r, metricDataResults !! label = Some r ∧
       ¬ hasMessage "ArithmeticError" (res_Messages r) ∧
       labelFrames query label r = Ok frames.
Proof.
  unfold labelOutcome. destruct (metricDataResults !! label) as [r|]; simpl; [|done].
  destruct (checkMessages query (res_Messages r)) as [[]| |] eqn:Hc; simpl; [|done..].
  intros Hf. exists r. split; [done|]. split; [|done]. by apply checkMessages_Ok in Hc.
Qed.

Lemma labelOutcome_Err (query : cloudWatchQuery)
    (metricDataResults : gmap string MetricDataResult) (label : string) (e : error) :
  labelOutcome query metricDataResults label = Err e →
  ∃ r message, metricDataResults !! label = Some r ∧ message ∈ res_Messages r ∧
               msg_Code message = "ArithmeticError" ∧
               e = ArithmeticErrorInQuery (q_RefId query) (msg_Value message).
Proof.
  unfold labelOutcome. destruct (metricDataResults !! label) as [r|]; simpl; [|done].
  destruct (checkMessages_outcome query (res_Messages r)) as [->|(m & Hin & Hc & ->)]; simpl.
  - by intros ?%labelFrames_no_Err.
  - intros [= <-]. by exists r, m.
Qed.

Lemma labelOutcome_Panic (query : cloudWatchQuery)
    (metricDataResults : gmap string MetricDataResult) (label : string) (p : panic) :
  is_Some (metricDataResults !! label) →
  labelOutcome query metricDataResults label = Panic p →
  ∃ r, metricDataResults !! label = Some r ∧ labelFrames query label r = Panic p.
Proof.
  intros [r Hr]. unfold labelOutcome. rewrite Hr. simpl.
  destruct (checkMessages_outcome query (res_Messages r)) as [->|(m & Hin & Hc & ->)]; simpl.
  - intros Hf. by exists r.
  - done.
Qed.

(** A loop does not end well once one of its elements cannot. *)
Lemma forEach_stuck {A S : Type} (body : S → A → outcome S) (xs : list A) (x : A) :
  x ∈ xs → (∀ s s', body s x ≠ Ok s') → ∀ s s', forEach body s xs ≠ Ok s'.
Proof.
  intros Hin Hx. induction xs as [|y xs IH]; intros s s'; simpl.
  - by apply elem_of_nil in Hin.
  - destruct (body s y) as [s1| |] eqn:Hy; simpl; [|done..].
    apply elem_of_cons in Hin as [->|Hin]; [by apply Hx in Hy|by apply IH].
Qed.

End no_error.

(** ** The keys of the merged map *)

Lemma insertResult_lookup_ne mdr (r : MetricDataResult) (id : string) :
  res_Id r ≠ id → insertResult mdr r !! id = mdr !! id.
Proof.
  intros Hne. unfold insertResult.
  destruct (mdr !! res_Id r) as [byLabel|]; [destruct (byLabel !! res_Label r)|];
    by rewrite lookup_insert_ne.
Qed.

Lemma insertResult_lookup_eq mdr (r : MetricDataResult) :
  is_Some (insertResult mdr r !! res_Id r).
Proof.
  unfold insertResult.
  destruct (mdr !! res_Id r) as [byLabel|]; [destruct (byLabel !! res_Label r)|];
    rewrite lookup_insert_eq; eauto.
Qed.

Lemma insertResult_foldl_is_Some (rs : list MetricDataResult) (id : string) :
  is_Some (foldl insertResult ∅ rs !! id) ↔ ∃ r, r ∈ rs ∧ res_Id r = id.
Proof.
  induction rs as [|r rs IH] using rev_ind.
  - simpl. rewrite lookup_empty. split; [by intros [??]|].
    by intros (? & []%elem_of_nil & _).
  - rewrite foldl_app. simpl. destruct (decide (res_Id r = id)) as [<-|Hne].
    + split; [|intros _; apply insertResult_lookup_eq].
      intros _. exists r. split; [|done]. apply elem_of_app. right. by left.
    + rewrite insertResult_lookup_ne, IH by done. split.
      * intros (r' & ? & ?). exists r'. split; [|done]. apply elem_of_app. by left.
      * intros (r' & [?| ->%list_elem_of_singleton]%elem_of_app & ?); [|done]. by exists r'.
Qed.

Lemma insertResult_foldl_lookup (rs : list MetricDataResult) (id label : string)
    (byLabel : gmap string MetricDataResult) :
  foldl insertResult ∅ rs !! id = Some byLabel →
  byLabel !! label = mergedFragments (fragments id label rs).
Proof.
  intros Hid. rewrite <- insertResult_foldl_lookup2. unfold lookup2. by rewrite Hid.
Qed.

Lemma mergedFragments_is_Some (fs : list MetricDataResult) :
  is_Some (mergedFragments fs) ↔ fs ≠ [].
Proof.
  destruct fs as [|f fs]; simpl.
  - split; [by intros [??]|done].
  - split; [done|]. intros _. eauto.
Qed.

Lemma concat_Permutation {A : Type} (ls ls' : list (list A)) :
  ls ≡ₚ ls' → concat ls ≡ₚ concat ls'.
Proof.
  induction 1 as [|l ls ls' _ IH|l1 l2 ls|ls1 ls2 ls3 _ IH1 _ IH2]; simpl.
  - done.
  - by rewrite IH.
  - rewrite !app_assoc. f_equiv. apply Permutation_app_comm.
  - by etrans.
Qed.

Lemma allResults_Permutation (outputs outputs' : list GetMetricDataOutput) :
  outputs ≡ₚ outputs' → allResults outputs ≡ₚ allResults outputs'.
Proof. intros Hperm. unfold allResults. apply concat_Permutation. by rewrite Hperm. Qed.

Lemma fragments_Permutation (id label : string) (rs rs' : list MetricDataResult) :
  rs ≡ₚ rs' → fragments id label rs ≡ₚ fragments id label rs'.
Proof. intros Hperm. unfold fragments. by rewrite Hperm. Qed.

(** The labels under which a query has results are those of its fragments,
    in whatever order the fragments arrive. *)
Lemma merged_labels_Permutation (rs rs' : list MetricDataResult) (id : string)
    (byLabel : gmap string MetricDataResult) :
  rs ≡ₚ rs' →
  foldl insertResult ∅ rs !! id = Some byLabel →
  ∃ byLabel', foldl insertResult ∅ rs' !! id = Some byLabel' ∧ dom byLabel = dom byLabel'.
Proof.
  intros Hperm Hid.
  assert (is_Some (foldl insertResult ∅ rs' !! id)) as [byLabel' Hid'].
  { apply insertResult_foldl_is_Some.
    assert (is_Some (foldl insertResult ∅ rs !! id)) as (r & Hin & Hr)%insertResult_foldl_is_Some
      by eauto.
    exists r. split; [|done]. by rewrite <- Hperm. }
  exists byLabel'. split; [done|]. apply set_eq. intros label.
  rewrite !elem_of_dom.
  rewrite (insertResult_foldl_lookup rs id label byLabel Hid).
  rewrite (insertResult_foldl_lookup rs' id label byLabel' Hid').
  rewrite !mergedFragments_is_Some.
  pose proof (fragments_Permutation id label rs rs' Hperm) as Hf.
  split; intros Hne Hnil; apply Hne.
  - rewrite Hnil in Hf. by apply Permutation_nil_r in Hf.
  - rewrite Hnil in Hf. symmetry in Hf. by apply Permutation_nil_r in Hf.
Qed.

(** ** The partial-data flag *)

Lemma incomplete_true (metricDataResults : gmap string MetricDataResult) (label : string) :
  incomplete metricDataResults label = true ↔
  ∃ r, metricDataResults !! label = Some r ∧ ¬ isComplete r.
Proof.
  unfold incomplete, isComplete. destruct (metricDataResults !! label) as [r|].
  - rewrite String_eqb_decide. case_bool_decide; simpl; split; try done.
    + by intros (? & [= <-] & ?).
    + intros _. by exists r.
  - split; [done|]. by intros (? & ? & _).
Qed.

Lemma existsb_incomplete `{range : MapRange}
    (metricDataResults : gmap string MetricDataResult) :
  existsb (incomplete metricDataResults) (metricDataResultLabels metricDataResults) = true ↔
  ∃ label r, metricDataResults !! label = Some r ∧ ¬ isComplete r.
Proof.
  rewrite existsb_exists. split.
  - intros (label & _ & (r & ? & ?)%incomplete_true). by exists label, r.
  - intros (label & r & Hr & Hinc). exists label. split.
    + apply list_elem_of_In, metricDataResultLabels_elem_of. eauto.
    + apply incomplete_true. by exists r.
Qed.

(** ** Gap-filling *)

Lemma wrap64_small (z : Z) : - 2 ^ 63 ≤ z < 2 ^ 63 → wrap64 z = z.
Proof. intros Hz. unfold wrap64. rewrite Z.mod_small; lia. Qed.

Lemma periodDuration_seconds (period : Z) :
  - 2 ^ 63 ≤ period * 1000000000 < 2 ^ 63 → periodDuration period = period * Second.
Proof.
  intros Hp. unfold periodDuration, Second.
  rewrite (wrap64_small period) by lia. by apply wrap64_small.
Qed.

Lemma drop_cons_inv {A : Type} (l rest : list A) (j : nat) (x : A) :
  drop j l = x :: rest → l !! j = Some x ∧ drop (S j) l = rest.
Proof.
  intros Hdrop. assert (l !! j = Some x) as Hj.
  { rewrite <- (Nat.add_0_r j), <- lookup_drop, Hdrop. done. }
  split; [done|]. rewrite (drop_S _ _ _ Hj) in Hdrop. by injection Hdrop.
Qed.

Section gap_filling.
Context (period : Z) (Ts : list Time) (Vs : list (option float64)).
Hypothesis period_fits : - 2 ^ 63 ≤ period * 1000000000 < 2 ^ 63.
Hypothesis parallel : length Vs = length Ts.
Hypothesis present : Forall is_Some Vs.

Lemma value_present (j : nat) (t : Time) :
  Ts !! j = Some t → ∃ v, Vs !! j = Some (Some v).
Proof.
  intros Hj. apply lookup_lt_Some in Hj. rewrite <- parallel in Hj.
  apply lookup_lt_is_Some in Hj as [o Ho].
  rewrite Forall_lookup in present. destruct (present j o Ho) as [v ->]. eauto.
Qed.

Lemma gapFill_from (rest : list Time) (j : nat) (timestamps : list Z)
    (points : list (option float64)) :
  drop j Ts = rest →
  gapFill period Ts Vs j rest timestamps points
  = Ok (timestamps ++ (flat_map (pairAt period Ts Vs) (seq j (length rest))).*1,
        points ++ (flat_map (pairAt period Ts Vs) (seq j (length rest))).*2).
Proof.
  revert j timestamps points.
  induction rest as [|t rest IH]; intros j timestamps points Hdrop.
  - simpl. by rewrite !app_nil_r.
  - apply drop_cons_inv in Hdrop as [Hj Hdrop].
    destruct (value_present j t Hj) as [v Hv].
    cbn [gapFill length seq flat_map]. rewrite !fmap_app, !app_assoc.
    unfold pairAt at 1 3. rewrite Hj, Hv. unfold index. rewrite Hv.
    destruct j as [|i].
    + simpl. by rewrite (IH 1%nat).
    + replace (S i - 1)%nat with i by lia.
      assert (is_Some (Ts !! i)) as [prev Hprev].
      { apply lookup_lt_is_Some. apply lookup_lt_Some in Hj. lia. }
      rewrite Hprev. cbn [Nat.ltb Nat.leb mbind outcome_bind].
      rewrite periodDuration_seconds by done.
      destruct (time_Before (time_Add prev (period * Second)) t); simpl.
      * rewrite (IH (S (S i))) by done. by rewrite <- !app_assoc.
      * rewrite (IH (S (S i))) by done. by rewrite <- !app_assoc.
Qed.

Lemma gapFill_gapFilled :
  gapFill period Ts Vs 0 Ts [] []
  = Ok ((gapFilled period Ts Vs).*1, (gapFilled period Ts Vs).*2).
Proof. by rewrite (gapFill_from Ts 0 [] []). Qed.

Lemma gapless_from (rest : list Time) (j : nat) :
  gapless period Ts →
  drop j Ts = rest →
  flat_map (pairAt period Ts Vs) (seq j (length rest))
  = zip (unixMilli <$> rest) (drop j Vs).
Proof.
  intros Hgapless. revert j. induction rest as [|t rest IH]; intros j Hdrop; [done|].
  apply drop_cons_inv in Hdrop as [Hj Hdrop].
  destruct (value_present j t Hj) as [v Hv].
  cbn [length seq flat_map]. rewrite (IH (S j)) by done.
  rewrite (drop_S _ _ _ Hv). unfold pairAt. rewrite Hj, Hv.
  destruct j as [|i]; [done|].
  assert (is_Some (Ts !! i)) as [prev Hprev].
  { apply lookup_lt_is_Some. apply lookup_lt_Some in Hj. lia. }
  rewrite Hprev. rewrite (Hgapless i prev t Hprev Hj).
  unfold time_Before. by rewrite Z.ltb_irrefl.
Qed.

End gap_filling.

(** A null among the values that are paired with a time stamp stops the
    loop: the value is dereferenced for the debug log. *)
Lemma gapFill_null_sample (period : Z) (Ts : list Time) (Vs : list (option float64))
    (rest : list Time) (j k : nat) (timestamps : list Z) (points : list (option float64)) :
  drop j Ts = rest →
  (j ≤ k < length Ts)%nat →
  Vs !! k = Some None →
  gapFill period Ts Vs j rest timestamps points = Panic NilDereference.
Proof.
  revert j timestamps points.
  induction rest as [|t rest IH]; intros j timestamps points Hdrop Hk Hnull.
  - apply (f_equal length) in Hdrop. rewrite length_drop in Hdrop. simpl in Hdrop. lia.
  - apply drop_cons_inv in Hdrop as [Hj Hdrop]. cbn [gapFill].
    assert (is_Some (Vs !! j)) as [val Hval].
    { apply lookup_lt_is_Some. apply lookup_lt_Some in Hnull. lia. }
    assert (val = None ∨ (S j ≤ k < length Ts)%nat ∧ is_Some val) as Hcases.
    { destruct val as [v|]; [right|by left]. split; [|by eauto].
      destruct (decide (j = k)) as [->|]; [congruence|lia]. }
    unfold index. rewrite Hval. destruct j as [|i].
    + cbn [Nat.ltb Nat.leb mbind outcome_bind].
      destruct Hcases as [->|[Hk' [v ->]]]; [done|].
      cbn [deref mbind outcome_bind]. by apply IH.
    + replace (S i - 1)%nat with i by lia.
      assert (is_Some (Ts !! i)) as [prev Hprev].
      { apply lookup_lt_is_Some. apply lookup_lt_Some in Hj. lia. }
      rewrite Hprev. cbn [Nat.ltb Nat.leb mbind outcome_bind].
      destruct (time_Before _ t); cbn [mbind outcome_bind];
        (destruct Hcases as [->|[Hk' [v ->]]]; [done|]);
        cbn [deref mbind outcome_bind]; by apply IH.
Qed.

(** ** Strings *)

Lemma HasPrefix_length (s prefix : string) :
  HasPrefix s prefix = true → (String.length prefix ≤ String.length s)%nat.
Proof.
  revert s. induction prefix as [|a prefix IH]; intros [|b s]; simpl; try done; [lia|].
  intros [_ Hp]%andb_true_iff. apply IH in Hp. lia.
Qed.

Lemma LastIndex_from_bounds (i : Z) (s substr : string) :
  LastIndex_from i s substr = -1 ∨
  i ≤ LastIndex_from i s substr ∧ LastIndex_from i s substr + len substr ≤ i + len s.
Proof.
  unfold len. revert i. induction s as [|c s IH]; intros i.
  - cbn [LastIndex_from]. destruct (HasPrefix "" substr) eqn:Hp; [|by left].
    right. apply HasPrefix_length in Hp. lia.
  - cbn [LastIndex_from]. destruct (0 <=? _) eqn:Hr.
    + destruct (IH (i + 1)) as [Hm|Hb]; [lia|]. right. cbn [String.length]. lia.
    + destruct (HasPrefix (String c s) substr) eqn:Hp; [|by left].
      right. apply HasPrefix_length in Hp. lia.
Qed.

Lemma LastIndex_bounds (s substr : string) :
  LastIndex s substr = -1 ∨
  0 ≤ LastIndex s substr ∧ LastIndex s substr + len substr ≤ len s.
Proof. apply (LastIndex_from_bounds 0). Qed.

Lemma substring_0_length (m : nat) (s : string) :
  (m ≤ String.length s)%nat → String.length (substring 0 m s) = m.
Proof.
  revert s. induction m as [|m IH]; intros [|c s]; simpl; try done; [lia|].
  intros Hm. rewrite IH; lia.
Qed.

Lemma slice_Ok (s : string) (lo hi : Z) :
  0 ≤ lo → lo ≤ hi → hi ≤ len s →
  slice s lo hi = Ok (substring (Z.to_nat lo) (Z.to_nat (hi - lo)) s).
Proof.
  intros Hlo Hhi Hlen. unfold slice.
  by rewrite !(proj2 (Z.leb_le _ _)) by done.
Qed.

(** ** The period and statistic of an alias *)

Section alias.
Context `{kinds : QueryKinds} `{range : MapRange}.

Lemma aliasPeriodStat_Ok (query : cloudWatchQuery) (stat : string) :
  aliasReadable query →
  ∃ period stat',
    aliasPeriodStat query stat = Ok (period, stat') ∧
    (isUserDefinedSearchExpression query = false →
     period = Itoa (q_Period query) ∧ stat' = stat).
Proof.
  unfold aliasReadable, aliasPeriodStat. intros Hcomma.
  destruct (isUserDefinedSearchExpression query); [|by eexists _, _].
  specialize (Hcomma eq_refl).
  set (expression := q_Expression query) in *.
  set (pIndex := LastIndex expression ",") in *.
  assert (pIndex + 1 ≤ len expression) as Hp.
  { destruct (LastIndex_bounds expression ",") as [?|[_ ?]]; [lia|]. done. }
  rewrite (slice_Ok expression (pIndex + 1)) by lia. cbn [mbind outcome_bind].
  rewrite (slice_Ok expression 0 pIndex) by lia. cbn [mbind outcome_bind].
  set (front := substring (Z.to_nat 0) (Z.to_nat (pIndex - 0)) expression).
  assert (len front = pIndex) as Hfront.
  { unfold len, front. change (Z.to_nat 0) with 0%nat.
    rewrite substring_0_length; unfold len in *; lia. }
  assert (0 ≤ LastIndex front "," + 1 ≤ pIndex) as Hs.
  { destruct (LastIndex_bounds front ",") as [->|[? Hb]]; [lia|].
    change (len ",") with 1 in Hb. lia. }
  rewrite slice_Ok by lia. cbn [mbind outcome_bind].
  eexists _, _. split; [done|]. done.
Qed.

Lemma formatAlias_Ok (query : cloudWatchQuery) (stat : string)
    (dimensions : gmap string string) (label : string) :
  aliasReadable query → ∃ name, formatAlias query stat dimensions label = Ok name.
Proof.
  intros Hread. destruct (aliasPeriodStat_Ok query stat Hread) as (period & stat' & Hps & _).
  unfold formatAlias. rewrite Hps. cbn [mbind outcome_bind].
  destruct (_ && isMathExpression _); [eauto|].
  destruct (_ && _ && _); [eauto|]. destruct (String.eqb _ _); eauto.
Qed.

(** ** The frames of a result without data *)

Lemma multiValuedDimension_fold (query : cloudWatchQuery) (keys : list string)
    (series : nat) (dimension : string) :
  (series ≤ (foldl (moreValues query) (series, dimension) keys).1)%nat ∧
  Forall (λ key, (length (dimensionValues query key)
                  ≤ (foldl (moreValues query) (series, dimension) keys).1)%nat) keys ∧
  (foldl (moreValues query) (series, dimension) keys = (series, dimension) ∨
   length (dimensionValues query (foldl (moreValues query) (series, dimension) keys).2)
   = (foldl (moreValues query) (series, dimension) keys).1).
Proof.
  revert series dimension. induction keys as [|key keys IH]; intros series dimension.
  - simpl. split; [done|]. split; [constructor|by left].
  - cbn [foldl]. unfold moreValues at 2 4 6 8 10. cbv zeta.
    destruct (series <? length (dimensionValues query key))%nat eqn:Hlt.
    + apply Nat.ltb_lt in Hlt.
      destruct (IH (length (dimensionValues query key)) key) as (Hle & Hall & Hlast).
      split; [lia|]. split; [by constructor|].
      right. destruct Hlast as [->|?]; done.
    + apply Nat.ltb_ge in Hlt.
      destruct (IH series dimension) as (Hle & Hall & Hlast).
      split; [done|]. split; [constructor; [lia|done]|]. done.
Qed.

Lemma dimensionValues_outside (query : cloudWatchQuery) (key : string) :
  key ∉ dom (q_Dimensions query) → dimensionValues query key = [].
Proof. intros ?%not_elem_of_dom. unfold dimensionValues. by rewrite H. Qed.

Lemma multiValuedDimension_most (query : cloudWatchQuery) (key : string) :
  (length (dimensionValues query key)
   ≤ length (dimensionValues query (multiValuedDimension query).2))%nat.
Proof.
  unfold multiValuedDimension.
  pose proof (multiValuedDimension_fold query (rangeKeys (dom (q_Dimensions query))) 0 "")
    as (_ & Hall & Hlast).
  set (result := foldl _ _ _) in *.
  rewrite Forall_forall in Hall.
  assert (∀ k, (length (dimensionValues query k) ≤ result.1)%nat) as Hmax.
  { intros k. destruct (decide (k ∈ dom (q_Dimensions query))) as [Hin|Hout].
    - apply Hall. by rewrite rangeKeys_perm, elem_of_elements.
    - rewrite dimensionValues_outside by done. simpl. lia. }
  destruct Hlast as [Heq| ->]; [|done].
  rewrite Heq. simpl. rewrite Heq in Hmax. simpl in Hmax.
  pose proof (Hmax key). pose proof (Hmax ""). lia.
Qed.

Lemma emptyFrameTags_fold (query : cloudWatchQuery) (dimension key : string)
    (keys : list string) (tags : gmap string string) :
  foldl (λ tags key,
           match dimensionValues query key with
           | v0 :: _ => if bool_decide (key ≠ dimension) then <[key := v0]> tags else tags
           | [] => tags
           end) tags keys !! key
  = if decide (key ∈ keys ∧ key ≠ dimension ∧ dimensionValues query key ≠ [])
    then head (dimensionValues query key) else tags !! key.
Proof.
  revert tags. induction keys as [|k keys IH]; intros tags.
  - cbn [foldl]. destruct (decide _) as [[Hin _]|]; [by apply elem_of_nil in Hin|done].
  - cbn [foldl]. rewrite IH. clear IH.
    destruct (decide (key ∈ keys ∧ key ≠ dimension ∧ dimensionValues query key ≠ []))
      as [(Hin & Hne & Hvs)|Hnot].
    + rewrite decide_True; [done|]. split; [by right|done].
    + destruct (decide (k = key)) as [->|Hk].
      * destruct (dimensionValues query key) as [|v0 vs] eqn:Hvs.
        -- rewrite decide_False; [done|]. by intros (_ & _ & ?).
        -- case_bool_decide as Hd.
           ++ rewrite lookup_insert_eq, decide_True; [done|]. split; [left|done].
           ++ rewrite decide_False; [done|]. by intros (_ & ? & _).
      * assert (match dimensionValues query k with
                | [] => tags
                | v0 :: _ => if bool_decide (k ≠ dimension) then <[k:=v0]> tags else tags
                end !! key = tags !! key) as ->.
        { destruct (dimensionValues query k); [done|].
          case_bool_decide; [by rewrite lookup_insert_ne|done]. }
        rewrite decide_False; [done|].
        intros ([?|?]%elem_of_cons & ? & ?); [done|]. by apply Hnot.
Qed.

Lemma emptyFrameTags_lookup (query : cloudWatchQuery) (dimension value key : string) :
  emptyFrameTags query dimension value !! key
  = if decide (key = dimension) then Some value else head (dimensionValues query key).
Proof.
  unfold emptyFrameTags. rewrite emptyFrameTags_fold.
  destruct (decide (key = dimension)) as [->|Hne].
  - rewrite decide_False by (by intros (_ & ? & _)). by rewrite lookup_singleton_eq.
  - rewrite lookup_singleton_ne by done.
    destruct (decide (_ ∧ _)) as [?|Hnot]; [done|].
    destruct (decide (key ∈ dom (q_Dimensions query))) as [Hin|Hout].
    + destruct (dimensionValues query key) eqn:Hvs; [done|].
      destruct Hnot. split; [|done]. by rewrite rangeKeys_perm, elem_of_elements.
    + by rewrite dimensionValues_outside.
Qed.

Lemma emptyFrames_loop (query : cloudWatchQuery) (label dimension : string)
    (values : list string) (frames0 : list Frame) :
  aliasReadable query →
  ∃ frames,
    forEach (λ frames value,
               let tags := emptyFrameTags query dimension value in
               name ← formatAlias query (q_Stats query) tags label;
               Ok (frames ++ [ {| frm_Name := name; frm_Fields := []; frm_Tags := tags |} ]))
            frames0 values
    = Ok (frames0 ++ frames) ∧
    Forall2 (λ frame value,
               frm_Fields frame = [] ∧
               frm_Tags frame = emptyFrameTags query dimension value ∧
               formatAlias query (q_Stats query) (frm_Tags frame) label
               = Ok (frm_Name frame))
            frames values.
Proof.
  intros Hread. revert frames0. induction values as [|value values IH]; intros frames0.
  - exists []. split; [by rewrite app_nil_r|constructor].
  - cbn [forEach]. cbv zeta.
    destruct (formatAlias_Ok query (q_Stats query)
                (emptyFrameTags query dimension value) label Hread) as [name Hname].
    rewrite Hname. cbn [mbind outcome_bind].
    destruct (IH (frames0 ++ [emptyFrame name (emptyFrameTags query dimension value)]))
      as (frames & Hloop & Hall).
    exists (emptyFrame name (emptyFrameTags query dimension value) :: frames).
    split.
    + unfold emptyFrame in Hloop. rewrite Hloop. by rewrite <- app_assoc.
    + constructor; [|done]. done.
Qed.

End alias.

(** ** The alias template *)

Lemma append_cons (c : ascii) (s t : string) : String c s +:+ t = String c (s +:+ t).
Proof. reflexivity. Qed.

Lemma append_empty_r (s : string) : s +:+ "" = s.
Proof. induction s as [|c s IH]; [done|]. by rewrite append_cons, IH. Qed.

Lemma append_assoc (s t u : string) : (s +:+ t) +:+ u = s +:+ t +:+ u.
Proof. induction s as [|c s IH]; [done|]. by rewrite !append_cons, IH. Qed.

(** ** White space *)

Lemma rev_app_append (s t : string) : String.rev_app s t = String.rev s +:+ t.
Proof.
  unfold String.rev. revert t. induction s as [|c s IH]; intros t; [done|].
  cbn [String.rev_app]. rewrite IH, (IH (String c "")), append_assoc. done.
Qed.

Lemma rev_cons (c : ascii) (s : string) : String.rev (String c s) = String.rev s +:+ String c "".
Proof. unfold String.rev at 1. cbn [String.rev_app]. apply rev_app_append. Qed.

Lemma rev_append (s t : string) : String.rev (s +:+ t) = String.rev t +:+ String.rev s.
Proof.
  induction s as [|c s IH].
  - change ("" +:+ t) with t. by rewrite append_empty_r.
  - by rewrite append_cons, !rev_cons, IH, append_assoc.
Qed.

Lemma rev_involutive (s : string) : String.rev (String.rev s) = s.
Proof.
  induction s as [|c s IH]; [done|]. by rewrite rev_cons, rev_append, IH.
Qed.

Lemma TrimLeftSpace_space (r : Z) (rest : string) :
  r ∈ White_Space → TrimLeftSpace (EncodeRune r +:+ rest) = TrimLeftSpace rest.
Proof.
  unfold White_Space. intros H.
  repeat (apply elem_of_cons in H as [->|H]; [reflexivity|]).
  by apply elem_of_nil in H.
Qed.

Lemma trimLeftRunes_rev_space (r : Z) (rest : string) :
  r ∈ White_Space →
  trimLeftRunes (String.rev <$> spaceBytes) (String.rev (EncodeRune r) +:+ rest)
  = trimLeftRunes (String.rev <$> spaceBytes) rest.
Proof.
  unfold White_Space. intros H.
  repeat (apply elem_of_cons in H as [->|H]; [reflexivity|]).
  by apply elem_of_nil in H.
Qed.

Lemma isSpaceBytes_elem_of (table : list string) (u : string) :
  isSpaceBytes table u = true → u ∈ table.
Proof.
  unfold isSpaceBytes. intros (x & Hx & Heq)%existsb_exists.
  apply String.eqb_eq in Heq as ->. by apply list_elem_of_In.
Qed.

Lemma spaceBytes_elem_of (u : string) :
  u ∈ spaceBytes → ∃ r, r ∈ White_Space ∧ u = EncodeRune r.
Proof. unfold spaceBytes. intros (r & -> & Hr)%list_elem_of_fmap. eauto. Qed.

Lemma spaceBytes_contTail (u : string) : u ∈ spaceBytes → contTail u = true.
Proof.
  intros Hu. assert (forallb contTail spaceBytes = true) as Hall by reflexivity.
  rewrite forallb_forall in Hall. apply Hall. by apply list_elem_of_In.
Qed.

Lemma spaces_start (rs : list Z) :
  Forall (λ r, r ∈ White_Space) rs →
  spaces rs = "" ∨ ∃ d rest, spaces rs = String d rest ∧ isCont d = false.
Proof.
  intros [|r rs' Hr _]; [by left|]. right. cbn [spaces foldr]. fold (spaces rs').
  unfold White_Space in Hr.
  repeat (apply elem_of_cons in Hr as [->|Hr]; [eexists _, _; split; reflexivity|]).
  by apply elem_of_nil in Hr.
Qed.

Lemma trimmed_start (u rest : string) :
  isSpaceBytes spaceBytes u = true → trimmed (u +:+ rest) → False.
Proof.
  intros (r & Hr & ->)%isSpaceBytes_elem_of%spaceBytes_elem_of Hname.
  by destruct (Hname r rest Hr) as [Hstart _].
Qed.

Lemma TrimLeftSpace_trimmed (name : string) (rs : list Z) :
  name ≠ "" → trimmed name → Forall (λ r, r ∈ White_Space) rs →
  TrimLeftSpace (name +:+ spaces rs) = name +:+ spaces rs.
Proof.
  intros Hne Hname Hrs. destruct name as [|c1 n1]; [done|]. clear Hne.
  unfold TrimLeftSpace. rewrite append_cons. cbn [trimLeftRunes].
  destruct (isSpaceBytes spaceBytes (String c1 "")) eqn:H1.
  { destruct (trimmed_start _ n1 H1 Hname). }
  destruct n1 as [|c2 n2].
  - change ("" +:+ spaces rs) with (spaces rs).
    destruct (spaces_start rs Hrs) as [->|(d & rest & -> & Hd)]; [done|].
    destruct (isSpaceBytes spaceBytes (String c1 (String d ""))) eqn:H2.
    { apply isSpaceBytes_elem_of, spaceBytes_contTail in H2. simpl in H2.
      by rewrite Hd in H2. }
    destruct rest as [|e rest]; [done|].
    destruct (isSpaceBytes spaceBytes (String c1 (String d (String e "")))) eqn:H3; [|done].
    apply isSpaceBytes_elem_of, spaceBytes_contTail in H3. simpl in H3.
    by rewrite Hd in H3.
  - rewrite append_cons.
    destruct (isSpaceBytes spaceBytes (String c1 (String c2 ""))) eqn:H2.
    { destruct (trimmed_start _ n2 H2 Hname). }
    destruct n2 as [|c3 n3].
    + change ("" +:+ spaces rs) with (spaces rs).
      destruct (spaces_start rs Hrs) as [->|(d & rest & -> & Hd)]; [done|].
      destruct (isSpaceBytes spaceBytes (String c1 (String c2 (String d "")))) eqn:H3;
        [|done].
      apply isSpaceBytes_elem_of, spaceBytes_contTail in H3. simpl in H3.
      rewrite Hd in H3. by rewrite andb_false_r in H3.
    + rewrite append_cons.
      destruct (isSpaceBytes spaceBytes (String c1 (String c2 (String c3 "")))) eqn:H3;
        [|done].
      destruct (trimmed_start _ n3 H3 Hname).
Qed.

Lemma trimmed_end (u rest : string) :
  isSpaceBytes (String.rev <$> spaceBytes) u = true →
  trimmed (String.rev (u +:+ rest)) → False.
Proof.
  intros (v & -> & (r & Hr & ->)%spaceBytes_elem_of)%isSpaceBytes_elem_of%list_elem_of_fmap
    Hname.
  rewrite rev_append, rev_involutive in Hname.
  by destruct (Hname r (String.rev rest) Hr) as [_ Hend].
Qed.

Lemma trimLeftRunes_rev_trimmed (name : string) :
  trimmed name →
  trimLeftRunes (String.rev <$> spaceBytes) (String.rev name) = String.rev name.
Proof.
  rewrite <- (rev_involutive name) at 1. generalize (String.rev name). clear name.
  intros m Hname. destruct m as [|c1 [|c2 [|c3 m3]]]; cbn [trimLeftRunes].
  - done.
  - destruct (isSpaceBytes _ (String c1 "")) eqn:H1; [|done].
    destruct (trimmed_end _ "" H1 Hname).
  - destruct (isSpaceBytes _ (String c1 "")) eqn:H1.
    { destruct (trimmed_end _ (String c2 "") H1 Hname). }
    destruct (isSpaceBytes _ (String c1 (String c2 ""))) eqn:H2; [|done].
    destruct (trimmed_end _ "" H2 Hname).
  - destruct (isSpaceBytes _ (String c1 "")) eqn:H1.
    { destruct (trimmed_end _ (String c2 (String c3 m3)) H1 Hname). }
    destruct (isSpaceBytes _ (String c1 (String c2 ""))) eqn:H2.
    { destruct (trimmed_end _ (String c3 m3) H2 Hname). }
    destruct (isSpaceBytes _ (String c1 (String c2 (String c3 "")))) eqn:H3; [|done].
    destruct (trimmed_end _ m3 H3 Hname).
Qed.

Lemma TrimLeftSpace_spaces (rs : list Z) (rest : string) :
  Forall (λ r, r ∈ White_Space) rs →
  TrimLeftSpace (spaces rs +:+ rest) = TrimLeftSpace rest.
Proof.
  induction 1 as [|r rs Hr _ IH]; [done|].
  cbn [spaces foldr]. fold (spaces rs).
  by rewrite append_assoc, TrimLeftSpace_space.
Qed.

Lemma trimLeftRunes_rev_spaces (rs : list Z) (rest : string) :
  Forall (λ r, r ∈ White_Space) rs →
  trimLeftRunes (String.rev <$> spaceBytes) (String.rev (spaces rs) +:+ rest)
  = trimLeftRunes (String.rev <$> spaceBytes) rest.
Proof.
  intros Hrs. revert rest. induction Hrs as [|r rs Hr _ IH]; intros rest; [done|].
  cbn [spaces foldr]. fold (spaces rs).
  by rewrite rev_append, append_assoc, IH, trimLeftRunes_rev_space.
Qed.

Lemma TrimSpace_token (lead trail : list Z) (name : string) :
  Forall (λ r, r ∈ White_Space) lead → Forall (λ r, r ∈ White_Space) trail →
  trimmed name →
  TrimSpace (token lead name trail) = name.
Proof.
  intros Hlead Htrail Hname. unfold TrimSpace, token.
  rewrite TrimLeftSpace_spaces by done.
  destruct (decide (name = "")) as [->|Hne].
  - change ("" +:+ spaces trail) with (spaces trail).
    rewrite <- (append_empty_r (spaces trail)), TrimLeftSpace_spaces by done. done.
  - rewrite TrimLeftSpace_trimmed by done. unfold TrimRightSpace.
    rewrite rev_append, trimLeftRunes_rev_spaces, trimLeftRunes_rev_trimmed by done.
    apply rev_involutive.
Qed.

Lemma isSpaceBytes_true (table : list string) (u : string) :
  u ∈ table → isSpaceBytes table u = true.
Proof.
  intros Hu. unfold isSpaceBytes. apply existsb_exists. exists u.
  split; [by apply list_elem_of_In|apply String.eqb_refl].
Qed.

Lemma trimLeftRunes_decomposition (table : list string) (s : string) :
  Forall (λ u, runeSized u = true) table →
  ∃ us, Forall (λ u, u ∈ table) us ∧
        s = foldr append "" us +:+ trimLeftRunes table s ∧
        ∀ u rest, u ∈ table → trimLeftRunes table s ≠ u +:+ rest.
Proof.
  intros Hsized.
  assert (∀ n s, (String.length s < n)%nat →
          ∃ us, Forall (λ u, u ∈ table) us ∧
                s = foldr append "" us +:+ trimLeftRunes table s ∧
                ∀ u rest, u ∈ table → trimLeftRunes table s ≠ u +:+ rest) as Hwf;
    [|by apply (Hwf (S (String.length s)) s); lia].
  clear s. intros n. induction n as [|n IH]; intros s Hn; [lia|].
  assert (∀ u s', u ∈ table → (String.length s' < n)%nat →
          ∃ us, Forall (λ u, u ∈ table) us ∧
                u +:+ s' = foldr append "" us +:+ trimLeftRunes table s' ∧
                ∀ u rest, u ∈ table → trimLeftRunes table s' ≠ u +:+ rest) as Hstep.
  { intros u s' Hu Hs'. destruct (IH s' Hs') as (us & Hus & Heq & Hno).
    exists (u :: us). split; [by constructor|]. split; [|done].
    cbn [foldr]. by rewrite append_assoc, <- Heq. }
  assert (∀ s', (∀ u, u ∈ table → ∀ rest, s' ≠ u +:+ rest) →
          ∃ us, Forall (λ u, u ∈ table) us ∧
                s' = foldr append "" us +:+ s' ∧
                ∀ u rest, u ∈ table → s' ≠ u +:+ rest) as Hstop.
  { intros s' Hno. exists []. split; [constructor|]. split; [done|]. intros u rest Hu.
    by apply Hno. }
  assert (∀ u, u ∈ table → ∃ c1 t, u = String c1 t ∧ (String.length t ≤ 2)%nat) as Hshape.
  { intros u Hu. rewrite Forall_forall in Hsized. specialize (Hsized u Hu).
    unfold runeSized in Hsized. apply andb_true_iff in Hsized as [H1 H3].
    apply Nat.leb_le in H1, H3. destruct u as [|c1 t]; simpl in *; [lia|].
    exists c1, t. split; [done|lia]. }
  destruct s as [|c1 [|c2 [|c3 s3]]]; cbn [trimLeftRunes].
  - apply Hstop. intros u Hu rest. destruct (Hshape u Hu) as (d & t & -> & _). done.
  - destruct (isSpaceBytes table (String c1 "")) eqn:H1.
    + apply isSpaceBytes_elem_of in H1. apply (Hstep _ "" H1). simpl in *. lia.
    + apply Hstop. intros u Hu rest Heq. destruct (Hshape u Hu) as (d & t & -> & _).
      rewrite append_cons in Heq. injection Heq as <- Ht.
      destruct t; [|done]. by rewrite (isSpaceBytes_true _ _ Hu) in H1.
  - destruct (isSpaceBytes table (String c1 "")) eqn:H1.
    { apply isSpaceBytes_elem_of in H1. apply (Hstep _ (String c2 "") H1).
      simpl in *. lia. }
    destruct (isSpaceBytes table (String c1 (String c2 ""))) eqn:H2.
    { apply isSpaceBytes_elem_of in H2. apply (Hstep _ "" H2). simpl in *. lia. }
    apply Hstop. intros u Hu rest Heq. destruct (Hshape u Hu) as (d & t & -> & Ht).
    rewrite append_cons in Heq. injection Heq as <- Heq.
    destruct t as [|d2 t].
    + by rewrite (isSpaceBytes_true _ _ Hu) in H1.
    + rewrite append_cons in Heq. injection Heq as <- Heq. destruct t; [|done].
      by rewrite (isSpaceBytes_true _ _ Hu) in H2.
  - destruct (isSpaceBytes table (String c1 "")) eqn:H1.
    { apply isSpaceBytes_elem_of in H1. apply (Hstep _ (String c2 (String c3 s3)) H1).
      simpl in *. lia. }
    destruct (isSpaceBytes table (String c1 (String c2 ""))) eqn:H2.
    { apply isSpaceBytes_elem_of in H2. apply (Hstep _ (String c3 s3) H2).
      simpl in *. lia. }
    destruct (isSpaceBytes table (String c1 (String c2 (String c3 "")))) eqn:H3.
    { apply isSpaceBytes_elem_of in H3. apply (Hstep _ s3 H3). simpl in *. lia. }
    apply Hstop. intros u Hu rest Heq. destruct (Hshape u Hu) as (d & t & -> & Ht).
    rewrite append_cons in Heq. injection Heq as <- Heq.
    destruct t as [|d2 t].
    + by rewrite (isSpaceBytes_true _ _ Hu) in H1.
    + rewrite append_cons in Heq. injection Heq as <- Heq. destruct t as [|d3 t].
      * by rewrite (isSpaceBytes_true _ _ Hu) in H2.
      * rewrite append_cons in Heq. injection Heq as <- Heq.
        destruct t; [|simpl in Ht; lia].
        by rewrite (isSpaceBytes_true _ _ Hu) in H3.
Qed.

Lemma spaces_app (rs rs' : list Z) : spaces (rs ++ rs') = spaces rs +:+ spaces rs'.
Proof.
  induction rs as [|r rs IH]; [done|].
  cbn [app spaces foldr]. fold (spaces (rs ++ rs')). fold (spaces rs).
  by rewrite IH, append_assoc.
Qed.

Lemma spaceBytes_spaces (us : list string) :
  Forall (λ u, u ∈ spaceBytes) us →
  ∃ rs, Forall (λ r, r ∈ White_Space) rs ∧ foldr append "" us = spaces rs.
Proof.
  induction 1 as [|u us (r & Hr & ->)%spaceBytes_elem_of _ (rs & Hrs & IH)].
  - by exists [].
  - exists (r :: rs). split; [by constructor|]. cbn [foldr spaces]. fold (spaces rs).
    by rewrite IH.
Qed.

Lemma rev_spaceBytes_spaces (us : list string) :
  Forall (λ u, u ∈ String.rev <$> spaceBytes) us →
  ∃ rs, Forall (λ r, r ∈ White_Space) rs ∧ String.rev (foldr append "" us) = spaces rs.
Proof.
  induction 1 as [|u us (v & -> & (r & Hr & ->)%spaceBytes_elem_of)%list_elem_of_fmap _
                    (rs & Hrs & IH)].
  - by exists [].
  - exists (rs ++ [r]). split; [apply Forall_app; split; [done|by constructor]|].
    cbn [foldr]. rewrite rev_append, rev_involutive, IH, spaces_app.
    cbn [spaces foldr]. by rewrite append_empty_r.
Qed.

Lemma token_decomposition (text : string) :
  ∃ lead name trail,
    text = token lead name trail ∧
    Forall (λ r, r ∈ White_Space) lead ∧ Forall (λ r, r ∈ White_Space) trail ∧
    trimmed name.
Proof.
  assert (Forall (λ u, runeSized u = true) spaceBytes) as Hsized.
  { apply Forall_forall. intros u Hu.
    assert (forallb runeSized spaceBytes = true) as Hall by reflexivity.
    rewrite forallb_forall in Hall. apply Hall. by apply list_elem_of_In. }
  assert (Forall (λ u, runeSized u = true) (String.rev <$> spaceBytes)) as Hsized'.
  { apply Forall_forall. intros u Hu.
    assert (forallb runeSized (String.rev <$> spaceBytes) = true) as Hall by reflexivity.
    rewrite forallb_forall in Hall. apply Hall. by apply list_elem_of_In. }
  destruct (trimLeftRunes_decomposition spaceBytes text Hsized) as (us1 & Hus1 & Htext & Hno1).
  destruct (trimLeftRunes_decomposition (String.rev <$> spaceBytes)
              (String.rev (TrimLeftSpace text)) Hsized') as (us2 & Hus2 & Hrev & Hno2).
  destruct (spaceBytes_spaces us1 Hus1) as (lead & Hlead & Heq1).
  destruct (rev_spaceBytes_spaces us2 Hus2) as (trail & Htrail & Heq2).
  set (m := trimLeftRunes (String.rev <$> spaceBytes) (String.rev (TrimLeftSpace text))) in *.
  assert (TrimLeftSpace text = String.rev m +:+ spaces trail) as Hleft.
  { rewrite <- (rev_involutive (TrimLeftSpace text)), Hrev, rev_append. by rewrite Heq2. }
  exists lead, (String.rev m), trail. split; [|split; [done|split; [done|]]].
  - unfold token. rewrite <- Hleft, <- Heq1. exact Htext.
  - intros r rest Hr. split.
    + intros Hstart. apply (Hno1 (EncodeRune r) (rest +:+ spaces trail)).
      * unfold spaceBytes. apply list_elem_of_fmap. eauto.
      * fold (TrimLeftSpace text). by rewrite Hleft, Hstart, append_assoc.
    + intros Hend. apply (Hno2 (String.rev (EncodeRune r)) (String.rev rest)).
      * apply list_elem_of_fmap. eexists. split; [done|].
        unfold spaceBytes. apply list_elem_of_fmap. eauto.
      * fold m. by rewrite <- (rev_involutive m), Hend, rev_append.
Qed.

(** ** Placeholders *)

Lemma ReplaceAllFunc_other (repl : string → string) (c : ascii) (s : string) :
  Ascii.eqb c "{" = false →
  aliasFormat_ReplaceAllFunc repl (String c s)
  = String c (aliasFormat_ReplaceAllFunc repl s).
Proof. intros Hc. destruct s as [|c2 [|c3 rest]]; simpl; by rewrite ?Hc. Qed.

Lemma ReplaceAllFunc_text (repl : string → string) (s rest : string) :
  hasByte "{" s = false →
  aliasFormat_ReplaceAllFunc repl (s +:+ rest)
  = s +:+ aliasFormat_ReplaceAllFunc repl rest.
Proof.
  induction s as [|c s IH]; [done|]. cbn [hasByte].
  intros [Hc Hs]%orb_false_iff.
  by rewrite !append_cons, ReplaceAllFunc_other, IH.
Qed.

Lemma inside_close (repl : string → string) (text token rest : string) :
  hasByte "}" token = false →
  aliasFormat_inside repl text (token +:+ "}}" +:+ rest)
  = repl ("{{" +:+ (text +:+ token) +:+ "}}") +:+ aliasFormat_ReplaceAllFunc repl rest.
Proof.
  revert text. induction token as [|d token IH]; intros text.
  - intros _. by rewrite append_empty_r.
  - cbn [hasByte]. intros [Hd Htoken]%orb_false_iff.
    rewrite append_cons.
    assert (aliasFormat_inside repl text (String d (token +:+ "}}" +:+ rest))
            = aliasFormat_inside repl (text +:+ String d "") (token +:+ "}}" +:+ rest))
      as ->.
    { destruct token as [|d2 token].
      - change ("" +:+ "}}" +:+ rest) with (String "}" (String "}" rest)).
        cbn [aliasFormat_inside]. rewrite Hd. reflexivity.
      - rewrite append_cons. cbn [aliasFormat_inside]. rewrite Hd. reflexivity. }
    rewrite IH by done. rewrite (append_assoc text (String d "") token). reflexivity.
Qed.

Lemma ReplaceAllFunc_placeholder (repl : string → string) (token rest : string) :
  token ≠ "" →
  hasByte "}" token = false →
  aliasFormat_ReplaceAllFunc repl (("{{" +:+ token +:+ "}}") +:+ rest)
  = repl ("{{" +:+ token +:+ "}}") +:+ aliasFormat_ReplaceAllFunc repl rest.
Proof.
  intros Hne Hclose. destruct token as [|c token]; [done|].
  cbn [hasByte] in Hclose. apply orb_false_iff in Hclose as [_ Hclose].
  rewrite !append_assoc.
  change (aliasFormat_inside repl (String c "") (token +:+ "}}" +:+ rest)
          = repl ("{{" +:+ String c token +:+ "}}") +:+ aliasFormat_ReplaceAllFunc repl rest).
  by rewrite inside_close.
Qed.

Lemma Replace1_closing (token : string) :
  hasByte "}" token = false → Replace1 (token +:+ "}}") "}}" "" = token.
Proof.
  induction token as [|d token IH]; [done|].
  cbn [hasByte]. intros [Hd Htoken]%orb_false_iff.
  rewrite append_cons. cbn [Replace1 HasPrefix].
  rewrite Ascii.eqb_sym, Hd. cbn [andb]. by rewrite IH.
Qed.

Lemma HasPrefix_append (u rest : string) : HasPrefix (u +:+ rest) u = true.
Proof.
  induction u as [|c u IH]; [done|].
  rewrite append_cons. cbn [HasPrefix]. by rewrite Ascii.eqb_refl, IH.
Qed.

Lemma trimmedb_trimmed (name : string) : trimmedb name = true → trimmed name.
Proof.
  unfold trimmedb. intros [Hstart Hend]%andb_true_iff r rest Hr.
  rewrite forallb_forall in Hstart, Hend.
  assert (In (EncodeRune r) spaceBytes) as Hin.
  { apply list_elem_of_In. unfold spaceBytes. apply list_elem_of_fmap. eauto. }
  split; intros ->.
  - specialize (Hstart _ Hin). by rewrite HasPrefix_append in Hstart.
  - specialize (Hend _ Hin). by rewrite rev_append, HasPrefix_append in Hend.
Qed.

Lemma wellFormed_Placeholder (lead trail : list Z) (name : string) :
  Forall (λ r, r ∈ White_Space) lead → Forall (λ r, r ∈ White_Space) trail →
  trimmedb name = true → hasByte "}" name = false → name ≠ "" →
  wellFormed (Placeholder lead name trail).
Proof.
  intros Hlead Htrail Hname Hclose Hne. cbn [wellFormed].
  split; [done|]. split; [done|]. split; [by apply trimmedb_trimmed|]. split; [done|].
  unfold token. destruct (spaces lead); [by destruct name|done].
Qed.

Lemma hasByte_append (c : ascii) (s t : string) :
  hasByte c (s +:+ t) = hasByte c s || hasByte c t.
Proof.
  induction s as [|d s IH]; [done|].
  rewrite append_cons. cbn [hasByte]. by rewrite IH, orb_assoc.
Qed.

Lemma hasByte_spaces (rs : list Z) :
  Forall (λ r, r ∈ White_Space) rs → hasByte "}" (spaces rs) = false.
Proof.
  induction 1 as [|r rs Hr _ IH]; [done|].
  cbn [spaces foldr]. fold (spaces rs). rewrite hasByte_append, IH, orb_false_r.
  unfold White_Space in Hr.
  repeat (apply elem_of_cons in Hr as [->|Hr]; [reflexivity|]).
  by apply elem_of_nil in Hr.
Qed.

Lemma hasByte_token (lead trail : list Z) (name : string) :
  Forall (λ r, r ∈ White_Space) lead → Forall (λ r, r ∈ White_Space) trail →
  hasByte "}" name = false →
  hasByte "}" (token lead name trail) = false.
Proof.
  intros Hlead Htrail Hname. unfold token.
  by rewrite !hasByte_append, !hasByte_spaces, Hname.
Qed.

Lemma aliasToken_placeholder (data : gmap string string) (lead trail : list Z)
    (name : string) :
  Forall (λ r, r ∈ White_Space) lead → Forall (λ r, r ∈ White_Space) trail →
  trimmed name → hasByte "}" name = false →
  aliasToken data ("{{" +:+ token lead name trail +:+ "}}")
  = expandPiece data (Placeholder lead name trail).
Proof.
  intros Hlead Htrail Hname Hclose. unfold aliasToken, expandPiece.
  change (Replace1 ("{{" +:+ token lead name trail +:+ "}}") "{{" "")
    with (token lead name trail +:+ "}}").
  rewrite Replace1_closing by (by apply hasByte_token).
  by rewrite TrimSpace_token.
Qed.

Lemma ReplaceAllFunc_render (data : gmap string string) (pieces : list piece) :
  Forall wellFormed pieces →
  aliasFormat_ReplaceAllFunc (aliasToken data) (render pieces) = expand data pieces.
Proof.
  induction 1 as [|p pieces Hp _ IH]; [done|].
  cbn [render expand foldr]. fold (render pieces). fold (expand data pieces).
  destruct p as [s|lead name trail]; cbn [renderPiece wellFormed] in *.
  - by rewrite ReplaceAllFunc_text, IH.
  - destruct Hp as (Hlead & Htrail & Hname & Hclose & Hne).
    rewrite ReplaceAllFunc_placeholder; [|done|by apply hasByte_token].
    by rewrite aliasToken_placeholder, IH.
Qed.

Lemma len_zero (s : string) : (len s =? 0) = bool_decide (s = "").
Proof. by destruct s. Qed.

Section alias_data.
Context `{kinds : QueryKinds} `{range : MapRange}.

Lemma dimensions_fold (dimensions data : gmap string string) (keys : list string)
    (key : string) :
  foldl (λ data k, match dimensions !! k with
                   | Some v => <[k := v]> data
                   | None => data
                   end) data keys !! key
  = if decide (key ∈ keys ∧ is_Some (dimensions !! key))
    then dimensions !! key else data !! key.
Proof.
  revert data. induction keys as [|k keys IH]; intros data.
  - cbn [foldl]. destruct (decide _) as [[Hin _]|]; [by apply elem_of_nil in Hin|done].
  - cbn [foldl]. rewrite IH. clear IH.
    destruct (decide (key ∈ keys ∧ is_Some (dimensions !! key))) as [[Hin Hsome]|Hnot].
    + rewrite decide_True; [done|]. split; [by right|done].
    + destruct (decide (k = key)) as [->|Hk].
      * destruct (dimensions !! key) as [v|] eqn:Hv.
        -- rewrite lookup_insert_eq, decide_True; [done|]. split; [left|eauto].
        -- rewrite decide_False; [done|]. by intros [_ [??]].
      * assert (match dimensions !! k with
                | Some v => <[k:=v]> data
                | None => data
                end !! key = data !! key) as ->.
        { destruct (dimensions !! k); [by rewrite lookup_insert_ne|done]. }
        rewrite decide_False; [done|].
        intros [[?|?]%elem_of_cons ?]; [done|]. by apply Hnot.
Qed.

Lemma aliasData_context (query : cloudWatchQuery) (period stat : string)
    (dimensions : gmap string string) (label : string) :
  aliasData query period stat dimensions label
  = aliasContext query period stat dimensions label.
Proof.
  unfold aliasData, aliasContext. apply map_eq. intros key.
  rewrite dimensions_fold, len_zero.
  assert ((if bool_decide (label = "")
           then <["period" := period]> (<["stat" := stat]>
                  (<["metric" := q_MetricName query]>
                     (<["namespace" := q_Namespace query]>
                        (<["region" := q_Region query]> ∅))))
           else <["label" := label]>
                  (<["period" := period]> (<["stat" := stat]>
                     (<["metric" := q_MetricName query]>
                        (<["namespace" := q_Namespace query]>
                           (<["region" := q_Region query]> ∅))))))
          = (if decide (label = "") then ∅ else {["label" := label]}) ∪
            <["period" := period]> (<["stat" := stat]>
              (<["metric" := q_MetricName query]>
                 (<["namespace" := q_Namespace query]>
                    (<["region" := q_Region query]> ∅))))) as ->.
  { destruct (decide (label = "")) as [Hl|Hl].
    - rewrite bool_decide_eq_true_2 by done. by rewrite (left_id_L ∅ (∪)).
    - rewrite bool_decide_eq_false_2 by done. by rewrite insert_union_singleton_l. }
  destruct (dimensions !! key) as [v|] eqn:Hv.
  - rewrite decide_True.
    + symmetry. apply lookup_union_Some_raw. by left.
    + split; [|eauto]. rewrite rangeKeys_perm, elem_of_elements. apply elem_of_dom. eauto.
  - rewrite decide_False by (by intros [_ [??]]). symmetry. by apply lookup_union_r.
Qed.

End alias_data.

(** ** More on the merge *)

Lemma lastExceeded_unreferenced (id : string) (outputs : list GetMetricDataOutput) :
  (∀ r, r ∈ allResults outputs → res_Id r ≠ id) → lastExceeded id outputs = None.
Proof.
  unfold lastExceeded, allResults.
  induction outputs as [|mdo outputs IH] using rev_ind; intros Hno; [done|].
  rewrite foldl_app. cbn [foldl]. rewrite decide_False.
  - apply IH. intros r Hr. apply Hno. rewrite fmap_app, concat_app. apply elem_of_app. by left.
  - intros (r & Hr & Hid). apply (Hno r); [|done].
    rewrite fmap_app, concat_app. apply elem_of_app. right. simpl. by rewrite app_nil_r.
Qed.

Lemma lastExceeded_referenced (id : string) (outputs : list GetMetricDataOutput)
    (r : MetricDataResult) :
  r ∈ allResults outputs → res_Id r = id → is_Some (lastExceeded id outputs).
Proof.
  unfold lastExceeded, allResults.
  induction outputs as [|mdo outputs IH] using rev_ind; intros Hin Hid.
  - by apply elem_of_nil in Hin.
  - rewrite foldl_app. cbn [foldl]. destruct (decide (referencesQuery id mdo)); [eauto|].
    apply IH; [|done]. rewrite fmap_app, concat_app in Hin.
    apply elem_of_app in Hin as [?|Hin]; [done|]. simpl in Hin. rewrite app_nil_r in Hin.
    destruct n. by exists r.
Qed.

Lemma set_RequestExceededMaxLimit_same (query : cloudWatchQuery) :
  set_RequestExceededMaxLimit query (q_RequestExceededMaxLimit query) = query.
Proof. by destruct query. Qed.

Lemma dom_merged (rs : list MetricDataResult) :
  dom (foldl insertResult ∅ rs) = list_to_set (res_Id <$> rs).
Proof.
  apply set_eq. intros id. rewrite elem_of_dom, insertResult_foldl_is_Some.
  rewrite elem_of_list_to_set, list_elem_of_fmap.
  split; intros (r & ? & ?); by exists r.
Qed.

Lemma appendResult_foldl_Id (f : MetricDataResult) (fs : list MetricDataResult) :
  res_Id (foldl appendResult f fs) = res_Id f ∧
  res_Label (foldl appendResult f fs) = res_Label f.
Proof.
  revert f. induction fs as [|g fs IH]; intros f; simpl; [done|].
  by rewrite !(proj1 (IH _)), !(proj2 (IH _)).
Qed.

Lemma rangeKeys_empty `{range : MapRange} : rangeKeys ∅ = [].
Proof.
  apply Permutation_nil_r. rewrite rangeKeys_perm. by rewrite elements_empty.
Qed.

(** ** Runs that end well *)

Lemma collectLoop_Ok {A B : Type} (step : A → outcome B) (xs : list A) (acc out : list B) :
  forEach (λ acc x, y ← step x; Ok (acc ++ [y])) acc xs = Ok out →
  ∃ ys, Forall2 (λ x y, step x = Ok y) xs ys ∧ out = acc ++ ys.
Proof.
  revert acc. induction xs as [|x xs IH]; intros acc; simpl.
  - intros [= <-]. exists []. split; [constructor|]. by rewrite app_nil_r.
  - destruct (step x) as [y| |] eqn:Hx; simpl; [|done..].
    intros (ys & Hys & ->)%IH. exists (y :: ys).
    split; [by constructor|]. by rewrite <- app_assoc.
Qed.

Lemma collectLoop_total {A B : Type} (step : A → outcome B) (xs : list A) (acc : list B) :
  Forall (λ x, ∃ y, step x = Ok y) xs →
  ∃ ys, forEach (λ acc x, y ← step x; Ok (acc ++ [y])) acc xs = Ok (acc ++ ys).
Proof.
  intros Hall. revert acc. induction Hall as [|x xs [y Hy] _ IH]; intros acc; simpl.
  - exists []. by rewrite app_nil_r.
  - rewrite Hy. simpl. destruct (IH (acc ++ [y])) as [ys Hys].
    exists (y :: ys). rewrite Hys. by rewrite <- app_assoc.
Qed.

Lemma appendLoop_total {A B : Type} (step : A → outcome (list B)) (xs : list A)
    (acc : list B) :
  Forall (λ x, ∃ part, step x = Ok part) xs →
  ∃ out, forEach (λ acc x, more ← step x; Ok (acc ++ more)) acc xs = Ok out.
Proof.
  intros Hall. revert acc. induction Hall as [|x xs [part Hpart] _ IH]; intros acc; simpl.
  - eauto.
  - rewrite Hpart. simpl. apply IH.
Qed.

Lemma appendLoop_first_Err {A B : Type} (step : A → outcome (list B))
    (before after : list A) (x : A) (acc : list B) (e : error) :
  Forall (λ x, ∃ part, step x = Ok part) before →
  step x = Err e →
  forEach (λ acc x, more ← step x; Ok (acc ++ more)) acc (before ++ x :: after) = Err e.
Proof.
  intros Hbefore Hx. rewrite forEach_app.
  destruct (appendLoop_total step before acc Hbefore) as [out ->]. simpl.
  by rewrite Hx.
Qed.

Lemma noArithmeticError_hasMessage (r : MetricDataResult) :
  noArithmeticError r ↔ ¬ hasMessage "ArithmeticError" (res_Messages r).
Proof.
  unfold noArithmeticError, hasMessage. rewrite Forall_forall. split.
  - intros Hall (m & Hin & Hc). by apply (Hall m).
  - intros Hno m Hin Hc. apply Hno. by exists m.
Qed.

Lemma checkMessages_first (query : cloudWatchQuery) (clean rest : list MessageData)
    (message : MessageData) :
  Forall (λ message, msg_Code message ≠ "ArithmeticError") clean →
  msg_Code message = "ArithmeticError" →
  checkMessages query (clean ++ message :: rest)
  = Err (ArithmeticErrorInQuery (q_RefId query) (msg_Value message)).
Proof.
  intros Hclean Hcode. unfold checkMessages.
  induction Hclean as [|m clean Hm _ IH]; simpl.
  - by rewrite Hcode.
  - rewrite String_eqb_decide, bool_decide_eq_false_2 by done. simpl. apply IH.
Qed.

Lemma gapFill_total (period : Z) (Ts : list Time) (Vs : list (option float64))
    (rest : list Time) (j : nat) (timestamps : list Z) (points : list (option float64)) :
  length Vs = length Ts →
  Forall is_Some Vs →
  drop j Ts = rest →
  ∃ out, gapFill period Ts Vs j rest timestamps points = Ok out.
Proof.
  intros Hparallel Hpresent. revert j timestamps points.
  induction rest as [|t rest IH]; intros j timestamps points Hdrop; [simpl; eauto|].
  apply drop_cons_inv in Hdrop as [Hj Hdrop].
  destruct (value_present Ts Vs Hparallel Hpresent j t Hj) as [v Hv].
  cbn [gapFill]. unfold index. rewrite Hv. destruct j as [|i].
  - cbn [Nat.ltb Nat.leb mbind outcome_bind deref]. by apply IH.
  - replace (S i - 1)%nat with i by lia.
    assert (is_Some (Ts !! i)) as [prev Hprev].
    { apply lookup_lt_is_Some. apply lookup_lt_Some in Hj. lia. }
    rewrite Hprev. cbn [Nat.ltb Nat.leb mbind outcome_bind].
    destruct (time_Before _ t); cbn [mbind outcome_bind deref]; by apply IH.
Qed.

Section total.
Context `{kinds : QueryKinds} `{range : MapRange}.

Lemma seriesFrame_total (query : cloudWatchQuery) (label : string) (r : MetricDataResult) :
  aliasReadable query →
  length (res_Values r) = length (res_Timestamps r) →
  Forall is_Some (res_Values r) →
  ∃ frames, seriesFrame query label r = Ok frames.
Proof.
  intros Hread Hparallel Hpresent. unfold seriesFrame.
  destruct (gapFill_total (q_Period query) (res_Timestamps r) (res_Values r)
              (res_Timestamps r) 0 [] [] Hparallel Hpresent eq_refl)
    as [[timestamps points] ->].
  cbn [mbind outcome_bind].
  destruct (formatAlias_Ok query (q_Stats query) (dimensionTags query label) label Hread)
    as [name ->].
  cbn [mbind outcome_bind]. eauto.
Qed.

Lemma labelFrames_total (query : cloudWatchQuery) (label : string) (r : MetricDataResult) :
  aliasReadable query → formattable query r →
  ∃ frames, labelFrames query label r = Ok frames.
Proof.
  intros Hread Hform. unfold labelFrames.
  destruct ((length (res_Values r) =? 0)%nat && isMultiValuedDimensionExpression query)
    eqn:Hbranch.
  - destruct (emptyFrames_loop query label (multiValuedDimension query).2
                (dimensionValues query (multiValuedDimension query).2) [] Hread)
      as (frames & Hloop & _).
    exists frames. exact Hloop.
  - destruct Hform as [[Hnil Hmulti]|[Hparallel Hpresent]].
    + by rewrite Hnil, Hmulti in Hbranch.
    + by apply seriesFrame_total.
Qed.

Lemma labelOutcome_total (query : cloudWatchQuery)
    (metricDataResults : gmap string MetricDataResult) (label : string)
    (r : MetricDataResult) :
  aliasReadable query →
  metricDataResults !! label = Some r →
  formattable query r → noArithmeticError r →
  ∃ frames, labelOutcome query metricDataResults label = Ok frames.
Proof.
  intros Hread Hr Hform Hclean. unfold labelOutcome. rewrite Hr. cbn [deref mbind outcome_bind].
  apply noArithmeticError_hasMessage in Hclean.
  apply (checkMessages_Ok query) in Hclean. rewrite Hclean.
  cbn [mbind outcome_bind]. by apply labelFrames_total.
Qed.

End total.

Lemma metricDataResultLabels_NoDup `{range : MapRange}
    (metricDataResults : gmap string MetricDataResult) :
  NoDup (metricDataResultLabels metricDataResults).
Proof. rewrite metricDataResultLabels_Permutation. apply NoDup_elements. Qed.

(** The labels visited before a given one are those strictly before it. *)
Lemma metricDataResultLabels_split `{range : MapRange}
    (metricDataResults : gmap string MetricDataResult) (label : string) :
  is_Some (metricDataResults !! label) →
  ∃ before after,
    metricDataResultLabels metricDataResults = before ++ label :: after ∧
    Forall (λ l, labelBefore l label) before.
Proof.
  intros Hin%metricDataResultLabels_elem_of.
  apply list_elem_of_split in Hin as (before & after & Heq).
  exists before, after. split; [done|].
  pose proof (sortStrings_Sorted (rangeKeys (dom metricDataResults))) as Hsorted.
  pose proof (metricDataResultLabels_NoDup metricDataResults) as Hnodup.
  fold (metricDataResultLabels metricDataResults) in Hsorted.
  rewrite Heq in Hsorted, Hnodup.
  apply (Sorted_StronglySorted _) in Hsorted.
  apply StronglySorted_app in Hsorted as (Hle & _ & _).
  apply NoDup_app in Hnodup as (_ & Hdisjoint & _).
  apply Forall_forall. intros l Hl. split.
  - apply Hle; [done|left].
  - intros ->. apply (Hdisjoint label Hl). left.
Qed.

Lemma appendResult_foldl_sound (f : MetricDataResult) (fs : list MetricDataResult) :
  soundFragment f → Forall soundFragment fs → soundFragment (foldl appendResult f fs).
Proof.
  intros Hf Hfs. revert f Hf. induction Hfs as [|g fs Hg _ IH]; intros f Hf; [done|].
  cbn [foldl]. apply IH. destruct Hf as (Hlen & Hsome & Hclean), Hg as (Hlen' & Hsome' & _).
  split; [|split].
  - simpl. rewrite !length_app. lia.
  - simpl. by apply Forall_app.
  - done.
Qed.

Lemma merged_sound (rs : list MetricDataResult) (id label : string)
    (byLabel : gmap string MetricDataResult) (merged : MetricDataResult) :
  Forall soundFragment rs →
  foldl insertResult ∅ rs !! id = Some byLabel →
  byLabel !! label = Some merged →
  soundFragment merged.
Proof.
  intros Hsound Hid Hlabel.
  rewrite (insertResult_foldl_lookup rs id label byLabel Hid) in Hlabel.
  assert (Forall soundFragment (fragments id label rs)) as Hfs.
  { apply Forall_forall. intros r [_ Hr]%list_elem_of_filter.
    rewrite Forall_forall in Hsound. by apply Hsound. }
  destruct (fragments id label rs) as [|f fs]; [done|].
  injection Hlabel as <-. apply Forall_cons in Hfs as [Hf Hfs].
  by apply appendResult_foldl_sound.
Qed.

(** ** Tags of the normal case *)

Lemma matchLoop_lookup (label dim key : string) (values : list string)
    (tags : gmap string string) :
  foldl (λ tags value,
           if String.eqb value label || String.eqb value "*"
           then <[dim := label]> tags
           else if Contains label value then <[dim := value]> tags
           else tags)
        tags values !! key
  = if decide (key = dim)
    then match last (omap (labelMatch label) values) with
         | Some tag => Some tag
         | None => tags !! key
         end
    else tags !! key.
Proof.
  induction values as [|value values IH] using rev_ind.
  - simpl. by case_decide.
  - rewrite foldl_app, omap_app. cbn [foldl omap list_omap]. unfold labelMatch at 2.
    rewrite !String_eqb_decide.
    destruct (decide (value = label ∨ value = "*")) as [Hm|Hm].
    + assert (bool_decide (value = label) || bool_decide (value = "*") = true) as ->.
      { destruct Hm as [->| ->]; [by rewrite bool_decide_eq_true_2|].
        rewrite (bool_decide_eq_true_2 ("*" = "*")) by done. apply orb_true_r. }
      rewrite last_snoc. destruct (decide (key = dim)) as [->|Hne].
      * by rewrite lookup_insert_eq.
      * rewrite lookup_insert_ne by done. by rewrite IH.
    + assert (bool_decide (value = label) || bool_decide (value = "*") = false) as ->.
      { apply orb_false_iff. split; apply bool_decide_eq_false_2; tauto. }
      destruct (Contains label value).
      * rewrite last_snoc. destruct (decide (key = dim)) as [->|Hne].
        -- by rewrite lookup_insert_eq.
        -- rewrite lookup_insert_ne by done. by rewrite IH.
      * by rewrite app_nil_r.
Qed.

Section tags.
Context `{range : MapRange}.

Lemma dimensionTags_step (query : cloudWatchQuery) (label dim key : string)
    (tags : gmap string string) :
  (let values := dimensionValues query dim in
   if (length values =? 1)%nat && negb (String.eqb (hd "" values) "*")
   then <[dim := hd "" values]> tags
   else foldl (λ tags value,
                 if String.eqb value label || String.eqb value "*"
                 then <[dim := label]> tags
                 else if Contains label value then <[dim := value]> tags
                 else tags)
              tags values) !! key
  = if decide (key = dim)
    then match tagOf label (dimensionValues query dim) with
         | Some tag => Some tag
         | None => tags !! key
         end
    else tags !! key.
Proof.
  cbv zeta. destruct (dimensionValues query dim) as [|v [|v2 vs]] eqn:Hvs.
  - simpl. by case_decide.
  - cbn [length Nat.eqb hd andb]. rewrite String_eqb_decide.
    destruct (decide (v = "*")) as [->|Hv].
    + rewrite bool_decide_eq_true_2 by done. cbn [negb].
      rewrite matchLoop_lookup. cbn [tagOf].
      rewrite (decide_True (P := "*" = "*")) by done.
      cbn [omap list_omap]. unfold labelMatch.
      rewrite (decide_True (P := "*" = label ∨ "*" = "*")) by (by right). done.
    + rewrite bool_decide_eq_false_2 by done. cbn [negb tagOf].
      rewrite (decide_False (P := v = "*")) by done.
      destruct (decide (key = dim)) as [->|Hne].
      * by rewrite lookup_insert_eq.
      * by rewrite lookup_insert_ne.
  - cbn [length Nat.eqb andb]. by rewrite matchLoop_lookup.
Qed.

Lemma dimensionTags_fold (query : cloudWatchQuery) (label key : string)
    (keys : list string) (tags : gmap string string) :
  NoDup keys →
  foldl (λ tags dim,
           let values := dimensionValues query dim in
           if (length values =? 1)%nat && negb (String.eqb (hd "" values) "*")
           then <[dim := hd "" values]> tags
           else foldl (λ tags value,
                         if String.eqb value label || String.eqb value "*"
                         then <[dim := label]> tags
                         else if Contains label value then <[dim := value]> tags
                         else tags)
                      tags values)
        tags keys !! key
  = if decide (key ∈ keys)
    then match tagOf label (dimensionValues query key) with
         | Some tag => Some tag
         | None => tags !! key
         end
    else tags !! key.
Proof.
  intros Hnodup. revert tags. induction Hnodup as [|k keys Hk _ IH]; intros tags.
  - cbn [foldl]. destruct (decide _) as [Hin|]; [by apply elem_of_nil in Hin|done].
  - cbn [foldl]. rewrite IH. clear IH. rewrite dimensionTags_step.
    destruct (decide (key = k)) as [->|Hne].
    + rewrite (decide_False (P := k ∈ keys)) by done.
      rewrite decide_True by left. done.
    + destruct (decide (key ∈ keys)) as [Hin|Hout].
      * rewrite decide_True by (by right). done.
      * rewrite decide_False; [done|]. by intros [?|?]%elem_of_cons.
Qed.

Lemma dimensionTags_lookup (query : cloudWatchQuery) (label key : string) :
  dimensionTags query label !! key = tagOf label (dimensionValues query key).
Proof.
  unfold dimensionTags. rewrite dimensionTags_fold.
  - rewrite lookup_empty. destruct (decide _) as [Hin|Hout].
    + by destruct (tagOf _ _).
    + rewrite dimensionValues_outside; [done|].
      intros Hdom. apply Hout.
      by rewrite sortStrings_Permutation, rangeKeys_perm, elem_of_elements.
  - rewrite sortStrings_Permutation, rangeKeys_perm. apply NoDup_elements.
Qed.

End tags.

Lemma labelMatch_Some (label value tag : string) :
  labelMatch label value = Some tag → tag = label ∨ tag = value.
Proof.
  unfold labelMatch. case_decide; [intros [= <-]; by left|].
  destruct (Contains label value); [intros [= <-]; by right|done].
Qed.

Lemma tagOf_Some (label tag : string) (values : list string) :
  tagOf label values = Some tag → tag = label ∨ tag ∈ values.
Proof.
  assert (last (omap (labelMatch label) values) = Some tag → tag = label ∨ tag ∈ values)
    as Hlast.
  { intros [tags Htags]%last_Some.
    assert (tag ∈ omap (labelMatch label) values) as Hin.
    { rewrite Htags. apply elem_of_app. right. left. }
    apply list_elem_of_omap in Hin as (value & Hvalue & Hm).
    apply labelMatch_Some in Hm as [->| ->]; [by left|by right]. }
  destruct values as [|v [|v2 vs]]; [done| |exact Hlast].
  cbn [tagOf]. case_decide; intros [= <-]; [by left|right; left].
Qed.

Lemma dimensionValues_elem_of (query : cloudWatchQuery) (key value : string) :
  value ∈ dimensionValues query key →
  ∃ values, q_Dimensions query !! key = Some values ∧ value ∈ values.
Proof.
  unfold dimensionValues. destruct (q_Dimensions query !! key) as [values|]; simpl.
  - eauto.
  - by intros ?%elem_of_nil.
Qed.

Section frames_inv.
Context `{kinds : QueryKinds} `{range : MapRange}.

Lemma emptyFrames_loop_inv (query : cloudWatchQuery) (label dimension : string)
    (values : list string) (frames0 out : list Frame) :
  forEach (λ frames value,
             let tags := emptyFrameTags query dimension value in
             name ← formatAlias query (q_Stats query) tags label;
             Ok (frames ++ [ {| frm_Name := name; frm_Fields := []; frm_Tags := tags |} ]))
          frames0 values
  = Ok out →
  ∃ frames,
    out = frames0 ++ frames ∧
    Forall2 (λ frame value,
               frm_Fields frame = [] ∧
               frm_Tags frame = emptyFrameTags query dimension value)
            frames values.
Proof.
  revert frames0. induction values as [|value values IH]; intros frames0.
  - cbn [forEach]. intros [= <-]. exists []. split; [by rewrite app_nil_r|constructor].
  - cbn [forEach]. cbv zeta.
    destruct (formatAlias _ _ _ _) as [name| |]; cbn [mbind outcome_bind]; [|done..].
    intros (frames & -> & Hall)%IH.
    exists (emptyFrame name (emptyFrameTags query dimension value) :: frames).
    split; [by rewrite <- app_assoc|]. by constructor.
Qed.

Lemma seriesFrame_inv (query : cloudWatchQuery) (label : string) (r : MetricDataResult)
    (frames : list Frame) :
  seriesFrame query label r = Ok frames →
  ∃ timestamps points name,
    gapFill (q_Period query) (res_Timestamps r) (res_Values r) 0 (res_Timestamps r) [] []
    = Ok (timestamps, points) ∧
    formatAlias query (q_Stats query) (dimensionTags query label) label = Ok name ∧
    frames = [ {| frm_Name := name;
                  frm_Fields :=
                    [ {| fld_Name := "timestamp"; fld_Values := TimeColumn timestamps |};
                      {| fld_Name := "value"; fld_Values := NullableColumn points |} ];
                  frm_Tags := dimensionTags query label |} ].
Proof.
  unfold seriesFrame.
  destruct (gapFill _ _ _ _ _ _ _) as [[timestamps points]| |];
    cbn [mbind outcome_bind]; [|done..].
  destruct (formatAlias _ _ _ _) as [name| |]; cbn [mbind outcome_bind]; [|done..].
  intros [= <-]. by exists timestamps, points, name.
Qed.

End frames_inv.

(** ** Independence of the order of [range] *)

Lemma forEach_ext {A S : Type} (f g : S → A → outcome S) (s : S) (xs : list A) :
  (∀ s x, x ∈ xs → f s x = g s x) → forEach f s xs = forEach g s xs.
Proof.
  revert s. induction xs as [|x xs IH]; intros s Hfg; [done|].
  cbn [forEach]. rewrite Hfg by left.
  destruct (g s x); cbn [mbind outcome_bind]; [|done..].
  apply IH. intros s' y Hy. apply Hfg. by right.
Qed.

Lemma formatAlias_range `{kinds : QueryKinds} (range1 range2 : MapRange)
    (query : cloudWatchQuery) (stat : string) (dimensions : gmap string string)
    (label : string) :
  formatAlias (range := range1) query stat dimensions label
  = formatAlias (range := range2) query stat dimensions label.
Proof.
  unfold formatAlias.
  destruct (aliasPeriodStat query stat) as [[period stat']| |]; [|done..].
  cbn [mbind outcome_bind]. cbv zeta. by rewrite !aliasData_context.
Qed.

Lemma emptyFrames_range `{kinds : QueryKinds} (range1 range2 : MapRange)
    (query : cloudWatchQuery) (label : string) :
  noTie query →
  emptyFrames (range := range1) query label = emptyFrames (range := range2) query label.
Proof.
  intros Htie. unfold emptyFrames. cbv zeta.
  pose proof (multiValuedDimension_most (range := range1) query) as Hmost1.
  pose proof (multiValuedDimension_most (range := range2) query) as Hmost2.
  set (d1 := (multiValuedDimension (range := range1) query).2) in *.
  set (d2 := (multiValuedDimension (range := range2) query).2) in *.
  destruct (dimensionValues query d1) as [|v vs] eqn:Hd1.
  - assert (dimensionValues query d2 = []) as ->; [|done].
    specialize (Hmost1 d2).
    destruct (dimensionValues query d2); [done|simpl in Hmost1; lia].
  - assert (d1 = d2) as <-.
    { apply Htie; [intros k; rewrite Hd1; apply Hmost1|done|by rewrite Hd1]. }
    rewrite Hd1. apply forEach_ext. intros frames value _.
    assert (emptyFrameTags (range := range1) query d1 value
            = emptyFrameTags (range := range2) query d1 value) as ->.
    { apply map_eq. intros key. by rewrite !emptyFrameTags_lookup. }
    by rewrite (formatAlias_range range1 range2).
Qed.

Lemma dimensionTags_range (range1 range2 : MapRange) (query : cloudWatchQuery)
    (label : string) :
  dimensionTags (range := range1) query label = dimensionTags (range := range2) query label.
Proof. apply map_eq. intros key. by rewrite !dimensionTags_lookup. Qed.

Lemma labelFrames_range `{kinds : QueryKinds} (range1 range2 : MapRange)
    (query : cloudWatchQuery) (label : string) (r : MetricDataResult) :
  (isMultiValuedDimensionExpression query = true → noTie query) →
  labelFrames (range := range1) query label r = labelFrames (range := range2) query label r.
Proof.
  intros Htie. unfold labelFrames.
  destruct (isMultiValuedDimensionExpression query) eqn:Hmulti.
  - destruct (_ =? _)%nat; cbn [andb].
    + by apply emptyFrames_range, Htie.
    + unfold seriesFrame. cbv zeta.
      by rewrite (dimensionTags_range range1 range2), (formatAlias_range range1 range2).
  - rewrite andb_false_r. unfold seriesFrame. cbv zeta.
    by rewrite (dimensionTags_range range1 range2), (formatAlias_range range1 range2).
Qed.

Lemma parseGetMetricDataTimeSeries_range `{kinds : QueryKinds} (range1 range2 : MapRange)
    (metricDataResults : gmap string MetricDataResult) (query : cloudWatchQuery) :
  (isMultiValuedDimensionExpression query = true → noTie query) →
  parseGetMetricDataTimeSeries (range := range1) metricDataResults query
  = parseGetMetricDataTimeSeries (range := range2) metricDataResults query.
Proof.
  intros Htie. unfold parseGetMetricDataTimeSeries.
  rewrite (metricDataResultLabels_dom range1 range2 metricDataResults metricDataResults)
    by done.
  apply forEach_ext. intros [frames partialData] label _.
  destruct (metricDataResults !! label) as [r|]; cbn [deref mbind outcome_bind]; [|done].
  destruct (checkMessages query (res_Messages r)); cbn [mbind outcome_bind]; [|done..].
  by rewrite (labelFrames_range range1 range2 query label r Htie).
Qed.

(** ** What the gap-filling loop returns *)

Lemma samples_app (ts ts' : list Z) (ps ps' : list (option float64)) :
  length ts = length ps →
  samples (ts ++ ts') (ps ++ ps') = samples ts ps ++ samples ts' ps'.
Proof.
  intros Hlen. unfold samples. rewrite zip_with_app by done. apply filter_app.
Qed.

Lemma gapFill_inv (period : Z) (Ts : list Time) (Vs : list (option float64))
    (rest : list Time) (j : nat) (timestamps timestamps' : list Z)
    (points points' : list (option float64)) :
  gapFill period Ts Vs j rest timestamps points = Ok (timestamps', points') →
  ∃ ts ps,
    timestamps' = timestamps ++ ts ∧ points' = points ++ ps ∧
    length ts = length ps ∧
    (length rest ≤ length ps ≤ 2 * length rest)%nat ∧
    (j = 0%nat → (length ps ≤ 2 * length rest - 1)%nat) ∧
    samples ts ps = zip (unixMilli <$> rest) (drop j Vs).
Proof.
  revert j timestamps points.
  induction rest as [|t rest IH]; intros j timestamps points.
  - cbn [gapFill]. intros [= <- <-]. exists [], [].
    rewrite !app_nil_r. repeat split; simpl; lia.
  - cbn [gapFill].
    match goal with |- mbind _ ?g = _ → _ => set (gap := g) end.
    assert ((∃ gt gp,
               gap = Ok (timestamps ++ gt, points ++ gp) ∧
               length gt = length gp ∧ (length gp ≤ 1)%nat ∧ samples gt gp = [] ∧
               (j = 0%nat → gp = [])) ∨
            ∃ p, gap = Panic p) as Hgap.
    { unfold gap. destruct j as [|i].
      - left. exists [], []. rewrite !app_nil_r. repeat split; simpl; lia.
      - cbn [Nat.ltb Nat.leb]. unfold index.
        destruct (Ts !! (S i - 1)%nat) as [prev|]; cbn [mbind outcome_bind]; [|eauto].
        left. destruct (time_Before _ t).
        + eexists [_], [None]. repeat split; simpl; (done || lia).
        + exists [], []. rewrite !app_nil_r. repeat split; simpl; (done || lia). }
    destruct Hgap as [(gt & gp & -> & Hglen & Hgle & Hgs & Hg0)|[p ->]]; [|done].
    cbn [mbind outcome_bind]. unfold index.
    destruct (Vs !! j) as [[v|]|] eqn:Hv; cbn [deref mbind outcome_bind]; [|done..].
    intros (ts & ps & -> & -> & Hlen & Hle & _ & Hs)%IH.
    exists (gt ++ unixMilli t :: ts), (gp ++ Some v :: ps).
    split; [by rewrite <- !app_assoc|]. split; [by rewrite <- !app_assoc|].
    rewrite !length_app. cbn [length].
    split; [lia|]. split; [lia|]. split.
    + intros Hj. rewrite (Hg0 Hj). simpl. lia.
    + rewrite samples_app, Hgs by done. cbn [app].
      rewrite (drop_S _ _ _ Hv). cbn [fmap list_fmap zip zip_with].
      unfold samples in *. cbn [zip zip_with].
      rewrite filter_cons_True by (simpl; eauto). by rewrite Hs.
Qed.

Lemma gapFill_short (period : Z) (Ts : list Time) (Vs : list (option float64))
    (rest : list Time) (j : nat) (timestamps : list Z) (points : list (option float64)) :
  drop j Ts = rest →
  (j ≤ length Vs < length Ts)%nat →
  Forall is_Some Vs →
  gapFill period Ts Vs j rest timestamps points = Panic IndexOutOfRange.
Proof.
  intros Hdrop Hj Hpresent. revert j timestamps points Hdrop Hj.
  induction rest as [|t rest IH]; intros j timestamps points Hdrop Hj.
  - apply (f_equal length) in Hdrop. rewrite length_drop in Hdrop. simpl in Hdrop. lia.
  - apply drop_cons_inv in Hdrop as [Ht Hdrop]. cbn [gapFill].
    destruct j as [|i].
    + cbn [Nat.ltb Nat.leb mbind outcome_bind]. unfold index.
      destruct (Vs !! 0%nat) as [o|] eqn:Hv; [|done].
      rewrite Forall_lookup in Hpresent. destruct (Hpresent _ _ Hv) as [v ->].
      cbn [deref mbind outcome_bind]. apply IH; [done|].
      apply lookup_lt_Some in Hv. lia.
    + replace (S i - 1)%nat with i by lia.
      assert (is_Some (Ts !! i)) as [prev Hprev].
      { apply lookup_lt_is_Some. apply lookup_lt_Some in Ht. lia. }
      unfold index. rewrite Hprev. cbn [Nat.ltb Nat.leb mbind outcome_bind].
      destruct (Vs !! S i) as [o|] eqn:Hv.
      * rewrite Forall_lookup in Hpresent. destruct (Hpresent _ _ Hv) as [v ->].
        apply lookup_lt_Some in Hv.
        destruct (time_Before _ t); cbn [deref mbind outcome_bind]; apply IH; (done || lia).
      * by destruct (time_Before _ t).
Qed.

(** ** The arguments of a search expression *)

Lemma len_append (s t : string) : len (s +:+ t) = len s + len t.
Proof.
  unfold len. induction s as [|c s IH]; [done|].
  rewrite append_cons. cbn [String.length]. lia.
Qed.

Lemma LastIndex_from_absent (i : Z) (c : ascii) (s : string) :
  hasByte c s = false → LastIndex_from i s (String c "") = -1.
Proof.
  revert i. induction s as [|d s IH]; intros i; [done|].
  cbn [hasByte LastIndex_from]. intros [Hd Hs]%orb_false_iff.
  rewrite IH by done. cbn [Z.leb Z.compare HasPrefix].
  by rewrite Ascii.eqb_sym, Hd.
Qed.

Lemma LastIndex_from_last (i : Z) (c : ascii) (s t : string) :
  0 ≤ i → hasByte c t = false →
  LastIndex_from i (s +:+ String c t) (String c "") = i + len s.
Proof.
  intros Hi Ht. revert i Hi. induction s as [|d s IH]; intros i Hi.
  - change ("" +:+ String c t) with (String c t). cbn [LastIndex_from].
    rewrite LastIndex_from_absent by done. cbn [Z.leb Z.compare HasPrefix].
    rewrite Ascii.eqb_refl. unfold len. simpl. lia.
  - rewrite append_cons. cbn [LastIndex_from]. rewrite IH by lia.
    assert ((0 <=? i + 1 + len s) = true) as ->.
    { apply Z.leb_le. unfold len. lia. }
    unfold len. cbn [String.length]. lia.
Qed.

Lemma substring_prefix (s t : string) :
  substring 0 (String.length s) (s +:+ t) = s.
Proof.
  induction s as [|c s IH]; [by destruct t|].
  rewrite append_cons. cbn [String.length substring]. by rewrite IH.
Qed.

Lemma substring_middle (a b c : string) :
  substring (String.length a) (String.length b) (a +:+ b +:+ c) = b.
Proof.
  induction a as [|d a IH].
  { change ("" +:+ b +:+ c) with (b +:+ c). apply substring_prefix. }
  rewrite append_cons. cbn [String.length substring]. exact IH.
Qed.

Lemma slice_middle (a b c : string) :
  slice (a +:+ b +:+ c) (len a) (len a + len b) = Ok b.
Proof.
  rewrite slice_Ok.
  - unfold len. rewrite Nat2Z.id.
    replace (Z.to_nat (Z.of_nat (String.length a) + Z.of_nat (String.length b)
                       - Z.of_nat (String.length a))) with (String.length b) by lia.
    by rewrite substring_middle.
  - unfold len. lia.
  - unfold len. lia.
  - rewrite !len_append. unfold len. lia.
Qed.

Section search.
Context `{kinds : QueryKinds}.

Lemma aliasPeriodStat_arguments (query : cloudWatchQuery) (stat front mid tail : string) :
  isUserDefinedSearchExpression query = true →
  q_Expression query = front +:+ mid +:+ "," +:+ tail →
  front = "" ∨ (∃ head, front = head +:+ ",") →
  hasByte "," mid = false →
  hasByte "," tail = false →
  aliasPeriodStat query stat = Ok (Trim tail " )", Trim mid " '").
Proof.
  intros Huser Hexpr Hfront Hmid Htail. unfold aliasPeriodStat. rewrite Huser, Hexpr.
  assert (LastIndex (front +:+ mid +:+ "," +:+ tail) "," = len front + len mid) as ->.
  { unfold LastIndex. rewrite <- append_assoc.
    change ("," +:+ tail) with (String "," tail).
    rewrite (LastIndex_from_last 0 "," (front +:+ mid) tail) by done.
    rewrite len_append. lia. }
  assert (slice (front +:+ mid +:+ "," +:+ tail) (len front + len mid + 1)
            (len (front +:+ mid +:+ "," +:+ tail)) = Ok tail) as ->.
  { pose proof (slice_middle (front +:+ mid +:+ ",") tail "") as Hs.
    rewrite append_empty_r, !append_assoc, !len_append in Hs.
    rewrite !len_append. change (len ",") with 1 in *.
    by rewrite <- Hs, !Z.add_assoc. }
  cbn [mbind outcome_bind].
  assert (slice (front +:+ mid +:+ "," +:+ tail) 0 (len front + len mid)
          = Ok (front +:+ mid)) as ->.
  { pose proof (slice_middle "" (front +:+ mid) ("," +:+ tail)) as Hs.
    rewrite len_append, append_assoc in Hs. exact Hs. }
  cbn [mbind outcome_bind].
  assert (LastIndex (front +:+ mid) "," + 1 = len front) as ->.
  { destruct Hfront as [->|[head ->]].
    - unfold LastIndex. change ("" +:+ mid) with mid.
      by rewrite LastIndex_from_absent.
    - unfold LastIndex. rewrite append_assoc.
      change ("," +:+ mid) with (String "," mid).
      rewrite (LastIndex_from_last 0 "," head mid) by done.
      rewrite len_append. change (len ",") with 1. lia. }
  rewrite (slice_middle front mid ("," +:+ tail)). done.
Qed.

End search.

(** ** An expression without a comma *)

Lemma formatAlias_unreadable `{kinds : QueryKinds} `{range : MapRange}
    (query : cloudWatchQuery) (stat : string) (dimensions : gmap string string)
    (label : string) :
  ¬ aliasReadable query →
  formatAlias query stat dimensions label = Panic SliceBoundsOutOfRange.
Proof.
  unfold aliasReadable. intros Hnot.
  destruct (isUserDefinedSearchExpression query) eqn:Huser; [|by destruct Hnot].
  assert (LastIndex (q_Expression query) "," = -1) as Hcomma.
  { destruct (LastIndex_bounds (q_Expression query) ",") as [?|[? _]]; [done|].
    by destruct Hnot. }
  unfold formatAlias, aliasPeriodStat. rewrite Huser, Hcomma.
  rewrite (slice_Ok _ (-1 + 1) (len (q_Expression query))) by (unfold len; lia).
  by cbn [mbind outcome_bind].
Qed.

Lemma series_branch `{kinds : QueryKinds} (query : cloudWatchQuery) (r : MetricDataResult) :
  res_Values r ≠ [] ∨ isMultiValuedDimensionExpression query = false →
  (length (res_Values r) =? 0)%nat && isMultiValuedDimensionExpression query = false.
Proof.
  intros [Hvalues| ->]; [|apply andb_false_r].
  destruct (res_Values r); [done|reflexivity].
Qed.

(** ** Formatting sound results *)

Lemma parseGetMetricDataTimeSeries_total `{kinds : QueryKinds} `{range : MapRange}
    (metricDataResults : gmap string MetricDataResult) (query : cloudWatchQuery) :
  aliasReadable query →
  (∀ label r, metricDataResults !! label = Some r →
              formattable query r ∧ noArithmeticError r) →
  ∃ frames partialData,
    parseGetMetricDataTimeSeries metricDataResults query = Ok (frames, partialData) ∧
    (partialData = true ↔
     ∃ label r, metricDataResults !! label = Some r ∧ ¬ isComplete r).
Proof.
  intros Hread Hsound. rewrite parseGetMetricDataTimeSeries_eq.
  destruct (appendLoop_total (labelOutcome query metricDataResults)
              (metricDataResultLabels metricDataResults) []) as [frames ->].
  { apply Forall_forall. intros label [r Hr]%metricDataResultLabels_elem_of.
    destruct (Hsound label r Hr) as [Hform Hclean].
    by apply (labelOutcome_total query metricDataResults label r). }
  cbn [mbind outcome_bind]. eexists _, _. split; [done|]. apply existsb_incomplete.
Qed.

(** ** The order of the time column *)

Lemma unixMilli_small (t : Time) : inInt64 t → unixMilli t = t / 1000000000 * 1000.
Proof.
  unfold inInt64. intros Ht. unfold unixMilli, time_Unix. apply wrap64_small.
  assert (- 2 ^ 63 / 1000000000 ≤ t / 1000000000) by (apply Z.div_le_mono; lia).
  assert (t / 1000000000 ≤ 2 ^ 63 / 1000000000) by (apply Z.div_le_mono; lia).
  change (- 2 ^ 63 / 1000000000) with (-9223372037) in *.
  change (2 ^ 63 / 1000000000) with 9223372036 in *. lia.
Qed.

Lemma unixMilli_mono (t u : Time) :
  inInt64 t → inInt64 u → t ≤ u → unixMilli t ≤ unixMilli u.
Proof.
  intros Ht Hu Hle. rewrite !unixMilli_small by done.
  assert (t / 1000000000 ≤ u / 1000000000) by (apply Z.div_le_mono; lia). lia.
Qed.

Lemma StronglySorted_snoc (l : list Z) (x : Z) :
  StronglySorted Z.le l → Forall (λ y, y ≤ x) l → StronglySorted Z.le (l ++ [x]).
Proof.
  intros Hl Hall. apply StronglySorted_app_2; [|done|repeat constructor].
  intros y z Hy ->%list_elem_of_singleton. rewrite Forall_forall in Hall. by apply Hall.
Qed.

Lemma StronglySorted_adjacent (l : list Z) (i : nat) (x y : Z) :
  StronglySorted Z.le l → l !! i = Some x → l !! S i = Some y → x ≤ y.
Proof.
  intros Hl Hx Hy. rewrite <- (take_drop i l), (drop_S _ _ _ Hx), (drop_S _ _ _ Hy) in Hl.
  apply StronglySorted_app_1_r, StronglySorted_inv in Hl as [_ Hall].
  by apply Forall_cons in Hall as [? _].
Qed.

Lemma gapFill_sorted (period : Z) (Ts : list Time) (Vs : list (option float64))
    (rest : list Time) (j : nat) (timestamps timestamps' : list Z)
    (points points' : list (option float64)) :
  0 ≤ periodDuration period →
  Forall inInt64 Ts →
  StronglySorted Z.le Ts →
  drop j Ts = rest →
  StronglySorted Z.le timestamps →
  match j with
  | O => timestamps = []
  | S i => ∃ prev, Ts !! i = Some prev ∧ Forall (λ x, x ≤ unixMilli prev) timestamps
  end →
  gapFill period Ts Vs j rest timestamps points = Ok (timestamps', points') →
  StronglySorted Z.le timestamps'.
Proof.
  intros Hperiod Hfit Hsorted. revert j timestamps points.
  induction rest as [|t rest IH]; intros j timestamps points Hdrop Hts Hinv.
  - cbn [gapFill]. by intros [= <- <-].
  - apply drop_cons_inv in Hdrop as [Ht Hdrop]. cbn [gapFill].
    pose proof (Forall_lookup_1 _ _ _ _ Hfit Ht) as Htfit.
    destruct j as [|i].
    + subst timestamps. cbn [Nat.ltb Nat.leb mbind outcome_bind]. unfold index.
      destruct (Vs !! 0%nat) as [[v|]|]; cbn [deref mbind outcome_bind]; [|done..].
      apply IH; [done|repeat constructor|].
      exists t. split; [done|]. repeat constructor. simpl. lia.
    + destruct Hinv as (prev & Hprev & Hall).
      replace (S i - 1)%nat with i by lia. unfold index. rewrite Hprev.
      cbn [Nat.ltb Nat.leb mbind outcome_bind].
      pose proof (Forall_lookup_1 _ _ _ _ Hfit Hprev) as Hpfit.
      pose proof (StronglySorted_adjacent Ts i prev t Hsorted Hprev Ht) as Hle.
      pose proof (unixMilli_mono prev t Hpfit Htfit Hle) as Hms.
      unfold time_Before, time_Add. destruct (prev + periodDuration period <? t) eqn:Hgap.
      * apply Z.ltb_lt in Hgap. cbn [mbind outcome_bind].
        destruct (Vs !! S i) as [[v|]|]; cbn [deref mbind outcome_bind]; [|done..].
        assert (inInt64 (prev + periodDuration period)) as Hefit.
        { unfold inInt64 in *. lia. }
        pose proof (unixMilli_mono prev (prev + periodDuration period) Hpfit Hefit) as H1.
        pose proof (unixMilli_mono (prev + periodDuration period) t Hefit Htfit) as H2.
        apply IH; [done| |].
        -- apply StronglySorted_snoc.
           ++ apply StronglySorted_snoc; [done|].
              eapply Forall_impl; [exact Hall|]. simpl. intros x Hx. lia.
           ++ apply Forall_app. split.
              ** eapply Forall_impl; [exact Hall|]. simpl. intros x Hx. lia.
              ** repeat constructor. lia.
        -- exists t. split; [done|]. rewrite !Forall_app. split; [split|].
           ++ eapply Forall_impl; [exact Hall|]. simpl. intros x Hx. lia.
           ++ repeat constructor. lia.
           ++ repeat constructor. lia.
      * cbn [mbind outcome_bind].
        destruct (Vs !! S i) as [[v|]|]; cbn [deref mbind outcome_bind]; [|done..].
        apply IH; [done| |].
        -- apply StronglySorted_snoc; [done|].
           eapply Forall_impl; [exact Hall|]. simpl. intros x Hx. lia.
        -- exists t. split; [done|]. rewrite Forall_app. split.
           ++ eapply Forall_impl; [exact Hall|]. simpl. intros x Hx. lia.
           ++ repeat constructor. lia.
Qed.

(** ** The records under another order of [range] *)

Lemma collectLoop_omap {A B : Type} (step : A → outcome B) (xs : list A) (ys : list B) :
  Forall2 (λ x y, step x = Ok y) xs ys → ys = omap (stepValue step) xs.
Proof.
  induction 1 as [|x y xs ys Hx _ IH]; [done|].
  cbn [omap list_omap]. unfold stepValue at 1. rewrite Hx. by f_equal.
Qed.

Lemma collectLoop_Permutation {A B : Type} (step : A → outcome B) (xs xs' : list A)
    (ys : list B) :
  xs ≡ₚ xs' →
  forEach (λ acc x, y ← step x; Ok (acc ++ [y])) [] xs = Ok ys →
  ∃ ys', forEach (λ acc x, y ← step x; Ok (acc ++ [y])) [] xs' = Ok ys' ∧ ys ≡ₚ ys'.
Proof.
  intros Hperm (ys0 & Hys & ->)%collectLoop_Ok.
  assert (Forall (λ x, ∃ y, step x = Ok y) xs') as Hall.
  { rewrite <- Hperm. apply Forall_exists_Forall2_l. eauto. }
  destruct (collectLoop_total step xs' [] Hall) as [ys' Hloop].
  exists ys'. split; [done|].
  apply collectLoop_Ok in Hloop as (ys1 & Hys' & Heq). simpl in Heq. subst ys1.
  simpl. rewrite (collectLoop_omap step xs ys0 Hys), (collectLoop_omap step xs' ys' Hys').
  by rewrite Hperm.
Qed.

Lemma noTie_set_RequestExceededMaxLimit (query : cloudWatchQuery) (exceeded : bool) :
  noTie query → noTie (set_RequestExceededMaxLimit query exceeded).
Proof. done. Qed.

Lemma queryResponse_range `{kinds : QueryKinds} (range1 range2 : MapRange)
    (mdr : gmap string (gmap string MetricDataResult))
    (queries : gmap string cloudWatchQuery) (id : string) :
  (∀ query, queries !! id = Some query →
            isMultiValuedDimensionExpression query = true → noTie query) →
  queryResponse (range := range1) mdr queries id
  = queryResponse (range := range2) mdr queries id.
Proof.
  intros Htie. unfold queryResponse.
  destruct (mdr !! id) as [lr|]; cbn [deref mbind outcome_bind]; [|done].
  destruct (queries !! id) as [query|]; cbn [deref mbind outcome_bind]; [|done].
  by rewrite (parseGetMetricDataTimeSeries_range range1 range2 lr query) by eauto.
Qed.

Lemma parseResponse_range `{kinds : QueryKinds} (range1 range2 : MapRange)
    (outputs : list GetMetricDataOutput) (queries : gmap string cloudWatchQuery)
    (responses : list cloudwatchResponse) :
  (∀ id query exceeded,
     queries !! id = Some query →
     isMultiValuedDimensionExpression (set_RequestExceededMaxLimit query exceeded) = true →
     noTie query) →
  parseResponse (range := range1) outputs queries = Ok responses →
  ∃ responses',
    parseResponse (range := range2) outputs queries = Ok responses' ∧
    responses ≡ₚ responses'.
Proof.
  intros Htie. unfold parseResponse.
  destruct (mergeOutputs outputs queries) as [[mdr queries']| |] eqn:Hmerge; [|done..].
  cbn [mbind outcome_bind]. intros Hloop.
  apply mergeOutputs_Ok_inv in Hmerge as (_ & _ & ->).
  rewrite (forEach_ext
             (λ cloudWatchResponses id,
                response ← queryResponse (range := range2) mdr
                             (flaggedQueries queries outputs) id;
                Ok (cloudWatchResponses ++ [response]))
             (λ cloudWatchResponses id,
                response ← queryResponse (range := range1) mdr
                             (flaggedQueries queries outputs) id;
                Ok (cloudWatchResponses ++ [response]))).
  - apply (collectLoop_Permutation _ (rangeKeys (MapRange := range1) (dom mdr))
             (rangeKeys (MapRange := range2) (dom mdr))); [|exact Hloop].
    by rewrite !rangeKeys_perm.
  - intros acc id _. rewrite (queryResponse_range range2 range1); [done|].
    intros query' Hq'. rewrite flaggedQueries_lookup in Hq'.
    destruct (queries !! id) as [query|] eqn:Hq; [|done].
    injection Hq' as <-. intros Hmulti.
    destruct (lastExceeded id outputs) as [exceeded|]; simpl in *.
    + apply noTie_set_RequestExceededMaxLimit. by eapply Htie.
    + rewrite <- (set_RequestExceededMaxLimit_same query) in Hmulti. by eapply Htie.
Qed.

(** ** The first failure of a loop, of a query, of a request *)

Lemma forEach_first_failure {A B S : Type} (step : A → outcome B) (g : S → B → S)
    (xs : list A) (s : S) (x : A) :
  x ∈ xs → failureOf (step x) ≠ None →
  ∃ before x' after f,
    xs = before ++ x' :: after ∧ (x ∉ before) ∧
    Forall (λ i, ∃ y, step i = Ok y) before ∧
    failureOf (step x') = Some f ∧
    failureOf (forEach (λ s x, y ← step x; Ok (g s y)) s xs) = Some f.
Proof.
  intros Hin Hfail. revert s. induction xs as [|a xs IH]; intros s.
  { by apply elem_of_nil in Hin. }
  cbn [forEach]. destruct (step a) as [y|e|p] eqn:Ha; cbn [mbind outcome_bind].
  - assert (x ∈ xs) as Hin'.
    { apply elem_of_cons in Hin as [->|?]; [|done]. by rewrite Ha in Hfail. }
    destruct (IH Hin' (g s y)) as (before & x' & after & f & -> & Hx & Hall & Hx' & Hloop).
    exists (a :: before), x', after, f. split; [done|]. split; [|split; [|done]].
    + intros [->|?]%elem_of_cons; [|done]. by rewrite Ha in Hfail.
    + constructor; [eauto|done].
  - exists [], a, xs, (Failed e). rewrite Ha. split; [done|]. split; [|by split].
    by intros ?%elem_of_nil.
  - exists [], a, xs, (Faulted p). rewrite Ha. split; [done|]. split; [|by split].
    by intros ?%elem_of_nil.
Qed.

Lemma checkMessages_firstArithmeticError (query : cloudWatchQuery)
    (messages : list MessageData) :
  checkMessages query messages
  = match firstArithmeticError messages with
    | Some message => Err (ArithmeticErrorInQuery (q_RefId query) (msg_Value message))
    | None => Ok tt
    end.
Proof.
  unfold checkMessages, firstArithmeticError.
  induction messages as [|message messages IH]; [done|].
  cbn [forEach]. rewrite String_eqb_decide, filter_cons.
  case_bool_decide as Hcode.
  - by rewrite decide_True.
  - rewrite decide_False by done. cbn [mbind outcome_bind]. exact IH.
Qed.

Lemma firstArithmeticError_None (messages : list MessageData) :
  firstArithmeticError messages = None ↔ ¬ hasMessage "ArithmeticError" messages.
Proof.
  unfold firstArithmeticError, hasMessage. rewrite head_None. split.
  - intros Hnil (message & Hin & Hcode).
    assert (message ∈ filter (λ m, msg_Code m = "ArithmeticError") messages) as Hf
      by (by apply list_elem_of_filter).
    rewrite Hnil in Hf. by apply elem_of_nil in Hf.
  - intros Hno. destruct (filter _ messages) as [|message l] eqn:Hf; [done|].
    destruct Hno. exists message.
    assert (message ∈ filter (λ m, msg_Code m = "ArithmeticError") messages) as Hin
      by (rewrite Hf; left).
    by apply list_elem_of_filter in Hin as [? ?].
Qed.

Lemma sorted_around (labels before after : list string) (x : string) :
  Sorted String.le labels → NoDup labels → labels = before ++ x :: after →
  Forall (λ l, labelBefore l x) before ∧ Forall (λ l, labelBefore x l) after ∧
  ∀ l, l ∈ labels → labelBefore l x → l ∈ before.
Proof.
  intros Hsorted Hnodup ->.
  apply (Sorted_StronglySorted _) in Hsorted.
  apply StronglySorted_app in Hsorted as (Hle & _ & Hx).
  apply StronglySorted_inv in Hx as [_ Hafter].
  apply NoDup_app in Hnodup as (_ & Hdisjoint & Hnd).
  apply NoDup_cons in Hnd as [Hx' _].
  assert (Forall (λ l, labelBefore x l) after) as Hafter'.
  { apply Forall_forall. intros l Hl. rewrite Forall_forall in Hafter. split.
    - by apply Hafter.
    - by intros ->. }
  split; [|split; [done|]].
  - apply Forall_forall. intros l Hl. split.
    + apply Hle; [done|left].
    + intros ->. apply (Hdisjoint x Hl). left.
  - intros l [Hl|[->|Hl]%elem_of_cons]%elem_of_app [Hle' Hne]; [done|done|].
    rewrite Forall_forall in Hafter'. destruct (Hafter' l Hl) as [Hle'' _].
    destruct Hne. by apply (anti_symm String.le).
Qed.

Lemma first_satisfying {A : Type} (P : A → Prop) `{!∀ x, Decision (P x)} (l : list A)
    (x : A) :
  x ∈ l → P x →
  ∃ pre y post, l = pre ++ y :: post ∧ P y ∧ Forall (λ z, ¬ P z) pre.
Proof.
  intros Hin HP. induction l as [|a l IH]; [by apply elem_of_nil in Hin|].
  destruct (decide (P a)) as [Ha|Ha].
  - exists [], a, l. split; [done|]. split; [done|constructor].
  - assert (x ∈ l) as Hin'.
    { apply elem_of_cons in Hin as [->|?]; done. }
    destruct (IH Hin') as (pre & y & post & -> & Hy & Hpre).
    exists (a :: pre), y, post. split; [done|]. split; [done|by constructor].
Qed.

Section arithmetic_error.
Context `{kinds : QueryKinds} `{range : MapRange}.

Lemma labelOutcome_hasMessage (query : cloudWatchQuery)
    (byLabel : gmap string MetricDataResult) (label : string) (merged : MetricDataResult) :
  byLabel !! label = Some merged →
  labelOutcome query byLabel label
  = match firstArithmeticError (res_Messages merged) with
    | Some message => Err (ArithmeticErrorInQuery (q_RefId query) (msg_Value message))
    | None => labelFrames query label merged
    end.
Proof.
  intros Hlabel. unfold labelOutcome. rewrite Hlabel. cbn [deref mbind outcome_bind].
  rewrite checkMessages_firstArithmeticError.
  by destruct (firstArithmeticError (res_Messages merged)).
Qed.

Lemma formatting_arithmetic_error (query : cloudWatchQuery)
    (byLabel : gmap string MetricDataResult) (label : string) (merged : MetricDataResult) :
  byLabel !! label = Some merged →
  hasMessage "ArithmeticError" (res_Messages merged) →
  ∃ least mergedLeast message,
    byLabel !! least = Some mergedLeast ∧
    firstArithmeticError (res_Messages mergedLeast) = Some message ∧
    (∀ l r, byLabel !! l = Some r → labelBefore l least → noArithmeticError r) ∧
    (parseGetMetricDataTimeSeries byLabel query
     = Err (ArithmeticErrorInQuery (q_RefId query) (msg_Value message))
     ∨ ∃ label' merged' p,
         byLabel !! label' = Some merged' ∧ labelBefore label' least ∧
         labelFrames query label' merged' = Panic p ∧
         (∀ l r, byLabel !! l = Some r → labelBefore l label' →
                 ∃ frames, labelFrames query l r = Ok frames) ∧
         parseGetMetricDataTimeSeries byLabel query = Panic p).
Proof.
  intros Hlabel Hmsg.
  pose proof (sortStrings_Sorted (rangeKeys (dom byLabel))) as Hsorted.
  fold (metricDataResultLabels byLabel) in Hsorted.
  pose proof (metricDataResultLabels_NoDup byLabel) as Hnodup.
  assert (label ∈ metricDataResultLabels byLabel) as Hin
    by (apply metricDataResultLabels_elem_of; eauto).
  assert (failureOf (labelOutcome query byLabel label) ≠ None) as Hfails.
  { rewrite (labelOutcome_hasMessage _ _ _ merged Hlabel).
    destruct (firstArithmeticError (res_Messages merged)) eqn:Hfirst; [done|].
    by apply firstArithmeticError_None in Hfirst. }
  destruct (forEach_first_failure (labelOutcome query byLabel)
              (λ frames more, frames ++ more) _ [] label Hin Hfails)
    as (before & x' & after & f & Heq & Hnotin & Hbefore & Hx' & Hloop).
  destruct (sorted_around _ before after x' Hsorted Hnodup Heq)
    as (Hlt & Hgt & Hall).
  assert (∀ l r, byLabel !! l = Some r → labelBefore l x' →
          noArithmeticError r ∧ ∃ frames, labelFrames query l r = Ok frames) as Hearlier.
  { intros l r Hl Hl'.
    assert (l ∈ before) as Hlb.
    { apply Hall; [|done]. apply metricDataResultLabels_elem_of. eauto. }
    rewrite Forall_forall in Hbefore. destruct (Hbefore l Hlb) as [frames Hok].
    apply labelOutcome_Ok in Hok as (r' & Hr' & Hno & Hframes).
    rewrite Hl in Hr'. injection Hr' as <-.
    split; [by apply noArithmeticError_hasMessage|eauto]. }
  assert (is_Some (byLabel !! x')) as [r' Hr'].
  { apply metricDataResultLabels_elem_of. rewrite Heq. apply elem_of_app. right. left. }
  assert (failureOf (parseGetMetricDataTimeSeries byLabel query) = Some f) as Hparse.
  { rewrite parseGetMetricDataTimeSeries_eq.
    destruct (forEach _ [] (metricDataResultLabels byLabel)); [done|exact Hloop..]. }
  rewrite (labelOutcome_hasMessage _ _ _ r' Hr') in Hx'.
  destruct (firstArithmeticError (res_Messages r')) as [message|] eqn:Hfirst.
  - exists x', r', message. split; [done|]. split; [done|]. split.
    { intros l r Hl Hl'. by destruct (Hearlier l r Hl Hl'). }
    left. injection Hx' as <-. revert Hparse.
    destruct (parseGetMetricDataTimeSeries byLabel query); intros; by simplify_eq/=.
  - assert (label ∈ after) as Hafter.
    { rewrite Heq in Hin.
      apply elem_of_app in Hin as [?|[->|?]%elem_of_cons]; [done| |done].
      rewrite Hlabel in Hr'. injection Hr' as <-.
      by apply firstArithmeticError_None in Hfirst. }
    destruct (first_satisfying
                (λ l, is_Some (byLabel !! l ≫=
                               (λ r, firstArithmeticError (res_Messages r))))
                after label Hafter)
      as (pre & least & post & Hsplit & [message Hsome] & Hpre).
    { rewrite Hlabel. cbn [mbind option_bind].
      destruct (firstArithmeticError (res_Messages merged)) eqn:Hm; [eauto|].
      by apply firstArithmeticError_None in Hm. }
    destruct (byLabel !! least) as [mergedLeast|] eqn:Hleast; [|done].
    cbn [mbind option_bind] in Hsome. rename Hsome into Hmessage.
    assert (labelBefore x' least) as Hx'least.
    { rewrite Forall_forall in Hgt. apply Hgt. rewrite Hsplit.
      apply elem_of_app. right. left. }
    exists least, mergedLeast, message. split; [done|]. split; [done|]. split.
    + intros l r Hl Hl'.
      assert (l ∈ metricDataResultLabels byLabel) as Hlin
        by (apply metricDataResultLabels_elem_of; eauto).
      rewrite Heq in Hlin.
      apply elem_of_app in Hlin as [Hlb|[->|Hla]%elem_of_cons].
      * rewrite Forall_forall in Hlt. by destruct (Hearlier l r Hl (Hlt l Hlb)).
      * rewrite Hl in Hr'. injection Hr' as <-.
        by apply noArithmeticError_hasMessage, firstArithmeticError_None.
      * assert (Sorted String.le after ∧ NoDup after) as [Hsa Hna].
        { rewrite Heq in Hsorted, Hnodup. split.
          - apply (Sorted_StronglySorted _) in Hsorted.
            apply StronglySorted_app_1_r, StronglySorted_inv in Hsorted as [Hs _].
            by apply StronglySorted_Sorted.
          - apply NoDup_app in Hnodup as (_ & _ & Hnd). by apply NoDup_cons in Hnd as [_ ?]. }
        destruct (sorted_around _ pre post least Hsa Hna Hsplit) as (_ & _ & Hmin).
        specialize (Hmin l Hla Hl').
        rewrite Forall_forall in Hpre. specialize (Hpre l Hmin).
        apply noArithmeticError_hasMessage, firstArithmeticError_None.
        destruct (firstArithmeticError (res_Messages r)) eqn:Hr; [|done].
        destruct Hpre. rewrite Hl. cbn [mbind option_bind]. by rewrite Hr.
    + right. destruct (labelFrames query x' r') as [frames|e|p] eqn:Hframes;
        [done|by destruct (labelFrames_no_Err query x' r' e)|].
      injection Hx' as <-.
      exists x', r', p. split; [done|]. split; [done|]. split; [done|].
      split; [intros l r Hl Hl'; by destruct (Hearlier l r Hl Hl')|].
      revert Hparse.
      destruct (parseGetMetricDataTimeSeries byLabel query); intros; by simplify_eq/=.
Qed.

Lemma queryResponse_failure (mdr : gmap string (gmap string MetricDataResult))
    (queries : gmap string cloudWatchQuery) (id : string)
    (byLabel : gmap string MetricDataResult) (query : cloudWatchQuery) :
  mdr !! id = Some byLabel → queries !! id = Some query →
  failureOf (queryResponse mdr queries id)
  = failureOf (parseGetMetricDataTimeSeries byLabel query).
Proof.
  intros Hid Hquery. unfold queryResponse. rewrite Hid, Hquery.
  cbn [deref mbind outcome_bind].
  by destruct (parseGetMetricDataTimeSeries byLabel query) as [[frames partial]| |].
Qed.

Lemma request_first_failure (outputs : list GetMetricDataOutput)
    (queries queries' : gmap string cloudWatchQuery)
    (mdr : gmap string (gmap string MetricDataResult)) (id : string)
    (byLabel : gmap string MetricDataResult) (query : cloudWatchQuery) :
  mergeOutputs outputs queries = Ok (mdr, queries') →
  mdr !! id = Some byLabel → queries' !! id = Some query →
  failureOf (parseGetMetricDataTimeSeries byLabel query) ≠ None →
  ∃ before id' after byLabel' query' f,
    rangeKeys (dom mdr) = before ++ id' :: after ∧ (id ∉ before) ∧
    Forall (λ i, ∃ response, queryResponse mdr queries' i = Ok response) before ∧
    mdr !! id' = Some byLabel' ∧ queries' !! id' = Some query' ∧
    failureOf (parseGetMetricDataTimeSeries byLabel' query') = Some f ∧
    failureOf (parseResponse outputs queries) = Some f.
Proof.
  intros Hmerge Hid Hquery Hfails.
  assert (id ∈ rangeKeys (dom mdr)) as Hin.
  { rewrite rangeKeys_perm, elem_of_elements. apply elem_of_dom. eauto. }
  destruct (forEach_first_failure (queryResponse mdr queries')
              (λ cloudWatchResponses response, cloudWatchResponses ++ [response])
              _ [] id Hin)
    as (before & id' & after & f & Heq & Hnotin & Hbefore & Hid' & Hloop).
  { by rewrite (queryResponse_failure _ _ _ byLabel query). }
  assert (is_Some (mdr !! id')) as [byLabel' HbyLabel'].
  { apply elem_of_dom. rewrite <- elem_of_elements, <- rangeKeys_perm, Heq.
    apply elem_of_app. right. left. }
  assert (is_Some (queries' !! id')) as [query' Hquery'].
  { pose proof (mergeOutputs_Ok_inv _ _ _ _ Hmerge) as (Hknown & -> & ->).
    apply elem_of_dom. rewrite flaggedQueries_dom.
    assert (is_Some (foldl insertResult ∅ (allResults outputs) !! id'))
      as (r & Hr & <-)%insertResult_foldl_is_Some by eauto.
    rewrite Forall_forall in Hknown. by apply Hknown. }
  exists before, id', after, byLabel', query', f.
  split; [done|]. split; [done|]. split; [done|]. split; [done|]. split; [done|].
  rewrite <- (queryResponse_failure mdr queries' id') by done. split; [done|].
  unfold parseResponse. rewrite Hmerge. exact Hloop.
Qed.

End arithmetic_error.

(** * The claims *)

(** ** C2: a fragment of an unknown query *)

(** C2, as stated, fails: the fragment ["ghost"] names no query of the
    request, and the merge ends in a nil dereference at
    [queries[*r.Id].RequestExceededMaxLimit = ...], not in an error value. *)
Lemma C2_unknown_id_is_no_error_value :
  strayFragment ∈ allResults strayOutputs ∧
  oneQuery !! res_Id strayFragment = None ∧
  mergeOutputs strayOutputs oneQuery = Panic NilDereference ∧
  parseResponse (kinds := plainKinds) (range := canonicalRange) strayOutputs oneQuery
    = Panic NilDereference ∧
  ¬ (∃ e, mergeOutputs strayOutputs oneQuery = Err e).
Proof.
  split; [|split; [|split; [|split]]].
  - apply list_elem_of_In. simpl. auto.
  - reflexivity.
  - reflexivity.
  - reflexivity.
  - intros [e He]. vm_compute in He. discriminate He.
Qed.

(** C2, amended: if some fragment of the input batches references a query id
    that is not a key of [queries], the merge, and [parseResponse] with it,
    ends in a run-time panic (a nil dereference): no error value is
    returned, and no merged result either. *)
Theorem C2_unknown_query_id_panics `{kinds : QueryKinds} `{range : MapRange}
    (outputs : list GetMetricDataOutput) (queries : gmap string cloudWatchQuery)
    (r : MetricDataResult) :
  r ∈ allResults outputs →
  queries !! res_Id r = None →
  mergeOutputs outputs queries = Panic NilDereference ∧
  parseResponse outputs queries = Panic NilDereference.
Proof.
  intros Hin Hnone.
  assert (mergeOutputs outputs queries = Panic NilDereference) as Hmerge.
  { rewrite mergeOutputs_eq. rewrite decide_False; [done|].
    intros Hall. rewrite Forall_forall in Hall.
    apply (Hall r) in Hin. by apply not_elem_of_dom in Hnone. }
  split; [done|]. unfold parseResponse. by rewrite Hmerge.
Qed.

(** The amended C2 on the request with the stray fragment. *)
Lemma C2_unknown_query_id_panics_witness :
  mergeOutputs strayOutputs oneQuery = Panic NilDereference ∧
  parseResponse (kinds := plainKinds) (range := canonicalRange) strayOutputs oneQuery
    = Panic NilDereference.
Proof.
  apply (C2_unknown_query_id_panics (kinds := plainKinds) (range := canonicalRange)
           strayOutputs oneQuery strayFragment).
  - apply list_elem_of_In. simpl. auto.
  - reflexivity.
Defined.

(** ** C3: the exceeded-limit flag *)

(** C3, as stated, fails: the first page of query ["a"] carries
    [MaxMetricsExceeded], the second page does not, and the flag ends
    [false]: the second page cleared it. *)
Lemma C3_later_batch_clears_flag :
  (∃ mdo, limitThenNone !! 0%nat = Some mdo ∧ referencesQuery "a" mdo ∧
          hasMessage "MaxMetricsExceeded" (out_Messages mdo)) ∧
  finalExceededLimit (take 1 limitThenNone) oneQuery "a" = Ok true ∧
  finalExceededLimit limitThenNone oneQuery "a" = Ok false.
Proof.
  split; [|split; reflexivity].
  eexists. split; [reflexivity|]. split.
  - eexists. split; [apply list_elem_of_In; simpl; auto|reflexivity].
  - eexists. split; [apply list_elem_of_In; simpl; auto|reflexivity].
Qed.

(** C3, amended: for every query referenced by at least one fragment, the
    final exceededLimit flag after all batches is the one of the last batch
    that holds a fragment of the query: true if and only if that batch
    carried a batch-level [MaxMetricsExceeded] message (a later batch with a
    fragment of the query and no such message clears the flag). *)
Theorem C3_exceeded_limit_of_last_batch
    (before after : list GetMetricDataOutput) (mdo : GetMetricDataOutput)
    (queries : gmap string cloudWatchQuery) (id : string) :
  Forall (λ r, res_Id r ∈ dom queries) (allResults (before ++ mdo :: after)) →
  referencesQuery id mdo →
  Forall (λ later, ¬ referencesQuery id later) after →
  ∃ exceeded,
    finalExceededLimit (before ++ mdo :: after) queries id = Ok exceeded ∧
    (exceeded = true ↔ hasMessage "MaxMetricsExceeded" (out_Messages mdo)).
Proof.
  intros Hknown Href Hafter. exists (requestExceededMaxLimit mdo).
  split; [|apply requestExceededMaxLimit_true].
  unfold finalExceededLimit. rewrite mergeOutputs_eq, decide_True by done. simpl.
  rewrite flaggedQueries_lookup, lastExceeded_last by done.
  destruct Href as (r & Hr & <-).
  assert (res_Id r ∈ dom queries) as [query Hq]%elem_of_dom.
  { rewrite Forall_forall in Hknown. apply Hknown. unfold allResults.
    rewrite fmap_app, concat_app. apply elem_of_app. right. simpl.
    apply elem_of_app. by left. }
  by rewrite Hq.
Qed.

(** The amended C3 on the two pages of query ["a"]: the second page decides. *)
Lemma C3_exceeded_limit_of_last_batch_witness :
  ∃ exceeded,
    finalExceededLimit limitThenNone oneQuery "a" = Ok exceeded ∧
    (exceeded = true ↔ hasMessage "MaxMetricsExceeded" []).
Proof.
  apply (C3_exceeded_limit_of_last_batch
           (take 1 limitThenNone)
           []
           (batch [] [fragment "a" "label" "Complete" [seconds 60] [Some 2%float]])
           oneQuery "a").
  - repeat constructor; apply elem_of_dom; eexists; reflexivity.
  - eexists. split; [apply list_elem_of_In; simpl; auto|reflexivity].
  - constructor.
Defined.

(** ** C4: fragments of one (id, label) pair *)

(** C4: for the fragments that share an (id, label) pair, in whatever batches
    they arrive, the merge yields time stamps and values equal to the
    concatenation of the fragments' sequences in arrival order, and the merged
    status is ["Complete"] if and only if some contributing fragment's status
    was ["Complete"]. *)
Theorem C4_merge_concatenates_fragments
    (outputs : list GetMetricDataOutput) (queries : gmap string cloudWatchQuery)
    (id label : string) :
  Forall (λ r, res_Id r ∈ dom queries) (allResults outputs) →
  fragments id label (allResults outputs) ≠ [] →
  ∃ mdr queries' merged,
    mergeOutputs outputs queries = Ok (mdr, queries') ∧
    lookup2 mdr id label = Some merged ∧
    res_Timestamps merged
      = concat (res_Timestamps <$> fragments id label (allResults outputs)) ∧
    res_Values merged
      = concat (res_Values <$> fragments id label (allResults outputs)) ∧
    (isComplete merged ↔
     ∃ f, f ∈ fragments id label (allResults outputs) ∧ isComplete f).
Proof.
  intros Hknown Hsome. rewrite mergeOutputs_eq, decide_True by done.
  pose proof (insertResult_foldl_lookup2 (allResults outputs) id label) as Hl.
  destruct (fragments id label (allResults outputs)) as [|f fs]; [done|].
  simpl in Hl. eexists _, _, _. split; [done|]. split; [done|].
  split; [apply appendResult_foldl_Timestamps|].
  split; [apply appendResult_foldl_Values|apply appendResult_foldl_Complete].
Qed.

(** C4 on the two pages of query ["a"]. *)
Lemma C4_merge_concatenates_fragments_witness :
  ∃ mdr queries' merged,
    mergeOutputs limitThenNone oneQuery = Ok (mdr, queries') ∧
    lookup2 mdr "a" "label" = Some merged ∧
    res_Timestamps merged
      = concat (res_Timestamps <$> fragments "a" "label" (allResults limitThenNone)) ∧
    res_Values merged
      = concat (res_Values <$> fragments "a" "label" (allResults limitThenNone)) ∧
    (isComplete merged ↔
     ∃ f, f ∈ fragments "a" "label" (allResults limitThenNone) ∧ isComplete f).
Proof.
  apply (C4_merge_concatenates_fragments limitThenNone oneQuery "a" "label").
  - repeat constructor; apply elem_of_dom; eexists; reflexivity.
  - vm_compute. discriminate.
Defined.

(** ** C1: an arithmetic error *)

(** C1, as stated, fails: query ["a"] carries an [ArithmeticError] message,
    its sibling ["b"] formats to a record on its own, and yet [parseResponse]
    returns the error of ["a"] and no record at all, in whichever order the
    two queries are visited. *)
Lemma C1_sibling_record_is_lost :
  (∃ response,
     responseOf (kinds := plainKinds) (range := canonicalRange)
                failingAndSound twoQueries "b" = Ok response ∧
     resp_RefId response = "B") ∧
  parseResponse (kinds := plainKinds) (range := canonicalRange) failingAndSound twoQueries
    = Err (ArithmeticErrorInQuery "A" "division by zero") ∧
  parseResponse (kinds := plainKinds) (range := reverseRange) failingAndSound twoQueries
    = Err (ArithmeticErrorInQuery "A" "division by zero").
Proof.
  split; [|split; reflexivity].
  eexists. split; reflexivity.
Qed.

(** C1, amended: if any message attached to a merged result of query Q has
    code ["ArithmeticError"], formatting of Q returns no frames: it aborts
    with an error that identifies Q's refId and the text of the first such
    message of the least label of Q, in sorted order, that has one; unless
    building the frames of a label of Q sorted before that one faults first,
    and then with that fault.  The failure is not confined to Q:
    [parseResponse] returns no response record for any query of the batch,
    siblings included; it returns the failure (error or fault) of the first
    query, in the order in which the merged map is ranged over, whose
    formatting fails, and that is Q's own when every other query formats. *)
Theorem C1_arithmetic_error_aborts_request `{kinds : QueryKinds} `{range : MapRange}
    (outputs : list GetMetricDataOutput) (queries queries' : gmap string cloudWatchQuery)
    (mdr : gmap string (gmap string MetricDataResult)) (id label : string)
    (byLabel : gmap string MetricDataResult) (merged : MetricDataResult) :
  mergeOutputs outputs queries = Ok (mdr, queries') →
  mdr !! id = Some byLabel →
  byLabel !! label = Some merged →
  hasMessage "ArithmeticError" (res_Messages merged) →
  ∃ query least mergedLeast message,
    queries' !! id = Some query ∧
    byLabel !! least = Some mergedLeast ∧
    firstArithmeticError (res_Messages mergedLeast) = Some message ∧
    (∀ l r, byLabel !! l = Some r → labelBefore l least → noArithmeticError r) ∧
    (parseGetMetricDataTimeSeries byLabel query
     = Err (ArithmeticErrorInQuery (q_RefId query) (msg_Value message))
     ∨ ∃ label' merged' p,
         byLabel !! label' = Some merged' ∧ labelBefore label' least ∧
         labelFrames query label' merged' = Panic p ∧
         (∀ l r, byLabel !! l = Some r → labelBefore l label' →
                 ∃ frames, labelFrames query l r = Ok frames) ∧
         parseGetMetricDataTimeSeries byLabel query = Panic p) ∧
    (∃ before id' after byLabel' query' f,
       rangeKeys (dom mdr) = before ++ id' :: after ∧ (id ∉ before) ∧
       Forall (λ i, ∃ response, queryResponse mdr queries' i = Ok response) before ∧
       mdr !! id' = Some byLabel' ∧ queries' !! id' = Some query' ∧
       failureOf (parseGetMetricDataTimeSeries byLabel' query') = Some f ∧
       failureOf (parseResponse outputs queries) = Some f) ∧
    ((∀ i, i ∈ dom mdr → i ≠ id →
           ∃ response, queryResponse mdr queries' i = Ok response) →
     failureOf (parseResponse outputs queries)
     = failureOf (parseGetMetricDataTimeSeries byLabel query)).
Proof.
  intros Hmerge Hid Hlabel Hmsg.
  assert (is_Some (queries' !! id)) as [query Hquery].
  { pose proof (mergeOutputs_Ok_inv _ _ _ _ Hmerge) as (Hknown & -> & ->).
    apply elem_of_dom. rewrite flaggedQueries_dom.
    assert (is_Some (foldl insertResult ∅ (allResults outputs) !! id))
      as (r & Hin & <-)%insertResult_foldl_is_Some by eauto.
    rewrite Forall_forall in Hknown. by apply Hknown. }
  destruct (formatting_arithmetic_error query byLabel label merged Hlabel Hmsg)
    as (least & mergedLeast & message & Hleast & Hmessage & Hmin & Hformat).
  exists query, least, mergedLeast, message.
  split; [done|]. split; [done|]. split; [done|]. split; [done|]. split; [done|].
  assert (failureOf (parseGetMetricDataTimeSeries byLabel query) ≠ None) as Hfails.
  { destruct Hformat as [->|(label' & merged' & p & _ & _ & _ & _ & ->)]; done. }
  destruct (request_first_failure outputs queries queries' mdr id byLabel query
              Hmerge Hid Hquery Hfails)
    as (before & id' & after & byLabel' & query' & f & Heq & Hnotin & Hbefore
        & Hid' & Hquery' & Hf & Hrequest).
  split; [by exists before, id', after, byLabel', query', f|].
  intros Hothers. rewrite Hrequest.
  destruct (decide (id' = id)) as [->|Hne].
  - rewrite Hid in Hid'. rewrite Hquery in Hquery'. by simplify_eq.
  - destruct (Hothers id') as [response Hresponse]; [by apply elem_of_dom|done|].
    pose proof (queryResponse_failure mdr queries' id' byLabel' query' Hid' Hquery')
      as Hsame.
    rewrite Hresponse, Hf in Hsame. done.
Qed.

(** The amended C1 on the request of two queries, one of which divides by zero. *)
Lemma C1_arithmetic_error_aborts_request_witness :
  ∃ query least mergedLeast message,
    (mergedOf failingAndSound twoQueries).2 !! "a" = Some query ∧
    resultsOf failingAndSound twoQueries "a" !! least = Some mergedLeast ∧
    firstArithmeticError (res_Messages mergedLeast) = Some message ∧
    (∀ l r, resultsOf failingAndSound twoQueries "a" !! l = Some r →
            labelBefore l least → noArithmeticError r) ∧
    (parseGetMetricDataTimeSeries (kinds := plainKinds) (range := canonicalRange)
       (resultsOf failingAndSound twoQueries "a") query
     = Err (ArithmeticErrorInQuery (q_RefId query) (msg_Value message))
     ∨ ∃ label' merged' p,
         resultsOf failingAndSound twoQueries "a" !! label' = Some merged' ∧
         labelBefore label' least ∧
         labelFrames (kinds := plainKinds) (range := canonicalRange)
           query label' merged' = Panic p ∧
         (∀ l r, resultsOf failingAndSound twoQueries "a" !! l = Some r →
                 labelBefore l label' →
                 ∃ frames, labelFrames (kinds := plainKinds) (range := canonicalRange)
                             query l r = Ok frames) ∧
         parseGetMetricDataTimeSeries (kinds := plainKinds) (range := canonicalRange)
           (resultsOf failingAndSound twoQueries "a") query = Panic p) ∧
    (∃ before id' after byLabel' query' f,
       rangeKeys (MapRange := canonicalRange)
         (dom (mergedOf failingAndSound twoQueries).1) = before ++ id' :: after ∧
       ("a" ∉ before) ∧
       Forall (λ i, ∃ response,
                 queryResponse (kinds := plainKinds) (range := canonicalRange)
                   (mergedOf failingAndSound twoQueries).1
                   (mergedOf failingAndSound twoQueries).2 i = Ok response) before ∧
       (mergedOf failingAndSound twoQueries).1 !! id' = Some byLabel' ∧
       (mergedOf failingAndSound twoQueries).2 !! id' = Some query' ∧
       failureOf (parseGetMetricDataTimeSeries (kinds := plainKinds)
                    (range := canonicalRange) byLabel' query') = Some f ∧
       failureOf (parseResponse (kinds := plainKinds) (range := canonicalRange)
                    failingAndSound twoQueries) = Some f) ∧
    ((∀ i, i ∈ dom (mergedOf failingAndSound twoQueries).1 → i ≠ "a" →
           ∃ response,
             queryResponse (kinds := plainKinds) (range := canonicalRange)
               (mergedOf failingAndSound twoQueries).1
               (mergedOf failingAndSound twoQueries).2 i = Ok response) →
     failureOf (parseResponse (kinds := plainKinds) (range := canonicalRange)
                  failingAndSound twoQueries)
     = failureOf (parseGetMetricDataTimeSeries (kinds := plainKinds)
                    (range := canonicalRange)
                    (resultsOf failingAndSound twoQueries "a") query)).
Proof.
  apply (C1_arithmetic_error_aborts_request (kinds := plainKinds) (range := canonicalRange)
           failingAndSound twoQueries (mergedOf failingAndSound twoQueries).2
           (mergedOf failingAndSound twoQueries).1 "a" "label"
           (resultsOf failingAndSound twoQueries "a") divisionByZero).
  - reflexivity.
  - reflexivity.
  - reflexivity.
  - eexists. split; [apply list_elem_of_In; simpl; auto|reflexivity].
Defined.

(** ** C5: the partial-data flag *)

(** C5, as stated, fails: the first page of query ["a"] has status
    ["PartialData"], the second ["Complete"]; one fragment is incomplete, and
    the flag is [false]. *)
Lemma C5_incomplete_fragment_forgiven :
  (∃ f, f ∈ fragments "a" "label" (allResults limitThenNone) ∧ ¬ isComplete f) ∧
  partialDataFlags
    (parseResponse (kinds := plainKinds) (range := canonicalRange) limitThenNone oneQuery)
  = Ok [("A", false)].
Proof.
  split; [|reflexivity].
  exists (fragment "a" "label" "PartialData" [seconds 0] [Some 1%float]).
  split; [apply list_elem_of_In; simpl; auto|]. unfold isComplete. simpl. discriminate.
Qed.

(** C5, amended: for every query whose formatting returns, the partialData
    flag is the logical OR, over the labels of the query, of "no fragment
    contributed under this label has status Complete": an incomplete fragment
    makes the flag true unless some fragment of the same label is
    Complete. *)
Theorem C5_partial_data_per_label `{kinds : QueryKinds} `{range : MapRange}
    (outputs : list GetMetricDataOutput) (queries queries' : gmap string cloudWatchQuery)
    (mdr : gmap string (gmap string MetricDataResult)) (id : string)
    (byLabel : gmap string MetricDataResult) (query : cloudWatchQuery)
    (frames : list Frame) (partialData : bool) :
  mergeOutputs outputs queries = Ok (mdr, queries') →
  mdr !! id = Some byLabel →
  parseGetMetricDataTimeSeries byLabel query = Ok (frames, partialData) →
  (partialData = true ↔
   ∃ label, fragments id label (allResults outputs) ≠ [] ∧
            ∀ f, f ∈ fragments id label (allResults outputs) → ¬ isComplete f).
Proof.
  intros Hmerge Hid Hformat.
  pose proof (mergeOutputs_Ok_inv _ _ _ _ Hmerge) as (_ & -> & _).
  rewrite parseGetMetricDataTimeSeries_eq in Hformat.
  destruct (forEach _ [] _) as [frames'| |]; simpl in Hformat; [|done..].
  injection Hformat as _ <-. rewrite existsb_incomplete.
  split.
  - intros (label & r & Hr & Hinc). exists label.
    rewrite (insertResult_foldl_lookup _ id label byLabel Hid) in Hr.
    destruct (fragments id label (allResults outputs)) as [|f fs]; [done|].
    split; [done|]. intros g Hg Hcomplete. apply Hinc.
    injection Hr as <-. apply appendResult_foldl_Complete. by exists g.
  - intros (label & Hsome & Hnone).
    pose proof (insertResult_foldl_lookup _ id label byLabel Hid) as Hr.
    destruct (fragments id label (allResults outputs)) as [|f fs]; [done|].
    exists label, (foldl appendResult f fs). split; [done|].
    intros (g & Hg & Hcomplete)%appendResult_foldl_Complete. by apply (Hnone g).
Qed.

(** The amended C5 on the two pages of query ["a"]. *)
Lemma C5_partial_data_per_label_witness :
  (formattedOf (kinds := plainKinds) (range := canonicalRange)
     (resultsOf limitThenNone oneQuery "a") (metricQuery "a" "A" ∅ "")).2 = true ↔
  ∃ label, fragments "a" label (allResults limitThenNone) ≠ [] ∧
           ∀ f, f ∈ fragments "a" label (allResults limitThenNone) → ¬ isComplete f.
Proof.
  apply (C5_partial_data_per_label (kinds := plainKinds) (range := canonicalRange)
           limitThenNone oneQuery (mergedOf limitThenNone oneQuery).2
           (mergedOf limitThenNone oneQuery).1 "a"
           (resultsOf limitThenNone oneQuery "a") (metricQuery "a" "A" ∅ "")
           (formattedOf (kinds := plainKinds) (range := canonicalRange)
              (resultsOf limitThenNone oneQuery "a") (metricQuery "a" "A" ∅ "")).1).
  - reflexivity.
  - reflexivity.
  - reflexivity.
Defined.

(** ** C9: the order of the frames *)

(** C9, as stated, fails: the two pages of query ["a"] in either order are
    permutations of one another, and the time column of the one frame comes
    out in arrival order, so the two outputs differ. *)
Lemma C9_permuted_batches_differ :
  limitThenNone ≡ₚ reverse limitThenNone ∧
  responseTimes
    (parseResponse (kinds := plainKinds) (range := canonicalRange) limitThenNone oneQuery)
  = Ok [[0; 60000]] ∧
  responseTimes
    (parseResponse (kinds := plainKinds) (range := canonicalRange)
       (reverse limitThenNone) oneQuery)
  = Ok [[60000; 0]].
Proof.
  split; [|split; reflexivity]. symmetry. apply reverse_Permutation.
Qed.

(** C9, amended: for a fixed query, the output frames are emitted label by
    label in lexicographically sorted order of the labels, and that sequence
    of labels is a function of the label set alone: merging any permutation
    of the input batches, under any iteration order of the maps, yields the
    same labels in the same order.  When the permutation keeps, for every
    label of the query, the fragments of that label in the same order, the
    merge yields the same merged results for the query, and merge followed
    by format yields identical output, under any two iteration orders of the
    maps (for a query over a multi-valued dimension, provided no two of its
    dimensions share the greatest number of candidates).  (A permutation
    that reorders the pages of one label changes the output: time stamps
    and values are concatenated in arrival order.) *)
Theorem C9_frames_follow_sorted_labels `{kinds : QueryKinds} (range1 range2 : MapRange)
    (outputs outputs' : list GetMetricDataOutput)
    (queries queries1 : gmap string cloudWatchQuery)
    (mdr : gmap string (gmap string MetricDataResult)) (id : string)
    (byLabel : gmap string MetricDataResult) (query : cloudWatchQuery) :
  outputs ≡ₚ outputs' →
  mergeOutputs outputs queries = Ok (mdr, queries1) →
  mdr !! id = Some byLabel →
  Sorted String.le (metricDataResultLabels (range := range1) byLabel) ∧
  metricDataResultLabels (range := range1) byLabel ≡ₚ elements (dom byLabel) ∧
  (∀ frames partialData,
     parseGetMetricDataTimeSeries (range := range1) byLabel query = Ok (frames, partialData) →
     ∃ perLabel,
       Forall2 (λ label part,
                  ∃ r, byLabel !! label = Some r ∧
                       labelFrames (range := range1) query label r = Ok part)
               (metricDataResultLabels (range := range1) byLabel) perLabel ∧
       frames = concat perLabel) ∧
  (∃ mdr' queries2 byLabel',
     mergeOutputs outputs' queries = Ok (mdr', queries2) ∧
     mdr' !! id = Some byLabel' ∧
     metricDataResultLabels (range := range2) byLabel'
     = metricDataResultLabels (range := range1) byLabel) ∧
  ((∀ label, fragments id label (allResults outputs')
             = fragments id label (allResults outputs)) →
   ∃ mdr' queries2,
     mergeOutputs outputs' queries = Ok (mdr', queries2) ∧
     mdr' !! id = Some byLabel ∧
     ((isMultiValuedDimensionExpression query = true → noTie query) →
      parseGetMetricDataTimeSeries (range := range2) byLabel query
      = parseGetMetricDataTimeSeries (range := range1) byLabel query)).
Proof.
  intros Hperm Hmerge Hid.
  pose proof (mergeOutputs_Ok_inv _ _ _ _ Hmerge) as (Hknown & -> & _).
  pose proof (allResults_Permutation _ _ Hperm) as Hrs.
  destruct (merged_labels_Permutation _ _ id byLabel Hrs Hid) as (byLabel' & Hid' & Hdom).
  assert (mergeOutputs outputs' queries
          = Ok (foldl insertResult ∅ (allResults outputs'), flaggedQueries queries outputs'))
    as Hmerge'.
  { rewrite mergeOutputs_eq, decide_True; [done|]. by rewrite <- Hrs. }
  split; [apply sortStrings_Sorted|].
  split; [apply metricDataResultLabels_Permutation|].
  split; [|split].
  - intros frames partialData Hformat.
    rewrite parseGetMetricDataTimeSeries_eq in Hformat.
    destruct (forEach _ [] _) as [frames'| |] eqn:Hloop; simpl in Hformat; [|done..].
    injection Hformat as <- _.
    apply appendLoop_Ok in Hloop as (parts & Hparts & ->).
    exists parts. split; [|done].
    eapply Forall2_impl; [exact Hparts|]. simpl.
    intros label part (r & ? & _ & ?)%labelOutcome_Ok. by exists r.
  - exists (foldl insertResult ∅ (allResults outputs')), (flaggedQueries queries outputs'),
      byLabel'.
    split; [done|]. split; [done|]. by apply metricDataResultLabels_dom.
  - intros Hsame.
    exists (foldl insertResult ∅ (allResults outputs')), (flaggedQueries queries outputs').
    split; [done|].
    assert (byLabel' = byLabel) as ->.
    { apply map_eq. intros label.
      rewrite (insertResult_foldl_lookup _ id label byLabel' Hid'),
        (insertResult_foldl_lookup _ id label byLabel Hid).
      by rewrite Hsame. }
    split; [done|]. intros Htie.
    by apply parseGetMetricDataTimeSeries_range.
Qed.

(** The amended C9 on two pages of query ["a"], one for each of two labels,
    and their reversal, which keeps the fragments of each label as they
    are. *)
Lemma C9_frames_follow_sorted_labels_witness :
  Sorted String.le (metricDataResultLabels (range := canonicalRange)
                      (resultsOf twoLabels oneQuery "a")) ∧
  metricDataResultLabels (range := canonicalRange) (resultsOf twoLabels oneQuery "a")
    ≡ₚ elements (dom (resultsOf twoLabels oneQuery "a")) ∧
  (∀ frames partialData,
     parseGetMetricDataTimeSeries (kinds := plainKinds) (range := canonicalRange)
       (resultsOf twoLabels oneQuery "a") (metricQuery "a" "A" ∅ "")
     = Ok (frames, partialData) →
     ∃ perLabel,
       Forall2 (λ label part,
                  ∃ r, resultsOf twoLabels oneQuery "a" !! label = Some r ∧
                       labelFrames (kinds := plainKinds) (range := canonicalRange)
                         (metricQuery "a" "A" ∅ "") label r = Ok part)
               (metricDataResultLabels (range := canonicalRange)
                  (resultsOf twoLabels oneQuery "a")) perLabel ∧
       frames = concat perLabel) ∧
  (∃ mdr' queries2 byLabel',
     mergeOutputs (reverse twoLabels) oneQuery = Ok (mdr', queries2) ∧
     mdr' !! "a" = Some byLabel' ∧
     metricDataResultLabels (range := reverseRange) byLabel'
     = metricDataResultLabels (range := canonicalRange)
         (resultsOf twoLabels oneQuery "a")) ∧
  ∃ mdr' queries2,
    mergeOutputs (reverse twoLabels) oneQuery = Ok (mdr', queries2) ∧
    mdr' !! "a" = Some (resultsOf twoLabels oneQuery "a") ∧
    parseGetMetricDataTimeSeries (kinds := plainKinds) (range := reverseRange)
      (resultsOf twoLabels oneQuery "a") (metricQuery "a" "A" ∅ "")
    = parseGetMetricDataTimeSeries (kinds := plainKinds) (range := canonicalRange)
        (resultsOf twoLabels oneQuery "a") (metricQuery "a" "A" ∅ "").
Proof.
  destruct (C9_frames_follow_sorted_labels (kinds := plainKinds) canonicalRange
              reverseRange twoLabels (reverse twoLabels) oneQuery
              (mergedOf twoLabels oneQuery).2 (mergedOf twoLabels oneQuery).1 "a"
              (resultsOf twoLabels oneQuery "a") (metricQuery "a" "A" ∅ ""))
    as (Hsorted & Hlabels & Hframes & Hsequence & Hsame).
  - symmetry. apply reverse_Permutation.
  - reflexivity.
  - reflexivity.
  - split; [exact Hsorted|]. split; [exact Hlabels|]. split; [exact Hframes|].
    split; [exact Hsequence|].
    destruct Hsame as (mdr' & queries2 & Hmerge' & Hid' & Hformat).
    + intros label.
      change (allResults (reverse twoLabels))
        with [fragment "a" "y" "PartialData" [seconds 0] [Some 3%float];
              fragment "a" "x" "Complete" [seconds 0; seconds 120]
                [Some 1%float; Some 2%float]].
      change (allResults twoLabels)
        with [fragment "a" "x" "Complete" [seconds 0; seconds 120]
                [Some 1%float; Some 2%float];
              fragment "a" "y" "PartialData" [seconds 0] [Some 3%float]].
      unfold fragments. rewrite !filter_cons, !filter_nil. cbn [res_Id res_Label fragment].
      destruct (decide ("a" = "a" ∧ "y" = label)) as [[_ Hy]|Hy];
        destruct (decide ("a" = "a" ∧ "x" = label)) as [[_ Hx]|Hx]; try done.
      by rewrite <- Hy in Hx.
    + exists mdr', queries2. split; [exact Hmerge'|]. split; [exact Hid'|].
      apply Hformat. intros Hmulti. discriminate Hmulti.
Defined.

(** ** C6: gap-filling *)

(** C6 fails on the code.  The claim is about every series, a null value
    being emitted like any other; the loop dereferences each value for the
    debug log before it appends it.  On the time stamps 0 s and 120 s with
    the values null and 2 and the period 60, where the claim has the three
    points (0, null), (60000, null) and (120000, 2), gap-filling ends in a
    nil dereference, and so does the formatting of the query. *)
Theorem C6_null_value_stops_gap_filling :
  gapFilled 60 [seconds 0; seconds 120] [None; Some 2%float]
  = [(0, None); (60000, None); (120000, Some 2%float)] ∧
  gapFill 60 [seconds 0; seconds 120] [None; Some 2%float] 0
          [seconds 0; seconds 120] [] []
  = Panic NilDereference ∧
  parseGetMetricDataTimeSeries (kinds := plainKinds) (range := canonicalRange)
    {["label" := fragment "a" "label" "Complete" [seconds 0; seconds 120]
                   [None; Some 2%float]]}
    (metricQuery "a" "A" ∅ "")
  = Panic NilDereference.
Proof. split; [|split]; reflexivity. Qed.

(** ** C10: a null sample *)

(** C10 fails on the code: the merged result [nullSample] pairs its second
    time stamp with a null value, and formatting ends in a nil dereference
    (the value is dereferenced for the debug log before it is appended to
    the column), for the query alone and for the request. *)
Theorem C10_null_sample_faults :
  res_Values nullSample !! 1%nat = Some None ∧
  parseGetMetricDataTimeSeries (kinds := plainKinds) (range := canonicalRange)
    {["label" := nullSample]} (metricQuery "a" "A" ∅ "")
  = Panic NilDereference ∧
  parseResponse (kinds := plainKinds) (range := canonicalRange)
    [batch [] [nullSample]] oneQuery
  = Panic NilDereference.
Proof. split; [|split]; reflexivity. Qed.

(** ** C7: a multi-valued dimension without data *)

(** C7, as stated, fails: dimension [a] has the most candidates, dimension [b]
    has two, not one, and still every empty frame is tagged with the first
    candidate of [b]. *)
Lemma C7_two_candidates_still_tagged :
  dimensionValues unevenQuery "b" = ["x"; "y"] ∧
  frameTags (labelFrames (kinds := multiValuedKinds) (range := canonicalRange)
               unevenQuery "label" noData)
  = Ok [ <["a" := "1"]> (<["b" := "x"]> ∅);
         <["a" := "2"]> (<["b" := "x"]> ∅);
         <["a" := "3"]> (<["b" := "x"]> ∅) ].
Proof. split; reflexivity. Qed.

(** C7, amended: for every query whose expression is classified as
    multi-valued-dimension and whose merged result has no values, formatting
    synthesizes exactly one empty frame (no timestamp/value fields) per
    candidate value of a dimension with the most candidate values, in the
    order of the candidates, each frame tagged with that dimension set to its
    candidate value plus, for every other dimension with at least one
    candidate, that dimension's first value; e.g. dimensions
    [{"dim1": ["val1", "val2"]}] with zero values yield exactly 2 empty frames
    tagged dim1=val1 and dim1=val2 respectively.  (A user-defined search
    expression must hold a comma for [formatAlias] to name the frames.) *)
Theorem C7_empty_frame_per_candidate `{kinds : QueryKinds} `{range : MapRange}
    (query : cloudWatchQuery) (label : string) (metricDataResult : MetricDataResult) :
  isMultiValuedDimensionExpression query = true →
  res_Values metricDataResult = [] →
  aliasReadable query →
  (∃ dimension frames,
     labelFrames query label metricDataResult = Ok frames ∧
     (∀ key, (length (dimensionValues query key)
              ≤ length (dimensionValues query dimension))%nat) ∧
     Forall2 (λ frame value,
                frm_Fields frame = [] ∧
                formatAlias query (q_Stats query) (frm_Tags frame) label
                = Ok (frm_Name frame) ∧
                ∀ key, frm_Tags frame !! key
                       = if decide (key = dimension) then Some value
                         else head (dimensionValues query key))
             frames (dimensionValues query dimension)) ∧
  labelFrames (kinds := multiValuedKinds) (range := canonicalRange)
    fanOutQuery "label" noData
  = Ok [ emptyFrame "test_stat1" {["dim1" := "val1"]};
         emptyFrame "test_stat1" {["dim1" := "val2"]} ].
Proof.
  intros Hmulti Hvalues Hread. split; [|reflexivity].
  exists (multiValuedDimension query).2.
  destruct (emptyFrames_loop query label (multiValuedDimension query).2
              (dimensionValues query (multiValuedDimension query).2) [] Hread)
    as (frames & Hloop & Hall).
  exists frames. split; [|split].
  - unfold labelFrames. rewrite Hvalues, Hmulti. simpl. exact Hloop.
  - apply multiValuedDimension_most.
  - eapply Forall2_impl; [exact Hall|]. simpl.
    intros frame value (Hfields & Htags & Hname). split; [done|]. split; [done|].
    intros key. rewrite Htags. apply emptyFrameTags_lookup.
Qed.

(** The amended C7 on the query with three candidates for [a] and two for [b]. *)
Lemma C7_empty_frame_per_candidate_witness :
  (∃ dimension frames,
     labelFrames (kinds := multiValuedKinds) (range := canonicalRange)
       unevenQuery "label" noData = Ok frames ∧
     (∀ key, (length (dimensionValues unevenQuery key)
              ≤ length (dimensionValues unevenQuery dimension))%nat) ∧
     Forall2 (λ frame value,
                frm_Fields frame = [] ∧
                formatAlias (kinds := multiValuedKinds) (range := canonicalRange)
                  unevenQuery (q_Stats unevenQuery) (frm_Tags frame) "label"
                = Ok (frm_Name frame) ∧
                ∀ key, frm_Tags frame !! key
                       = if decide (key = dimension) then Some value
                         else head (dimensionValues unevenQuery key))
             frames (dimensionValues unevenQuery dimension)) ∧
  labelFrames (kinds := multiValuedKinds) (range := canonicalRange)
    fanOutQuery "label" noData
  = Ok [ emptyFrame "test_stat1" {["dim1" := "val1"]};
         emptyFrame "test_stat1" {["dim1" := "val2"]} ].
Proof.
  apply (C7_empty_frame_per_candidate (kinds := multiValuedKinds) (range := canonicalRange)
           unevenQuery "label" noData).
  - reflexivity.
  - reflexivity.
  - intros Huser. discriminate Huser.
Defined.

(** ** C8: the alias template *)


(** * Further properties *)

(** ** [parseResponse]: the merge of the pages *)

(** X1: the merge returns exactly when every fragment names a known query,
    and then leaves [mdr] as the fold of [insertResult] over the fragments in
    arrival order and the queries with the flags of [flaggedQueries];
    otherwise it panics. *)
Theorem mergeOutputs_closed_form (queries : gmap string cloudWatchQuery)
    (outputs : list GetMetricDataOutput) :
  mergeOutputs outputs queries =
  if decide (Forall (λ r, res_Id r ∈ dom queries) (allResults outputs))
  then Ok (foldl insertResult ∅ (allResults outputs), flaggedQueries queries outputs)
  else Panic NilDereference.
Proof. apply mergeOutputs_eq. Qed.

(** X2: the merge touches nothing of the queries but the exceeded-limit
    flag: it keeps the key set, every query keeps all its other fields, and a
    query no fragment names is left as it was. *)
Theorem mergeOutputs_keeps_queries (outputs : list GetMetricDataOutput)
    (queries queries' : gmap string cloudWatchQuery)
    (mdr : gmap string (gmap string MetricDataResult)) :
  mergeOutputs outputs queries = Ok (mdr, queries') →
  dom queries' = dom queries ∧
  ∀ id query, queries !! id = Some query →
    ∃ query', queries' !! id = Some query' ∧ sameButExceeded query query' ∧
              (id ∉ referencedIds outputs → query' = query).
Proof.
  intros (_ & _ & ->)%mergeOutputs_Ok_inv. split; [apply flaggedQueries_dom|].
  intros id query Hq. rewrite flaggedQueries_lookup, Hq. simpl.
  eexists. split; [done|]. split.
  - unfold sameButExceeded. destruct (lastExceeded id outputs); simpl; [done|].
    by rewrite set_RequestExceededMaxLimit_same.
  - intros Hout. rewrite lastExceeded_unreferenced; [done|].
    intros r Hr Hid. apply Hout. unfold referencedIds.
    rewrite elem_of_list_to_set, list_elem_of_fmap. by exists r.
Qed.

(** X2 on the request with two queries. *)
Lemma mergeOutputs_keeps_queries_witness :
  dom (mergedOf failingAndSound twoQueries).2 = dom twoQueries ∧
  ∀ id query, twoQueries !! id = Some query →
    ∃ query', (mergedOf failingAndSound twoQueries).2 !! id = Some query' ∧
              sameButExceeded query query' ∧
              (id ∉ referencedIds failingAndSound → query' = query).
Proof.
  apply (mergeOutputs_keeps_queries failingAndSound twoQueries
           (mergedOf failingAndSound twoQueries).2 (mergedOf failingAndSound twoQueries).1).
  reflexivity.
Defined.

(** X3: a merged result carries the id and the label it is filed under, and
    the diagnostic messages of the first fragment of its pair only: the
    messages of every continuation fragment are dropped by the merge. *)
Theorem merged_result_first_messages (outputs : list GetMetricDataOutput)
    (queries queries' : gmap string cloudWatchQuery)
    (mdr : gmap string (gmap string MetricDataResult)) (id label : string)
    (byLabel : gmap string MetricDataResult) (merged : MetricDataResult) :
  mergeOutputs outputs queries = Ok (mdr, queries') →
  mdr !! id = Some byLabel →
  byLabel !! label = Some merged →
  ∃ f fs, fragments id label (allResults outputs) = f :: fs ∧
          res_Id merged = id ∧ res_Label merged = label ∧
          res_Messages merged = res_Messages f.
Proof.
  intros (_ & -> & _)%mergeOutputs_Ok_inv Hid Hlabel.
  rewrite (insertResult_foldl_lookup _ id label byLabel Hid) in Hlabel.
  destruct (fragments id label (allResults outputs)) as [|f fs] eqn:Hfs; [done|].
  injection Hlabel as <-. exists f, fs. split; [done|].
  assert (f ∈ fragments id label (allResults outputs)) as Hf by (rewrite Hfs; left).
  apply list_elem_of_filter in Hf as [[Hfid Hflabel] _].
  destruct (appendResult_foldl_Id f fs) as [-> ->].
  split; [done|]. split; [done|]. apply appendResult_foldl_Messages.
Qed.

(** X3 on the two pages of query ["a"]. *)
Lemma merged_result_first_messages_witness :
  ∃ f fs, fragments "a" "label" (allResults limitThenNone) = f :: fs ∧
          res_Id (fragment "a" "label" "Complete" [seconds 0; seconds 60]
                    [Some 1%float; Some 2%float]) = "a" ∧
          res_Label (fragment "a" "label" "Complete" [seconds 0; seconds 60]
                       [Some 1%float; Some 2%float]) = "label" ∧
          res_Messages (fragment "a" "label" "Complete" [seconds 0; seconds 60]
                          [Some 1%float; Some 2%float]) = res_Messages f.
Proof.
  apply (merged_result_first_messages limitThenNone oneQuery
           (mergedOf limitThenNone oneQuery).2 (mergedOf limitThenNone oneQuery).1
           "a" "label" (resultsOf limitThenNone oneQuery "a")).
  - reflexivity.
  - reflexivity.
  - reflexivity.
Defined.

(** ** [parseResponse]: the records *)

(** X4: when [parseResponse] returns, it returns one record for each query
    that some fragment names, in the order the merged map is ranged over, and
    none for a query without fragments; a record copies the id, the refId,
    the period and the used expression of its query, and its exceeded-limit
    flag is the one of the last batch with a fragment of the query. *)
Theorem parseResponse_records `{kinds : QueryKinds} `{range : MapRange}
    (outputs : list GetMetricDataOutput) (queries : gmap string cloudWatchQuery)
    (responses : list cloudwatchResponse) :
  parseResponse outputs queries = Ok responses →
  Forall2 (λ id response,
             ∃ query, queries !! id = Some query ∧
                      resp_Id response = q_Id query ∧
                      resp_RefId response = q_RefId query ∧
                      resp_Period response = q_Period query ∧
                      resp_Expression response = q_UsedExpression query ∧
                      lastExceeded id outputs
                      = Some (resp_RequestExceededMaxLimit response))
          (rangeKeys (referencedIds outputs)) responses.
Proof.
  unfold parseResponse.
  destruct (mergeOutputs outputs queries) as [[mdr queries']| |] eqn:Hmerge; [|done..].
  cbn [mbind outcome_bind]. intros (ys & Hys & ->)%collectLoop_Ok.
  apply mergeOutputs_Ok_inv in Hmerge as (_ & -> & ->).
  rewrite dom_merged in Hys. fold (referencedIds outputs) in Hys. simpl.
  eapply Forall2_impl; [exact Hys|]. cbv beta. intros id response.
  unfold queryResponse.
  destruct (foldl insertResult ∅ (allResults outputs) !! id) as [lr|] eqn:Hlr; [|done].
  rewrite flaggedQueries_lookup.
  destruct (queries !! id) as [query|] eqn:Hq; [|done].
  cbn [fmap option_fmap option_map deref mbind outcome_bind].
  destruct (parseGetMetricDataTimeSeries lr _) as [[frames partialData]| |]; [|done..].
  cbn [mbind outcome_bind]. intros [= <-]. exists query. split; [done|].
  assert (is_Some (lastExceeded id outputs)) as [exceeded Hlast].
  { assert (is_Some (foldl insertResult ∅ (allResults outputs) !! id))
      as (r & Hin & Hid)%insertResult_foldl_is_Some by eauto.
    by apply (lastExceeded_referenced id outputs r). }
  rewrite Hlast. simpl. done.
Qed.

(** X4 on the request of [TestQueryCloudWatch_TimeSeries]. *)
Lemma parseResponse_records_witness :
  Forall2 (λ id response,
             ∃ query, testQueries !! id = Some query ∧
                      resp_Id response = q_Id query ∧
                      resp_RefId response = q_RefId query ∧
                      resp_Period response = q_Period query ∧
                      resp_Expression response = q_UsedExpression query ∧
                      lastExceeded id testOutputs
                      = Some (resp_RequestExceededMaxLimit response))
          (rangeKeys (MapRange := canonicalRange) (referencedIds testOutputs))
          (recordsOf (kinds := multiValuedKinds) (range := canonicalRange)
             testOutputs testQueries).
Proof.
  apply (parseResponse_records (kinds := multiValuedKinds) (range := canonicalRange)
           testOutputs testQueries).
  reflexivity.
Defined.

(** X5: [parseResponse] returns its records, one per query named by a
    fragment, whenever every fragment names a known query, has its values
    present, one per time stamp, and carries no [ArithmeticError] message
    (and the expression of a user-defined search expression holds a
    comma). *)
Theorem parseResponse_sound_request `{kinds : QueryKinds} `{range : MapRange}
    (outputs : list GetMetricDataOutput) (queries : gmap string cloudWatchQuery) :
  Forall (λ r, res_Id r ∈ dom queries) (allResults outputs) →
  Forall soundFragment (allResults outputs) →
  (∀ id query exceeded, queries !! id = Some query →
                        aliasReadable (set_RequestExceededMaxLimit query exceeded)) →
  ∃ responses,
    parseResponse outputs queries = Ok responses ∧
    length responses = size (referencedIds outputs).
Proof.
  intros Hknown Hsound Hread. unfold parseResponse.
  rewrite mergeOutputs_eq, decide_True by done. cbn [mbind outcome_bind].
  destruct (collectLoop_total
              (queryResponse (foldl insertResult ∅ (allResults outputs))
                 (flaggedQueries queries outputs))
              (rangeKeys (dom (foldl insertResult ∅ (allResults outputs)))) [])
    as [ys Hys].
  - apply Forall_forall. intros id Hid.
    rewrite rangeKeys_perm, elem_of_elements in Hid.
    assert (id ∈ dom queries) as [query Hq]%elem_of_dom.
    { apply elem_of_dom, insertResult_foldl_is_Some in Hid as (r & Hin & <-).
      rewrite Forall_forall in Hknown. by apply Hknown. }
    apply elem_of_dom in Hid as [lr Hlr].
    unfold queryResponse. rewrite Hlr, flaggedQueries_lookup, Hq.
    cbn [fmap option_fmap option_map deref mbind outcome_bind].
    destruct (parseGetMetricDataTimeSeries_total lr
                (withExceeded (lastExceeded id outputs) query))
      as (frames & partialData & -> & _).
    + destruct (lastExceeded id outputs) as [exceeded|]; simpl; [by eapply Hread|].
      rewrite <- (set_RequestExceededMaxLimit_same query). by eapply Hread.
    + intros label r Hr.
      destruct (merged_sound _ id label lr r Hsound Hlr Hr) as (Hlen & Hsome & Hclean).
      split; [|done]. by right.
    + cbn [mbind outcome_bind]. eauto.
  - exists ys. split; [exact Hys|].
    apply collectLoop_Ok in Hys as (ys' & Hall & Heq). simpl in Heq. subst ys'.
    apply Forall2_length in Hall. rewrite <- Hall.
    rewrite rangeKeys_perm, dom_merged. done.
Qed.

(** X5 on the request of [TestQueryCloudWatch_TimeSeries]. *)
Lemma parseResponse_sound_request_witness :
  ∃ responses,
    parseResponse (kinds := multiValuedKinds) (range := canonicalRange)
      testOutputs testQueries = Ok responses ∧
    length responses = size (referencedIds testOutputs).
Proof.
  apply (parseResponse_sound_request (kinds := multiValuedKinds) (range := canonicalRange)
           testOutputs testQueries).
  - repeat constructor; apply elem_of_dom; eexists; reflexivity.
  - repeat constructor; eexists; reflexivity.
  - intros id query exceeded _ Huser. discriminate Huser.
Defined.

(** X19: the records do not depend on the order in which [range] visits
    the maps, but for their own order: when [parseResponse] returns under one
    order it returns under any other, with the same records permuted
    (provided no two dimensions of a query over a multi-valued dimension
    share the greatest number of candidates). *)
Theorem parseResponse_any_range `{kinds : QueryKinds} (range1 range2 : MapRange)
    (outputs : list GetMetricDataOutput) (queries : gmap string cloudWatchQuery)
    (responses : list cloudwatchResponse) :
  (∀ id query exceeded,
     queries !! id = Some query →
     isMultiValuedDimensionExpression (set_RequestExceededMaxLimit query exceeded) = true →
     noTie query) →
  parseResponse (range := range1) outputs queries = Ok responses →
  ∃ responses',
    parseResponse (range := range2) outputs queries = Ok responses' ∧
    responses ≡ₚ responses'.
Proof. apply parseResponse_range. Qed.

(** X19 on the request of [TestQueryCloudWatch_TimeSeries] and the two
    orders [canonicalRange] and [reverseRange]. *)
Lemma parseResponse_any_range_witness :
  ∃ responses',
    parseResponse (kinds := plainKinds) (range := reverseRange) testOutputs testQueries
    = Ok responses' ∧
    recordsOf (kinds := plainKinds) (range := canonicalRange) testOutputs testQueries
    ≡ₚ responses'.
Proof.
  apply (parseResponse_any_range (kinds := plainKinds) canonicalRange reverseRange
           testOutputs testQueries).
  - intros id query exceeded _ Hmulti. discriminate Hmulti.
  - reflexivity.
Defined.

(** ** [parseGetMetricDataTimeSeries] *)

(** X6: formatting returns, with frames and without fault, whenever every
    merged result of the query is formattable (values present, one per time
    stamp, or none at all under a multi-valued dimension) and carries no
    [ArithmeticError] message; the flag it returns is true exactly when some
    label's merged status is not ["Complete"]. *)
Theorem parseGetMetricDataTimeSeries_sound_results `{kinds : QueryKinds} `{range : MapRange}
    (metricDataResults : gmap string MetricDataResult) (query : cloudWatchQuery) :
  aliasReadable query →
  (∀ label r, metricDataResults !! label = Some r →
              formattable query r ∧ noArithmeticError r) →
  ∃ frames partialData,
    parseGetMetricDataTimeSeries metricDataResults query = Ok (frames, partialData) ∧
    (partialData = true ↔
     ∃ label r, metricDataResults !! label = Some r ∧ ¬ isComplete r).
Proof. apply parseGetMetricDataTimeSeries_total. Qed.

(** X6 on the merged pages of query ["a"]. *)
Lemma parseGetMetricDataTimeSeries_sound_results_witness :
  ∃ frames partialData,
    parseGetMetricDataTimeSeries (kinds := plainKinds) (range := canonicalRange)
      (resultsOf limitThenNone oneQuery "a") (metricQuery "a" "A" ∅ "")
    = Ok (frames, partialData) ∧
    (partialData = true ↔
     ∃ label r, resultsOf limitThenNone oneQuery "a" !! label = Some r ∧ ¬ isComplete r).
Proof.
  apply (parseGetMetricDataTimeSeries_sound_results (kinds := plainKinds)
           (range := canonicalRange) (resultsOf limitThenNone oneQuery "a")
           (metricQuery "a" "A" ∅ "")).
  - intros Huser. discriminate Huser.
  - intros label r Hr.
    assert (label = "label" ∧
            r = fragment "a" "label" "Complete" [seconds 0; seconds 60]
                  [Some 1%float; Some 2%float]) as [-> ->].
    { change (resultsOf limitThenNone oneQuery "a")
        with ({["label" := fragment "a" "label" "Complete" [seconds 0; seconds 60]
                             [Some 1%float; Some 2%float]]} : gmap string MetricDataResult)
        in Hr.
      apply lookup_singleton_Some in Hr as [<- <-]. done. }
    split.
    + right. split; [reflexivity|]. repeat constructor; eexists; reflexivity.
    + constructor.
Defined.

(** X7: which error formatting reports: the first [ArithmeticError] message
    of the lexicographically least label that has one, provided the results
    of the labels before it are formattable (a fault there would come
    first). *)
Theorem parseGetMetricDataTimeSeries_first_error `{kinds : QueryKinds} `{range : MapRange}
    (metricDataResults : gmap string MetricDataResult) (query : cloudWatchQuery)
    (label : string) (r : MetricDataResult) (clean rest : list MessageData)
    (message : MessageData) :
  aliasReadable query →
  metricDataResults !! label = Some r →
  res_Messages r = clean ++ message :: rest →
  Forall (λ message, msg_Code message ≠ "ArithmeticError") clean →
  msg_Code message = "ArithmeticError" →
  (∀ l r', metricDataResults !! l = Some r' → labelBefore l label →
           formattable query r' ∧ noArithmeticError r') →
  parseGetMetricDataTimeSeries metricDataResults query
  = Err (ArithmeticErrorInQuery (q_RefId query) (msg_Value message)).
Proof.
  intros Hread Hr Hmessages Hclean Hcode Hbefore.
  rewrite parseGetMetricDataTimeSeries_eq.
  destruct (metricDataResultLabels_split metricDataResults label)
    as (before & after & Heq & Hlt); [eauto|].
  rewrite Heq.
  rewrite (appendLoop_first_Err _ before after label []
             (ArithmeticErrorInQuery (q_RefId query) (msg_Value message))); [done| |].
  - rewrite Forall_forall in Hlt. apply Forall_forall. intros l Hl.
    assert (is_Some (metricDataResults !! l)) as [r' Hr'].
    { apply metricDataResultLabels_elem_of. rewrite Heq. apply elem_of_app. by left. }
    destruct (Hbefore l r' Hr' (Hlt l Hl)) as [Hform Hnone].
    by apply (labelOutcome_total query metricDataResults l r').
  - unfold labelOutcome. rewrite Hr. cbn [deref mbind outcome_bind].
    by rewrite Hmessages, checkMessages_first.
Qed.

(** X7 on a query with two labels, both in error: the error of label
    ["a"] is the one reported. *)
Lemma parseGetMetricDataTimeSeries_first_error_witness :
  parseGetMetricDataTimeSeries (kinds := plainKinds) (range := canonicalRange)
    twoFailingLabels (metricQuery "a" "A" ∅ "")
  = Err (ArithmeticErrorInQuery "A" "first").
Proof.
  apply (parseGetMetricDataTimeSeries_first_error (kinds := plainKinds)
           (range := canonicalRange) twoFailingLabels (metricQuery "a" "A" ∅ "")
           "a" (failingResult "a" "first") [] []
           {| msg_Code := "ArithmeticError"; msg_Value := "first" |}).
  - intros Huser. discriminate Huser.
  - reflexivity.
  - reflexivity.
  - constructor.
  - reflexivity.
  - intros l r' Hl [Hle Hne]. exfalso.
    unfold twoFailingLabels in Hl.
    apply lookup_insert_Some in Hl as [[<- _]|[_ Hl]]; [done|].
    apply lookup_insert_Some in Hl as [[<- _]|[_ Hl]]; [|done].
    vm_compute in Hle. done.
Defined.

(** X8: what formatting returns does not depend on the order in which
    [range] visits the maps, provided that no two dimensions of a query over
    a multi-valued dimension share the greatest number of candidates.  With
    such a tie the dimension that fans out is the one [range] meets first:
    on [tiedQuery] one order fans out over [a], the other over [b]. *)
Theorem parseGetMetricDataTimeSeries_any_range `{kinds : QueryKinds}
    (range1 range2 : MapRange) (metricDataResults : gmap string MetricDataResult)
    (query : cloudWatchQuery) :
  (isMultiValuedDimensionExpression query = true → noTie query) →
  parseGetMetricDataTimeSeries (range := range1) metricDataResults query
  = parseGetMetricDataTimeSeries (range := range2) metricDataResults query ∧
  frameTags (labelFrames (kinds := multiValuedKinds) (range := canonicalRange)
               tiedQuery "label" noData)
  = Ok [ <["a" := "1"]> {["b" := "x"]}; <["a" := "2"]> {["b" := "x"]} ] ∧
  frameTags (labelFrames (kinds := multiValuedKinds) (range := reverseRange)
               tiedQuery "label" noData)
  = Ok [ <["a" := "1"]> {["b" := "x"]}; <["a" := "1"]> {["b" := "y"]} ].
Proof.
  intros Htie. split; [|split; reflexivity].
  by apply parseGetMetricDataTimeSeries_range.
Qed.

(** X8 on a query with three candidates for [a] and two for [b], and the
    two orders [canonicalRange] and [reverseRange]. *)
Lemma parseGetMetricDataTimeSeries_any_range_witness :
  parseGetMetricDataTimeSeries (kinds := multiValuedKinds) (range := canonicalRange)
    ({["label" := noData]} : gmap string MetricDataResult) unevenQuery
  = parseGetMetricDataTimeSeries (kinds := multiValuedKinds) (range := reverseRange)
      ({["label" := noData]} : gmap string MetricDataResult) unevenQuery ∧
  frameTags (labelFrames (kinds := multiValuedKinds) (range := canonicalRange)
               tiedQuery "label" noData)
  = Ok [ <["a" := "1"]> {["b" := "x"]}; <["a" := "2"]> {["b" := "x"]} ] ∧
  frameTags (labelFrames (kinds := multiValuedKinds) (range := reverseRange)
               tiedQuery "label" noData)
  = Ok [ <["a" := "1"]> {["b" := "x"]}; <["a" := "1"]> {["b" := "y"]} ].
Proof.
  apply (parseGetMetricDataTimeSeries_any_range (kinds := multiValuedKinds)
           canonicalRange reverseRange
           ({["label" := noData]} : gmap string MetricDataResult) unevenQuery).
  intros _ k1 k2 H1 H2 _.
  assert (∀ k, longest unevenQuery k → k = "a") as Ha.
  { intros k Hk. specialize (Hk "a").
    destruct (decide (k = "a")) as [->|Hne]; [done|]. exfalso. revert Hk.
    unfold dimensionValues, unevenQuery, metricQuery. cbn [q_Dimensions].
    rewrite lookup_insert_eq, lookup_insert_ne by done.
    destruct (decide (k = "b")) as [->|Hb].
    - rewrite lookup_insert_eq. simpl. lia.
    - rewrite lookup_insert_ne, lookup_empty by done. simpl. lia. }
  by rewrite (Ha k1 H1), (Ha k2 H2).
Defined.

(** ** [parseGetMetricDataTimeSeries]: the tags *)

(** X9: the tag of a dimension in a frame with data: a dimension with a
    single candidate that is no wildcard is tagged with it whatever the
    label; otherwise the candidates are tried in order against the label (a
    candidate equal to the label or ["*"] gives the label, a candidate the
    label contains gives the candidate) and the last one that matches
    decides; a dimension without a match has no tag. *)
Theorem dimensionTags_last_match `{range : MapRange} (query : cloudWatchQuery)
    (label key : string) :
  dimensionTags query label !! key = tagOf label (dimensionValues query key).
Proof. apply dimensionTags_lookup. Qed.

(** X10: every tag of every frame a label yields belongs to a dimension the
    query declares, and its value is the label or one of the candidates of
    that dimension. *)
Theorem frame_tags_within_dimensions `{kinds : QueryKinds} `{range : MapRange}
    (query : cloudWatchQuery) (label : string) (r : MetricDataResult)
    (frames : list Frame) (frame : Frame) (key tag : string) :
  labelFrames query label r = Ok frames →
  frame ∈ frames →
  frm_Tags frame !! key = Some tag →
  ∃ values, q_Dimensions query !! key = Some values ∧ (tag = label ∨ tag ∈ values).
Proof.
  unfold labelFrames. destruct (_ && _).
  - unfold emptyFrames. intros (frames' & -> & Hall)%emptyFrames_loop_inv Hframe Htag.
    simpl in Hframe. apply list_elem_of_lookup in Hframe as [i Hi].
    destruct (Forall2_lookup_l _ _ _ _ _ Hall Hi) as (value & Hvalue & _ & Htags).
    rewrite Htags, emptyFrameTags_lookup in Htag.
    apply list_elem_of_lookup_2 in Hvalue.
    destruct (decide (key = (multiValuedDimension query).2)) as [->|Hne].
    + injection Htag as <-.
      apply dimensionValues_elem_of in Hvalue as (values & ? & ?). eauto.
    + assert (tag ∈ dimensionValues query key) as Hin.
      { destruct (dimensionValues query key); [done|]. injection Htag as <-. left. }
      apply dimensionValues_elem_of in Hin as (values & ? & ?). eauto.
  - intros (timestamps & points & name & _ & _ & ->)%seriesFrame_inv
      ->%list_elem_of_singleton Htag.
    cbn [frm_Tags] in Htag. rewrite dimensionTags_lookup in Htag.
    unfold dimensionValues in Htag.
    destruct (q_Dimensions query !! key) as [values|]; [|done].
    exists values. split; [done|]. by apply tagOf_Some.
Qed.

(** X10 on the first empty frame of a query with two candidates for
    [dim1]. *)
Lemma frame_tags_within_dimensions_witness :
  ∃ values, q_Dimensions fanOutQuery !! "dim1" = Some values ∧
            ("val1" = "label" ∨ "val1" ∈ values).
Proof.
  apply (frame_tags_within_dimensions (kinds := multiValuedKinds) (range := canonicalRange)
           fanOutQuery "label" noData
           [ emptyFrame "test_stat1" {["dim1" := "val1"]};
             emptyFrame "test_stat1" {["dim1" := "val2"]} ]
           (emptyFrame "test_stat1" {["dim1" := "val1"]}) "dim1" "val1").
  - reflexivity.
  - left.
  - reflexivity.
Defined.

(** ** [parseGetMetricDataTimeSeries]: the columns *)

(** X20: on a series whose values are all present, one per time stamp,
    gap-filling puts out each input pair in order and, before pair [j > 0],
    exactly one synthetic null point at [timestamps[j-1] + period] seconds if
    and only if that instant is strictly before [timestamps[j]]
    ([gapFilled]); when consecutive time stamps are exactly one period apart
    nothing is inserted; and time stamps 0 s and 120 s with period 60 yield
    one synthetic null point at 60 s. *)
Theorem gapFill_fills_gaps (period : Z) (Ts : list Time) (Vs : list (option float64)) :
  - 2 ^ 63 ≤ period * 1000000000 < 2 ^ 63 →
  length Vs = length Ts →
  Forall is_Some Vs →
  gapFill period Ts Vs 0 Ts [] []
    = Ok ((gapFilled period Ts Vs).*1, (gapFilled period Ts Vs).*2) ∧
  (gapless period Ts → gapFilled period Ts Vs = zip (unixMilli <$> Ts) Vs) ∧
  gapFill 60 [seconds 0; seconds 120] [Some 1%float; Some 2%float] 0
          [seconds 0; seconds 120] [] []
    = Ok ([0; 60000; 120000], [Some 1%float; None; Some 2%float]).
Proof.
  intros Hperiod Hparallel Hpresent. split; [|split].
  - by apply gapFill_gapFilled.
  - intros Hgapless. unfold gapFilled.
    by rewrite (gapless_from period Ts Vs Hparallel Hpresent Ts 0).
  - reflexivity.
Qed.

(** X20 on three samples, the last one late by a period. *)
Lemma gapFill_fills_gaps_witness :
  gapFill 60 [seconds 0; seconds 60; seconds 180] [Some 1%float; Some 2%float; Some 3%float]
          0 [seconds 0; seconds 60; seconds 180] [] []
    = Ok ((gapFilled 60 [seconds 0; seconds 60; seconds 180]
                     [Some 1%float; Some 2%float; Some 3%float]).*1,
          (gapFilled 60 [seconds 0; seconds 60; seconds 180]
                     [Some 1%float; Some 2%float; Some 3%float]).*2) ∧
  (gapless 60 [seconds 0; seconds 60; seconds 180] →
   gapFilled 60 [seconds 0; seconds 60; seconds 180]
             [Some 1%float; Some 2%float; Some 3%float]
   = zip (unixMilli <$> [seconds 0; seconds 60; seconds 180])
         [Some 1%float; Some 2%float; Some 3%float]) ∧
  gapFill 60 [seconds 0; seconds 120] [Some 1%float; Some 2%float] 0
          [seconds 0; seconds 120] [] []
    = Ok ([0; 60000; 120000], [Some 1%float; None; Some 2%float]).
Proof.
  apply (gapFill_fills_gaps 60 [seconds 0; seconds 60; seconds 180]
           [Some 1%float; Some 2%float; Some 3%float]).
  - lia.
  - reflexivity.
  - repeat constructor; eexists; reflexivity.
Defined.

(** X11: the frame of a result with data: one frame, tagged by
    [dimensionTags], with a time column and a value column of one length;
    between one and two points per time stamp (never a gap point before the
    first); and, once the null points are taken out, exactly the samples of
    the result, in order, as many as there are time stamps (values past the
    last time stamp are ignored). *)
Theorem labelFrames_series_shape `{kinds : QueryKinds} `{range : MapRange}
    (query : cloudWatchQuery) (label : string) (r : MetricDataResult)
    (frames : list Frame) :
  res_Values r ≠ [] ∨ isMultiValuedDimensionExpression query = false →
  labelFrames query label r = Ok frames →
  ∃ name timestamps points,
    frames = [ {| frm_Name := name;
                  frm_Fields :=
                    [ {| fld_Name := "timestamp"; fld_Values := TimeColumn timestamps |};
                      {| fld_Name := "value"; fld_Values := NullableColumn points |} ];
                  frm_Tags := dimensionTags query label |} ] ∧
    formatAlias query (q_Stats query) (dimensionTags query label) label = Ok name ∧
    length timestamps = length points ∧
    (length (res_Timestamps r) ≤ length points ≤ 2 * length (res_Timestamps r) - 1)%nat ∧
    samples timestamps points = zip (unixMilli <$> res_Timestamps r) (res_Values r).
Proof.
  intros Hbranch%series_branch. unfold labelFrames. rewrite Hbranch.
  intros (timestamps & points & name & Hgap & Hname & ->)%seriesFrame_inv.
  apply gapFill_inv in Hgap as (ts & ps & -> & -> & Hlen & Hle & Hfirst & Hs).
  specialize (Hfirst eq_refl). exists name, ts, ps.
  split; [done|]. split; [done|]. split; [done|]. split; [lia|done].
Qed.

(** X11 on two samples three periods apart. *)
Lemma labelFrames_series_shape_witness :
  ∃ name timestamps points,
    [ {| frm_Name := "test_stat1";
         frm_Fields :=
           [ {| fld_Name := "timestamp"; fld_Values := TimeColumn [0; 60000; 180000] |};
             {| fld_Name := "value";
                fld_Values := NullableColumn [Some 1%float; None; Some 2%float] |} ];
         frm_Tags := ∅ |} ]
    = [ {| frm_Name := name;
           frm_Fields :=
             [ {| fld_Name := "timestamp"; fld_Values := TimeColumn timestamps |};
               {| fld_Name := "value"; fld_Values := NullableColumn points |} ];
           frm_Tags := dimensionTags (range := canonicalRange)
                         (metricQuery "a" "A" ∅ "") "label" |} ] ∧
    formatAlias (kinds := plainKinds) (range := canonicalRange)
      (metricQuery "a" "A" ∅ "") (q_Stats (metricQuery "a" "A" ∅ ""))
      (dimensionTags (range := canonicalRange) (metricQuery "a" "A" ∅ "") "label") "label"
    = Ok name ∧
    length timestamps = length points ∧
    (length [seconds 0; seconds 180] ≤ length points
     ≤ 2 * length [seconds 0; seconds 180] - 1)%nat ∧
    samples timestamps points
    = zip (unixMilli <$> [seconds 0; seconds 180]) [Some 1%float; Some 2%float].
Proof.
  apply (labelFrames_series_shape (kinds := plainKinds) (range := canonicalRange)
           (metricQuery "a" "A" ∅ "") "label"
           (fragment "a" "label" "Complete" [seconds 0; seconds 180]
              [Some 1%float; Some 2%float])).
  - right. reflexivity.
  - reflexivity.
Defined.

(** X12: whatever the series, a null among the values that are paired with a
    time stamp makes the gap-filling loop panic with a nil dereference: no
    null of the input reaches the value column. *)
Theorem gapFill_null_faults (period : Z) (Ts : list Time) (Vs : list (option float64))
    (k : nat) :
  (k < length Ts)%nat →
  Vs !! k = Some None →
  gapFill period Ts Vs 0 Ts [] [] = Panic NilDereference.
Proof.
  intros Hk Hnull. apply (gapFill_null_sample period Ts Vs Ts 0 k); [done|lia|done].
Qed.

(** X12 on the series of [nullSample]. *)
Lemma gapFill_null_faults_witness :
  gapFill 60 (res_Timestamps nullSample) (res_Values nullSample) 0
          (res_Timestamps nullSample) [] []
  = Panic NilDereference.
Proof.
  apply (gapFill_null_faults 60 (res_Timestamps nullSample) (res_Values nullSample) 1).
  - simpl. lia.
  - reflexivity.
Defined.

(** X13: a result with data and fewer values than time stamps, all of them
    present, makes formatting panic with an index out of range: the loop
    runs over the time stamps and reads the value of each. *)
Theorem labelFrames_missing_value `{kinds : QueryKinds} `{range : MapRange}
    (query : cloudWatchQuery) (label : string) (r : MetricDataResult) :
  (length (res_Values r) < length (res_Timestamps r))%nat →
  Forall is_Some (res_Values r) →
  res_Values r ≠ [] ∨ isMultiValuedDimensionExpression query = false →
  labelFrames query label r = Panic IndexOutOfRange.
Proof.
  intros Hshort Hpresent Hbranch%series_branch.
  unfold labelFrames. rewrite Hbranch. unfold seriesFrame. cbv zeta.
  by rewrite gapFill_short by (done || lia).
Qed.

(** X13 on two time stamps and one value. *)
Lemma labelFrames_missing_value_witness :
  labelFrames (kinds := plainKinds) (range := canonicalRange)
    (metricQuery "a" "A" ∅ "") "label"
    (fragment "a" "label" "Complete" [seconds 0; seconds 60] [Some 1%float])
  = Panic IndexOutOfRange.
Proof.
  apply (labelFrames_missing_value (kinds := plainKinds) (range := canonicalRange)
           (metricQuery "a" "A" ∅ "") "label"
           (fragment "a" "label" "Complete" [seconds 0; seconds 60] [Some 1%float])).
  - simpl. lia.
  - repeat constructor. eexists. reflexivity.
  - right. reflexivity.
Defined.

(** X18: time stamps in non-decreasing order give a time column in
    non-decreasing order, gap points included, when the period is not
    negative (and period and time stamps are within the range of the
    nanosecond arithmetic). *)
Theorem labelFrames_keeps_order `{kinds : QueryKinds} `{range : MapRange}
    (query : cloudWatchQuery) (label : string) (r : MetricDataResult)
    (frames : list Frame) (frame : Frame) :
  0 ≤ q_Period query * 1000000000 < 2 ^ 63 →
  Forall inInt64 (res_Timestamps r) →
  StronglySorted Z.le (res_Timestamps r) →
  labelFrames query label r = Ok frames →
  frame ∈ frames →
  StronglySorted Z.le (frameTimes frame).
Proof.
  intros Hperiod Hfit Hsorted. unfold labelFrames. destruct (_ && _).
  - unfold emptyFrames. intros (frames' & -> & Hall)%emptyFrames_loop_inv Hframe.
    simpl in Hframe. apply list_elem_of_lookup in Hframe as [i Hi].
    destruct (Forall2_lookup_l _ _ _ _ _ Hall Hi) as (value & _ & Hfields & _).
    unfold frameTimes. rewrite Hfields. constructor.
  - intros (timestamps & points & name & Hgap & _ & ->)%seriesFrame_inv
      ->%list_elem_of_singleton.
    unfold frameTimes. cbn [frm_Fields flat_map fld_Values]. rewrite app_nil_r.
    apply (gapFill_sorted _ _ _ _ 0 [] timestamps [] points) in Hgap; try done.
    + rewrite periodDuration_seconds by lia. unfold Second. lia.
    + constructor.
Qed.

(** X18 on two samples three periods apart. *)
Lemma labelFrames_keeps_order_witness :
  StronglySorted Z.le
    (frameTimes
       {| frm_Name := "test_stat1";
          frm_Fields :=
            [ {| fld_Name := "timestamp"; fld_Values := TimeColumn [0; 60000; 180000] |};
              {| fld_Name := "value";
                 fld_Values := NullableColumn [Some 1%float; None; Some 2%float] |} ];
          frm_Tags := ∅ |}).
Proof.
  apply (labelFrames_keeps_order (kinds := plainKinds) (range := canonicalRange)
           (metricQuery "a" "A" ∅ "") "label"
           (fragment "a" "label" "Complete" [seconds 0; seconds 180]
              [Some 1%float; Some 2%float])
           [ {| frm_Name := "test_stat1";
                frm_Fields :=
                  [ {| fld_Name := "timestamp";
                       fld_Values := TimeColumn [0; 60000; 180000] |};
                    {| fld_Name := "value";
                       fld_Values := NullableColumn [Some 1%float; None; Some 2%float] |} ];
                frm_Tags := ∅ |} ]).
  - simpl. lia.
  - repeat constructor; vm_compute; discriminate.
  - repeat constructor; vm_compute; discriminate.
  - reflexivity.
  - left.
Defined.

(** ** [formatAlias] *)

(** X14: [formatAlias] never fails with an error value: it returns a name
    exactly when the query is no user-defined search expression or its
    expression holds a comma, and panics on the slice
    [query.Expression[:pIndex]] with the bound -1 otherwise. *)
Theorem formatAlias_returns_or_panics `{kinds : QueryKinds} `{range : MapRange}
    (query : cloudWatchQuery) (stat : string) (dimensions : gmap string string)
    (label : string) :
  (aliasReadable query ↔ ∃ name, formatAlias query stat dimensions label = Ok name) ∧
  (¬ aliasReadable query
   ↔ formatAlias query stat dimensions label = Panic SliceBoundsOutOfRange).
Proof.
  assert (Decision (aliasReadable query)) as [Hread|Hnot].
  { unfold aliasReadable. apply _. }
  - destruct (formatAlias_Ok query stat dimensions label Hread) as [name Hname].
    rewrite Hname. split; split; [eauto|done|done|done].
  - rewrite (formatAlias_unreadable query stat dimensions label Hnot).
    split; split; [done|by intros [name ?]|done|done].
Qed.

(** X15: for a user-defined search expression the period and the statistic
    of the alias are read off the expression, not the query: the period is
    what follows the last comma, trimmed of blanks and closing parentheses,
    the statistic what stands between the last two commas (or before the
    only one), trimmed of blanks and single quotes. *)
Theorem aliasPeriodStat_search_arguments `{kinds : QueryKinds}
    (query : cloudWatchQuery) (stat front mid tail : string) :
  isUserDefinedSearchExpression query = true →
  q_Expression query = front +:+ mid +:+ "," +:+ tail →
  front = "" ∨ (∃ head, front = head +:+ ",") →
  hasByte "," mid = false →
  hasByte "," tail = false →
  aliasPeriodStat query stat = Ok (Trim tail " )", Trim mid " '").
Proof. apply aliasPeriodStat_arguments. Qed.

(** X15 on [SEARCH('{AWS/EC2,InstanceId} CPUUtilization', 'Maximum', 300)],
    against the query's own [Average] and [60]. *)
Lemma aliasPeriodStat_search_arguments_witness :
  aliasPeriodStat (kinds := searchKinds) searchQuery "Average" = Ok ("300", "Maximum").
Proof.
  apply (aliasPeriodStat_search_arguments (kinds := searchKinds) searchQuery "Average"
           "SEARCH('{AWS/EC2,InstanceId} CPUUtilization'," " 'Maximum'" " 300)").
  - reflexivity.
  - reflexivity.
  - right. exists "SEARCH('{AWS/EC2,InstanceId} CPUUtilization'". reflexivity.
  - reflexivity.
  - reflexivity.
Defined.

(** X16: the name under an empty alias: the query id for a math expression;
    else the raw label for an inferred search expression that is not
    multi-valued; else [metricName_stat], the statistic being the given one
    unless the query is a user-defined search expression. *)
Theorem formatAlias_empty_alias `{kinds : QueryKinds} `{range : MapRange}
    (query : cloudWatchQuery) (stat : string) (dimensions : gmap string string)
    (label : string) :
  q_Alias query = "" →
  aliasReadable query →
  ∃ period stat',
    aliasPeriodStat query stat = Ok (period, stat') ∧
    (isUserDefinedSearchExpression query = false → stat' = stat) ∧
    formatAlias query stat dimensions label
    = Ok (if isMathExpression query then q_Id query
          else if isInferredSearchExpression query
                  && negb (isMultiValuedDimensionExpression query) then label
          else q_MetricName query +:+ "_" +:+ stat').
Proof.
  intros Halias Hread.
  destruct (aliasPeriodStat_Ok query stat Hread) as (period & stat' & Hps & Hplain).
  exists period, stat'. split; [done|]. split; [by intros [_ ?]%Hplain|].
  unfold formatAlias. rewrite Hps, Halias. cbn [mbind outcome_bind].
  change (len "" =? 0) with true. cbn [andb].
  destruct (isMathExpression query); [done|].
  by destruct (isInferredSearchExpression query
               && negb (isMultiValuedDimensionExpression query)).
Qed.

(** X16 on a plain query for the metric [cpu]: the name is [cpu_Average]. *)
Lemma formatAlias_empty_alias_witness :
  ∃ period stat',
    aliasPeriodStat (kinds := plainKinds) cpuQuery "Average" = Ok (period, stat') ∧
    (isUserDefinedSearchExpression (QueryKinds := plainKinds) cpuQuery = false →
     stat' = "Average") ∧
    formatAlias (kinds := plainKinds) (range := canonicalRange) cpuQuery "Average" ∅ ""
    = Ok (if isMathExpression (QueryKinds := plainKinds) cpuQuery then q_Id cpuQuery
          else if isInferredSearchExpression (QueryKinds := plainKinds) cpuQuery
                  && negb (isMultiValuedDimensionExpression (QueryKinds := plainKinds)
                             cpuQuery)
               then ""
          else q_MetricName cpuQuery +:+ "_" +:+ stat').
Proof.
  apply (formatAlias_empty_alias (kinds := plainKinds) (range := canonicalRange)
           cpuQuery "Average" ∅ "").
  - reflexivity.
  - intros Huser. discriminate Huser.
Defined.

(** X17: the name does not depend on the order in which [range] visits the
    tags: a tag goes before the built-in entry of the same name in either
    order. *)
Theorem formatAlias_any_range `{kinds : QueryKinds} (range1 range2 : MapRange)
    (query : cloudWatchQuery) (stat : string) (dimensions : gmap string string)
    (label : string) :
  formatAlias (range := range1) query stat dimensions label
  = formatAlias (range := range2) query stat dimensions label.
Proof. apply formatAlias_range. Qed.

(** ** The scenario of [TestQueryCloudWatch_TimeSeries] *)

(** The repository's own scenario: each of the two queries yields one frame
    named [metricName_stat], its two samples a day apart with one null point
    between them. *)
Theorem TestQueryCloudWatch_TimeSeries_frames :
  seriesOf (responseOf (kinds := multiValuedKinds) (range := canonicalRange)
              testOutputs testQueries "queryid_stat1")
  = Ok [("test_stat1", [Some 1%float; None; Some 2%float])] ∧
  seriesOf (responseOf (kinds := multiValuedKinds) (range := canonicalRange)
              testOutputs testQueries "queryid_stat2")
  = Ok [("test_stat2", [Some 3%float; None; Some 4%float])] ∧
  partialDataFlags
    (parseResponse (kinds := multiValuedKinds) (range := canonicalRange)
       testOutputs testQueries)
  = Ok [("id", false); ("id", false)].
Proof. split; [|split]; reflexivity. Qed.
